(** * routines: hierarchical goroutine synchronisation, and services on top of it

    A model of package [routines] (routines.go, service.go).

    - The heap holds the [routines] structs; a [*routines] is [option ptr]
      ([None] is the nil pointer) and a value of the interface [Routines]
      is either the nil interface or a [*routines] (possibly nil).
    - The methods that never block ([NewRoutines], [Done], [Child], [Go],
      [Stop], [childrenUp], [childrenDown]) are functions in a state monad
      with panics.
    - Goroutines launched by [Go] live in a pool; a scheduler label picks
      the goroutine or the blocked call that moves next, so every
      interleaving is a list of labels.
    - Calls that block ([Wait], [service.Start], [service.Stop]) are call
      frames that advance one statement at a time. *)

From stdpp Require Import prelude.

Local Open Scope Z_scope.

(** ** Data *)

(** Address of a [routines] struct in the heap. *)
Abbreviation ptr := nat (only parsing).

(** [type routines struct { doneCh; waitgroup; parent; children }].
    [doneCh] is made once by [NewRoutines], never reassigned and never sent
    on: the field stores whether the channel has been closed.  A
    [sync.WaitGroup] is its counter. *)
Record routines := mkRoutines {
  doneCh : bool;
  waitgroup : Z;
  parent : option ptr;
  children : Z
}.

(** A value of the interface type [Routines]: the nil interface, or an
    interface holding a [*routines], which may itself be a nil pointer. *)
Inductive Routines :=
| nil_Routines
| of_ptr (me : option ptr).

(** A [<-chan struct{}]: the nil channel, or the [doneCh] of a node. *)
Abbreviation chan := (option nat) (only parsing).

(** The [func()] values handed to [Go]: a function of the caller, about which
    nothing is known, or the closure [fn] that [Child] builds, with its
    captured [parent] and [child]. *)
Inductive func :=
| client_fn (id : nat)
| propagate (parent : option ptr) (child : Routines).

(** The two deferred calls of the goroutine that [Go] launches. *)
Inductive deferred :=
| defer_waitgroup_Done (me : ptr)
| defer_childrenDown (par : option ptr).

(** Where a goroutine launched by [Go] stands. *)
Inductive gstatus :=
| Calling (fn : func)            (* fn() is executing *)
| Forwarding (child : Routines)  (* fn took [case <-parent.Done()], child.Stop() is next *)
| Unwinding (panicking : bool)   (* fn is over, deferred calls run *)
| Exited
| Crashed.

Record goroutine := mkGoroutine {
  g_owner : ptr;               (* the [me] whose [Go] launched it *)
  status : gstatus;
  defers : list deferred       (* deferred calls, next to run first *)
}.

Record world := mkWorld {
  heap : list routines;
  pool : list goroutine
}.

(** ** A state monad with panics *)

Inductive outcome (A : Type) :=
| Ok (a : A)
| Panic.
Arguments Ok {A} a.
Arguments Panic {A}.

Definition M (A : Type) : Type := world -> outcome A * world.

Definition ret {A} (a : A) : M A := fun w => (Ok a, w).

Definition panic {A} : M A := fun w => (Panic, w).

Definition bind {A B} (m : M A) (k : A -> M B) : M B :=
  fun w => match m w with
           | (Ok a, w') => k a w'
           | (Panic, w') => (Panic, w')
           end.

Notation "'let*' x ':=' m 'in' k" := (bind m (fun x => k))
  (at level 10, x binder, m at level 100, k at level 200).
Notation "m '>>' k" := (bind m (fun _ => k))
  (at level 100, k at level 200, right associativity).

(** [defer func() { recover() }()] around [m]: a panic of [m] is swallowed,
    the effects [m] had before it stay. *)
Definition recover (m : M unit) : M unit :=
  fun w => match m w with
           | (Panic, w') => (Ok tt, w')
           | r => r
           end.

(** ** Memory and the runtime's primitives *)

Definition load (p : ptr) : M routines :=
  fun w => match heap w !! p with
           | Some r => (Ok r, w)
           | None => (Panic, w)
           end.

Definition store (p : ptr) (r : routines) : M unit :=
  fun w => (Ok tt, mkWorld (<[p := r]> (heap w)) (pool w)).

Definition alloc (r : routines) : M ptr :=
  fun w => (Ok (length (heap w)), mkWorld (heap w ++ [r]) (pool w)).

(** The [go] statement. *)
Definition go_stmt (g : goroutine) : M unit :=
  fun w => (Ok tt, mkWorld (heap w) (pool w ++ [g])).

(** [sync.WaitGroup.Add(1)] and [sync.WaitGroup.Done()] on the two counters
    of a node.  A [sync.WaitGroup] is modelled by its counter alone, and each
    call as one atomic update of it.  [Done] subtracts 1 and then panics if
    the counter has become negative, leaving the new value in place.

    What this leaves out: the count of parked waiters and the checks that
    [sync.WaitGroup] makes on it.  [Add] can panic when it runs concurrently
    with a parked [Wait] (misuse), [Done] likewise, and a [Wait] that has been
    released panics when the counter was raised again before it woke up
    (reuse); the counter is an [int32].  None of these panics is a step of
    this model, so the properties proved of [Go], of [Wait] and of the calls
    that wait are stated for calls that return, or along schedules that are
    given. *)
Definition waitgroup_Add (p : ptr) : M unit :=
  let* r := load p in
  store p (mkRoutines (doneCh r) (waitgroup r + 1) (parent r) (children r)).

Definition waitgroup_Done (p : ptr) : M unit :=
  let* r := load p in
  store p (mkRoutines (doneCh r) (waitgroup r - 1) (parent r) (children r)) >>
  if decide (waitgroup r - 1 < 0) then panic else ret tt.

Definition children_Add (p : ptr) : M unit :=
  let* r := load p in
  store p (mkRoutines (doneCh r) (waitgroup r) (parent r) (children r + 1)).

Definition children_Done (p : ptr) : M unit :=
  let* r := load p in
  store p (mkRoutines (doneCh r) (waitgroup r) (parent r) (children r - 1)) >>
  if decide (children r - 1 < 0) then panic else ret tt.

(** [close(me.doneCh)]: closing a closed channel panics. *)
Definition close_doneCh (p : ptr) : M unit :=
  let* r := load p in
  if doneCh r then panic
  else store p (mkRoutines true (waitgroup r) (parent r) (children r)).

(** Is a receive from the channel ready?  Nothing is ever sent, so only a
    closed channel is; the nil channel never is. *)
Definition chan_ready (w : world) (c : chan) : bool :=
  match c with
  | Some p => match heap w !! p with
              | Some r => doneCh r
              | None => false
              end
  | None => false
  end.

(** A method call through the interface: on the nil interface it panics
    (nil pointer dereference), otherwise the method runs with the pointer
    the interface holds as receiver. *)
Definition via {A} (r : Routines) (method : option ptr -> M A) : M A :=
  match r with
  | nil_Routines => panic
  | of_ptr me => method me
  end.

(** ** routines.go *)

(** [func NewRoutines() Routines] *)
Definition NewRoutines : M Routines :=
  let* p := alloc (mkRoutines false 0 None 0) in
  ret (of_ptr (Some p)).

(** [func (me *routines) childrenUp()] *)
Definition childrenUp (me : option ptr) : M unit :=
  match me with
  | Some p => children_Add p
  | None => ret tt
  end.

(** [func (me *routines) childrenDown()] *)
Definition childrenDown (me : option ptr) : M unit :=
  match me with
  | Some p => children_Done p
  | None => ret tt
  end.

(** [func (me *routines) Done() <-chan struct{}] *)
Definition Done (me : option ptr) : M chan :=
  match me with
  | None => ret None
  | Some p => ret (Some p)
  end.

(** [func (me *routines) Go(fn func())].  The goroutine starts with its two
    [defer] statements, so it enters the pool with both calls registered;
    the one deferred last runs first.  [me.parent] is assigned once, before
    any [Go] on the node, so it is read here for the deferred call too. *)
Definition Go (me : option ptr) (fn : func) : M unit :=
  match me with
  | Some p =>
      waitgroup_Add p >>
      let* r := load p in
      childrenUp (parent r) >>
      go_stmt (mkGoroutine p (Calling fn)
                 [defer_childrenDown (parent r); defer_waitgroup_Done p])
  | None => ret tt
  end.

(** [func (me *routines) Stop()] *)
Definition Stop (me : option ptr) : M unit :=
  match me with
  | Some p => recover (close_doneCh p)
  | None => ret tt
  end.

(** [rv.parent = me], after the type assertion of [rv] to a pointer. *)
Definition set_parent (rv : Routines) (me : option ptr) : M unit :=
  match rv with
  | of_ptr (Some c) =>
      let* r := load c in
      store c (mkRoutines (doneCh r) (waitgroup r) me (children r))
  | _ => panic
  end.

(** [func (me *routines) Child() Routines] *)
Definition Child (me : option ptr) : M Routines :=
  match me with
  | None => ret nil_Routines
  | Some _ =>
      let* rv := NewRoutines in
      set_parent rv me >>
      via rv (fun c => Go c (propagate me rv)) >>
      ret rv
  end.

(** The blocking calls of [func (me *routines) Wait()], in order: each entry
    is a [sync.WaitGroup.Wait()] on one counter of a node. *)
Inductive wg_ref :=
| children_of (p : ptr)
| waitgroup_of (p : ptr).

Definition Wait (me : option ptr) : list wg_ref :=
  match me with
  | Some p => [children_of p; waitgroup_of p]
  | None => []
  end.

(** The counter behind a [wg_ref]. *)
Definition counter (w : world) (c : wg_ref) : option Z :=
  match c with
  | children_of p => children <$> heap w !! p
  | waitgroup_of p => waitgroup <$> heap w !! p
  end.

(** ** service.go *)

(** The conditions of package [errors] that [service] reports, and the
    errors a start routine of the caller may return. *)
Inductive error :=
| NilReceiver
| NilArgument
| AlreadyStarted
| client_error (code : nat).

(** Address of a [service] struct. *)
Abbreviation sptr := nat (only parsing).

(** The [start] field: the stub that [NewService] installs for a nil
    argument, or a function of the caller. *)
Inductive start_func :=
| stub_start
| client_start (id : nat).

(** [type service struct { start; mut; routines }]; [mut] is true while the
    mutex is held. *)
Record service := mkService {
  start : start_func;
  mut : bool;
  s_routines : Routines
}.

(** [func NewService(start func(Routines) error) Service] *)
Definition NewService (start : option nat) : service :=
  mkService (match start with
             | None => stub_start
             | Some id => client_start id
             end) false nil_Routines.

(** [me.start(child)]: the stub returns [errors.NilArgument] at once; what a
    function of the caller returns, or whether it panics, is up to it. *)
Definition call_start (f : start_func) (client : outcome (option error))
  : outcome (option error) :=
  match f with
  | stub_start => Ok (Some NilArgument)
  | client_start _ => client
  end.

(** [x != nil] on an interface value: only the nil interface is nil. *)
Definition is_nil (r : Routines) : bool :=
  match r with
  | nil_Routines => true
  | of_ptr _ => false
  end.

(** [r.Wait()] through the interface. *)
Definition via_Wait (r : Routines) : outcome (list wg_ref) :=
  match r with
  | nil_Routines => Panic
  | of_ptr me => Ok (Wait me)
  end.

(** Program points of [service.Start] after the nil check of the receiver. *)
Inductive start_pc :=
| start_Lock                           (* me.mut.Lock(); defer me.mut.Unlock() *)
| start_check                          (* if me.routines != nil { return AlreadyStarted } *)
| start_Child                          (* child := routines.Child(); defer func() {...}() *)
| start_call (child : Routines)        (* err = me.start(child); if err == nil {...}; return err *)
| start_cleanup_Stop (child : Routines) (err : error)   (* deferred: child.Stop() *)
| start_cleanup_Wait (child : Routines) (err : error) (rest : list wg_ref).
                                       (* deferred: child.Wait() *)

(** Program points of [service.Stop] after the nil check of the receiver. *)
Inductive stop_pc :=
| stop_Lock                            (* me.mut.Lock(); defer me.mut.Unlock() *)
| stop_check                           (* if me.routines != nil *)
| stop_Stop                            (* me.routines.Stop() *)
| stop_Wait (rest : list wg_ref).      (* me.routines.Wait(); me.routines = nil *)

Inductive result :=
| no_value
| an_error (err : option error).

(** A call in progress. *)
Inductive frame :=
| in_Wait (rest : list wg_ref)
| in_Start (s : sptr) (routines : Routines) (pc : start_pc)
| in_Stop (s : sptr) (pc : stop_pc)
| returned (v : result)
| panicked.

Global Instance wg_ref_eq_dec : EqDecision wg_ref.
Proof. solve_decision. Defined.
Global Instance Routines_eq_dec : EqDecision Routines.
Proof. solve_decision. Defined.
Global Instance error_eq_dec : EqDecision error.
Proof. solve_decision. Defined.
Global Instance start_pc_eq_dec : EqDecision start_pc.
Proof. solve_decision. Defined.
Global Instance stop_pc_eq_dec : EqDecision stop_pc.
Proof. solve_decision. Defined.
Global Instance result_eq_dec : EqDecision result.
Proof. solve_decision. Defined.
Global Instance frame_eq_dec : EqDecision frame.
Proof. solve_decision. Defined.

Record system := mkSystem {
  nodes : world;
  services : list service;
  frames : list frame
}.

(** [func (me *service) Start(routines Routines) error], on entry. *)
Definition Start (me : option sptr) (routines : Routines) : frame :=
  match me with
  | None => returned (an_error (Some NilReceiver))
  | Some s => in_Start s routines start_Lock
  end.

(** [func (me *service) Stop()], on entry. *)
Definition service_Stop (me : option sptr) : frame :=
  match me with
  | None => returned no_value
  | Some s => in_Stop s stop_Lock
  end.

(** ** One step of a goroutine *)

Definition run_deferred (d : deferred) : M unit :=
  match d with
  | defer_waitgroup_Done p => waitgroup_Done p
  | defer_childrenDown par => childrenDown par
  end.

(** The [select] of the closure in [Child]: the two channel operands, then
    the case taken; [None] while neither is ready, [pick] decides when both
    are. [true] stands for [case <-parent.Done()]. *)
Definition select_case (w : world) (a c : chan) (pick : bool) : option bool :=
  match chan_ready w a, chan_ready w c with
  | true, true => Some pick
  | true, false => Some true
  | false, true => Some false
  | false, false => None
  end.

Definition set_status (g : goroutine) (s : gstatus) : goroutine :=
  mkGoroutine (g_owner g) s (defers g).

(** [b] settles what the code leaves open: for a function of the caller,
    whether it ends by returning ([true]) or by panicking; for the
    propagation closure, the case of the [select] when both are ready. *)
Definition step_goroutine (b : bool) (g : goroutine) (w : world)
  : option (goroutine * world) :=
  match status g with
  | Calling (client_fn _) => Some (set_status g (Unwinding (negb b)), w)
  | Calling (propagate par child) =>
      match (let* a := Done par in let* c := via child Done in ret (a, c)) w with
      | (Ok (a, c), _) =>
          match select_case w a c b with
          | Some true => Some (set_status g (Forwarding child), w)
          | Some false => Some (set_status g (Unwinding false), w)
          | None => None
          end
      | (Panic, _) => Some (set_status g (Unwinding true), w)
      end
  | Forwarding child =>
      match via child Stop w with
      | (Ok _, w') => Some (set_status g (Unwinding false), w')
      | (Panic, w') => Some (set_status g (Unwinding true), w')
      end
  | Unwinding p =>
      match defers g with
      | d :: ds =>
          match run_deferred d w with
          | (Ok _, w') => Some (mkGoroutine (g_owner g) (Unwinding p) ds, w')
          | (Panic, w') => Some (mkGoroutine (g_owner g) (Unwinding true) ds, w')
          end
      | [] => Some (set_status g (if p then Crashed else Exited), w)
      end
  | Exited | Crashed => None
  end.

(** ** One step of a call frame *)

Definition set_mut (sv : service) (b : bool) : service :=
  mkService (start sv) b (s_routines sv).

Definition set_routines (sv : service) (r : Routines) : service :=
  mkService (start sv) (mut sv) r.

(** [sync.WaitGroup.Wait()] lets the caller through when the counter is 0,
    and the caller then returns.  A caller that is not let through waits; the
    panic of a waiter that was released and finds the counter raised again is
    not a step of this model. *)
Definition passes (w : world) (c : wg_ref) : bool :=
  match counter w c with
  | Some n => bool_decide (n = 0)
  | None => false
  end.

(** The frame after its next statement, and the system it leaves.  [None]
    when the statement blocks.  Every way out of [Start] and [Stop] past
    [Lock] runs the deferred [Unlock]. *)
Definition step_frame (client : outcome (option error)) (f : frame) (σ : system)
  : option (frame * system) :=
  match f with
  | in_Wait [] => Some (returned no_value, σ)
  | in_Wait (c :: rest) =>
      if passes (nodes σ) c then Some (in_Wait rest, σ) else None
  | in_Start s r pc =>
      sv ← services σ !! s;
      let unlock sv' := mkSystem (nodes σ) (<[s := set_mut sv' false]> (services σ)) (frames σ) in
      match pc with
      | start_Lock =>
          if mut sv then None
          else Some (in_Start s r start_check,
                     mkSystem (nodes σ) (<[s := set_mut sv true]> (services σ)) (frames σ))
      | start_check =>
          if is_nil (s_routines sv) then Some (in_Start s r start_Child, σ)
          else Some (returned (an_error (Some AlreadyStarted)), unlock sv)
      | start_Child =>
          match via r Child (nodes σ) with
          | (Ok child, w') =>
              Some (in_Start s r (start_call child), mkSystem w' (services σ) (frames σ))
          | (Panic, w') =>
              Some (panicked, mkSystem w' (<[s := set_mut sv false]> (services σ)) (frames σ))
          end
      | start_call child =>
          match call_start (start sv) client with
          | Ok None => Some (returned (an_error None), unlock (set_routines sv child))
          | Ok (Some err) => Some (in_Start s r (start_cleanup_Stop child err), σ)
          | Panic => Some (panicked, unlock sv)
          end
      | start_cleanup_Stop child err =>
          match via child Stop (nodes σ), via_Wait child with
          | (Ok _, w'), Ok rest =>
              Some (in_Start s r (start_cleanup_Wait child err rest),
                    mkSystem w' (services σ) (frames σ))
          | (_, w'), _ =>
              Some (panicked, mkSystem w' (<[s := set_mut sv false]> (services σ)) (frames σ))
          end
      | start_cleanup_Wait child err [] =>
          Some (returned (an_error (Some err)), unlock sv)
      | start_cleanup_Wait child err (c :: rest) =>
          if passes (nodes σ) c
          then Some (in_Start s r (start_cleanup_Wait child err rest), σ)
          else None
      end
  | in_Stop s pc =>
      sv ← services σ !! s;
      let unlock sv' := mkSystem (nodes σ) (<[s := set_mut sv' false]> (services σ)) (frames σ) in
      match pc with
      | stop_Lock =>
          if mut sv then None
          else Some (in_Stop s stop_check,
                     mkSystem (nodes σ) (<[s := set_mut sv true]> (services σ)) (frames σ))
      | stop_check =>
          if is_nil (s_routines sv) then Some (returned no_value, unlock sv)
          else Some (in_Stop s stop_Stop, σ)
      | stop_Stop =>
          match via (s_routines sv) Stop (nodes σ), via_Wait (s_routines sv) with
          | (Ok _, w'), Ok rest =>
              Some (in_Stop s (stop_Wait rest), mkSystem w' (services σ) (frames σ))
          | (_, w'), _ =>
              Some (panicked, mkSystem w' (<[s := set_mut sv false]> (services σ)) (frames σ))
          end
      | stop_Wait [] =>
          Some (returned no_value, unlock (set_routines sv nil_Routines))
      | stop_Wait (c :: rest) =>
          if passes (nodes σ) c then Some (in_Stop s (stop_Wait rest), σ) else None
      end
  | returned _ | panicked => None
  end.

(** ** The system *)

(** What can happen next: a call from any goroutine of the program, a step
    of a goroutine of the pool, or a step of a call in progress. *)
Inductive label :=
| call_NewRoutines
| call_Child (me : option ptr)
| call_Go (me : option ptr) (id : nat)
| call_Stop (me : option ptr)
| call_Wait (me : option ptr)
| call_NewService (start : option nat)
| call_Start (me : option sptr) (routines : Routines)
| call_service_Stop (me : option sptr)
| run (g : nat) (b : bool)
| resume (f : nat) (client : outcome (option error)).

(** Pointers a caller can hold: nil, or the address of a struct. *)
Definition points_in {A} (l : list A) (me : option nat) : bool :=
  match me with
  | Some p => bool_decide (p < length l)%nat
  | None => true
  end.

Definition holds_in (h : list routines) (r : Routines) : bool :=
  match r with
  | nil_Routines => true
  | of_ptr me => points_in h me
  end.

Definition with_nodes (σ : system) (w : world) : system :=
  mkSystem w (services σ) (frames σ).

Definition push_frame (σ : system) (f : frame) : system :=
  mkSystem (nodes σ) (services σ) (frames σ ++ [f]).

Definition step (l : label) (σ : system) : option system :=
  match l with
  | call_NewRoutines => Some (with_nodes σ (NewRoutines (nodes σ)).2)
  | call_Child me =>
      if points_in (heap (nodes σ)) me
      then Some (with_nodes σ (Child me (nodes σ)).2) else None
  | call_Go me id =>
      if points_in (heap (nodes σ)) me
      then Some (with_nodes σ (Go me (client_fn id) (nodes σ)).2) else None
  | call_Stop me =>
      if points_in (heap (nodes σ)) me
      then Some (with_nodes σ (Stop me (nodes σ)).2) else None
  | call_Wait me =>
      if points_in (heap (nodes σ)) me
      then Some (push_frame σ (in_Wait (Wait me))) else None
  | call_NewService st =>
      Some (mkSystem (nodes σ) (services σ ++ [NewService st]) (frames σ))
  | call_Start me r =>
      if points_in (services σ) me && holds_in (heap (nodes σ)) r
      then Some (push_frame σ (Start me r)) else None
  | call_service_Stop me =>
      if points_in (services σ) me
      then Some (push_frame σ (service_Stop me)) else None
  | run g b =>
      g0 ← pool (nodes σ) !! g;
      '(g1, w1) ← step_goroutine b g0 (nodes σ);
      Some (with_nodes σ (mkWorld (heap w1) (<[g := g1]> (pool w1))))
  | resume f client =>
      f0 ← frames σ !! f;
      '(f1, σ1) ← step_frame client f0 σ;
      Some (mkSystem (nodes σ1) (services σ1) (<[f := f1]> (frames σ1)))
  end.

(** A schedule, run from a system. *)
Fixpoint exec (tr : list label) (σ : system) : option system :=
  match tr with
  | [] => Some σ
  | l :: tr' => σ' ← step l σ; exec tr' σ'
  end.

Definition init : system := mkSystem (mkWorld [] []) [] [].

Definition reachable (σ : system) : Prop := exists tr, exec tr init = Some σ.

(** * Properties *)

(** ** What the methods do to the heap *)

Definition add_waitgroup (d : Z) (r : routines) : routines :=
  mkRoutines (doneCh r) (waitgroup r + d) (parent r) (children r).

Definition add_children (d : Z) (r : routines) : routines :=
  mkRoutines (doneCh r) (waitgroup r) (parent r) (children r + d).

Definition closed (r : routines) : routines :=
  mkRoutines true (waitgroup r) (parent r) (children r).

Definition on_parent (f : routines -> routines) (par : option ptr)
  (h : list routines) : list routines :=
  match par with
  | Some q => alter f q h
  | None => h
  end.

Lemma insert_as_alter {A} (f : A -> A) (l : list A) (i : nat) (x : A) :
  l !! i = Some x -> <[i := f x]> l = alter f i l.
Proof.
  revert i. induction l as [|y l IH]; intros [|i] H; simpl in *; try done.
  - by inversion H.
  - f_equal. by apply IH.
Qed.

Lemma alter_absent {A} (f : A -> A) (l : list A) (i : nat) :
  l !! i = None -> alter f i l = l.
Proof.
  revert i. induction l as [|y l IH]; intros [|i] H; simpl in *; try done.
  f_equal. by apply IH.
Qed.

Lemma waitgroup_Add_spec w p r :
  heap w !! p = Some r ->
  waitgroup_Add p w = (Ok tt, mkWorld (alter (add_waitgroup 1) p (heap w)) (pool w)).
Proof.
  intros H. unfold waitgroup_Add, bind, load, store. rewrite H.
  by rewrite <- (insert_as_alter (add_waitgroup 1) _ _ _ H).
Qed.

Lemma children_Add_spec w p r :
  heap w !! p = Some r ->
  children_Add p w = (Ok tt, mkWorld (alter (add_children 1) p (heap w)) (pool w)).
Proof.
  intros H. unfold children_Add, bind, load, store. rewrite H.
  by rewrite <- (insert_as_alter (add_children 1) _ _ _ H).
Qed.

Lemma waitgroup_Done_spec w p r :
  heap w !! p = Some r -> 0 < waitgroup r ->
  waitgroup_Done p w = (Ok tt, mkWorld (alter (add_waitgroup (-1)) p (heap w)) (pool w)).
Proof.
  intros H Hpos. unfold waitgroup_Done, bind, load, store. rewrite H.
  case_decide; [lia|].
  by rewrite <- (insert_as_alter (add_waitgroup (-1)) _ _ _ H).
Qed.

Lemma children_Done_spec w p r :
  heap w !! p = Some r -> 0 < children r ->
  children_Done p w = (Ok tt, mkWorld (alter (add_children (-1)) p (heap w)) (pool w)).
Proof.
  intros H Hpos. unfold children_Done, bind, load, store. rewrite H.
  case_decide; [lia|].
  by rewrite <- (insert_as_alter (add_children (-1)) _ _ _ H).
Qed.

(** [Stop] never panics; it closes the channel of the node it is given and
    touches nothing else. *)
Lemma Stop_spec w me :
  Stop me w = (Ok tt, mkWorld (on_parent closed me (heap w)) (pool w)).
Proof.
  destruct me as [p|]; simpl; [|by destruct w].
  unfold recover, close_doneCh, bind, load, store.
  destruct (heap w !! p) as [r|] eqn:H.
  - destruct (doneCh r) eqn:Hd; simpl.
    + f_equal. destruct w as [h g]; simpl in *. f_equal.
      rewrite <- (insert_as_alter closed _ _ _ H).
      symmetry. apply list_insert_id. rewrite H. by destruct r; simpl in *; subst.
    + by rewrite <- (insert_as_alter closed _ _ _ H).
  - f_equal. destruct w as [h g]; simpl in *. f_equal.
    symmetry. by apply alter_absent.
Qed.

Lemma Go_spec w p r fn :
  heap w !! p = Some r ->
  points_in (heap w) (parent r) = true ->
  Go (Some p) fn w =
    (Ok tt,
     mkWorld (on_parent (add_children 1) (parent r) (alter (add_waitgroup 1) p (heap w)))
             (pool w ++ [mkGoroutine p (Calling fn)
                           [defer_childrenDown (parent r); defer_waitgroup_Done p]])).
Proof.
  intros H Hpar. unfold Go, bind at 1. rewrite (waitgroup_Add_spec _ _ _ H).
  unfold bind at 1, load at 1. simpl heap.
  rewrite list_lookup_alter_eq, H. simpl.
  destruct (parent r) as [q|] eqn:Hq; simpl in *.
  - apply bool_decide_eq_true in Hpar.
    destruct (lookup_lt_is_Some_2 (alter (add_waitgroup 1) p (heap w)) q) as [rq Hrq].
    { by rewrite length_alter. }
    unfold bind.
    by rewrite (children_Add_spec (mkWorld (alter (add_waitgroup 1) p (heap w)) (pool w))
                  q rq Hrq).
  - done.
Qed.

Lemma insert_snoc {A} (l : list A) (x y : A) :
  <[length l := y]> (l ++ [x]) = l ++ [y].
Proof. induction l; simpl; [done|]. by f_equal. Qed.

Lemma alter_snoc {A} (f : A -> A) (l : list A) (x : A) :
  alter f (length l) (l ++ [x]) = l ++ [f x].
Proof. induction l; simpl; [done|]. by f_equal. Qed.

Lemma lookup_snoc {A} (l : list A) (x : A) : (l ++ [x]) !! length l = Some x.
Proof. induction l; simpl; done. Qed.

Lemma Child_spec w p :
  (p < length (heap w))%nat ->
  Child (Some p) w =
    (Ok (of_ptr (Some (length (heap w)))),
     mkWorld (alter (add_children 1) p (heap w) ++ [mkRoutines false 1 (Some p) 0])
       (pool w ++ [mkGoroutine (length (heap w))
                     (Calling (propagate (Some p) (of_ptr (Some (length (heap w))))))
                     [defer_childrenDown (Some p);
                      defer_waitgroup_Done (length (heap w))]])).
Proof.
  intros Hp. unfold Child, NewRoutines, alloc, ret.
  unfold bind at 1. unfold bind at 1. unfold bind at 1.
  unfold set_parent, bind at 1, load at 1, store at 1. simpl heap.
  rewrite lookup_snoc. simpl pool.
  unfold bind at 1. unfold via.
  cbn [heap pool doneCh waitgroup children parent].
  rewrite insert_snoc.
  erewrite Go_spec; simpl.
  2: { apply lookup_snoc. }
  2: { apply bool_decide_eq_true. rewrite length_app. simpl. lia. }
  f_equal. f_equal.
  rewrite alter_snoc. simpl. by rewrite alter_app_l.
Qed.

(** ** Deferred calls owed to a counter *)

(** Does the deferred call decrement the counter? *)
Definition decrements (c : wg_ref) (d : deferred) : bool :=
  match c, d with
  | children_of p, defer_childrenDown (Some q) => bool_decide (p = q)
  | waitgroup_of p, defer_waitgroup_Done q => bool_decide (p = q)
  | _, _ => false
  end.

Fixpoint owes (c : wg_ref) (ds : list deferred) : Z :=
  match ds with
  | [] => 0
  | d :: ds' => (if decrements c d then 1 else 0) + owes c ds'
  end.

(** The number of deferred decrements of [c] registered in the pool. *)
Fixpoint owed (c : wg_ref) (gs : list goroutine) : Z :=
  match gs with
  | [] => 0
  | g :: gs' => owes c (defers g) + owed c gs'
  end.

Lemma owes_nonneg c ds : 0 <= owes c ds.
Proof. induction ds as [|d ds IH]; simpl; [lia|]. destruct (decrements c d); lia. Qed.

Lemma owed_nonneg c gs : 0 <= owed c gs.
Proof.
  induction gs as [|g gs IH]; simpl; [lia|]. pose proof (owes_nonneg c (defers g)). lia.
Qed.

Lemma owed_app c gs1 gs2 : owed c (gs1 ++ gs2) = owed c gs1 + owed c gs2.
Proof. induction gs1 as [|g gs1 IH]; simpl; lia. Qed.

Lemma owed_insert c gs i g g' :
  gs !! i = Some g ->
  owed c (<[i := g']> gs) = owed c gs - owes c (defers g) + owes c (defers g').
Proof.
  revert i. induction gs as [|g0 gs IH]; intros [|i] H; simpl in *; try done.
  - inversion H; subst. lia.
  - rewrite (IH _ H). lia.
Qed.

Lemma owed_lookup c gs i g : gs !! i = Some g -> owes c (defers g) <= owed c gs.
Proof.
  revert i. induction gs as [|g0 gs IH]; intros [|i] H; simpl in *; try done.
  - inversion H; subst. pose proof (owed_nonneg c gs). lia.
  - pose proof (IH _ H). pose proof (owes_nonneg c (defers g0)). lia.
Qed.

Lemma owed_zero c gs :
  (forall i g, gs !! i = Some g -> owes c (defers g) = 0) -> owed c gs = 0.
Proof.
  induction gs as [|g0 gs IH]; intros H; simpl; [done|].
  rewrite (H 0%nat g0 eq_refl), IH; [done|].
  intros i g Hg. by apply (H (S i)).
Qed.

(** ** Invariants of the nodes and the pool *)

(** The deferred calls a goroutine of [Go] registers. *)
Definition registered (par : option ptr) (me : ptr) : list deferred :=
  [defer_childrenDown par; defer_waitgroup_Done me].

(** Is [fn], or the call after its [select], still executing? *)
Definition running (g : goroutine) : bool :=
  match status g with
  | Calling _ | Forwarding _ => true
  | _ => false
  end.

Definition goroutine_ok (h : list routines) (g : goroutine) : Prop :=
  exists r, h !! g_owner g = Some r /\
    match status g with
    | Calling (client_fn _) => defers g = registered (parent r) (g_owner g)
    | Calling (propagate par child) =>
        defers g = registered (parent r) (g_owner g) /\
        par = parent r /\ par <> None /\ child = of_ptr (Some (g_owner g))
    | Forwarding child =>
        defers g = registered (parent r) (g_owner g) /\
        parent r <> None /\ child = of_ptr (Some (g_owner g))
    | Unwinding _ =>
        defers g = registered (parent r) (g_owner g) \/
        defers g = [defer_waitgroup_Done (g_owner g)] \/
        defers g = []
    | Exited | Crashed => defers g = []
    end.

Record core_inv (w : world) : Prop := {
  parents_older : forall p r q,
    heap w !! p = Some r -> parent r = Some q -> (q < p)%nat;
  counters_exact : forall p r,
    heap w !! p = Some r ->
    waitgroup r = owed (waitgroup_of p) (pool w) /\
    children r = owed (children_of p) (pool w);
  goroutines_ok : forall g gr, pool w !! g = Some gr -> goroutine_ok (heap w) gr
}.

Lemma lookup_alter_inv {A} (f : A -> A) (h : list A) (q p : nat) (r' : A) :
  alter f q h !! p = Some r' ->
  exists r, h !! p = Some r /\ r' = if decide (q = p) then f r else r.
Proof.
  rewrite list_lookup_alter. case_decide; subst.
  - destruct (h !! p) as [r|]; simpl; [|done]. intros [= <-]. eauto.
  - eauto.
Qed.

Lemma lookup_on_parent_inv f par h p r' :
  on_parent f par h !! p = Some r' ->
  exists r, h !! p = Some r /\ r' = if decide (par = Some p) then f r else r.
Proof.
  destruct par as [q|]; simpl.
  - intros H. apply lookup_alter_inv in H as (r & Hr & ->). exists r. split; [done|].
    repeat case_decide; congruence.
  - intros H. by exists r'.
Qed.

Lemma lookup_on_parent f par (h : list routines) p :
  on_parent f par h !! p =
  (fun r => if decide (par = Some p) then f r else r) <$> h !! p.
Proof.
  destruct par as [q|]; simpl.
  - rewrite list_lookup_alter. repeat case_decide; try congruence.
    + by subst.
    + by destruct (h !! p).
  - by destruct (h !! p).
Qed.

Lemma owes_registered_waitgroup p par me :
  owes (waitgroup_of p) (registered par me) = if decide (p = me) then 1 else 0.
Proof.
  unfold registered. simpl. case_bool_decide; case_decide; try done; lia.
Qed.

Lemma owes_registered_children p par me :
  owes (children_of p) (registered par me) = if decide (par = Some p) then 1 else 0.
Proof.
  unfold registered. simpl. destruct par as [q|]; [|by case_decide].
  case_bool_decide; case_decide; try congruence; lia.
Qed.

(** The goroutine's deferred calls, whatever its status, are a suffix of the
    two registered ones. *)
Lemma goroutine_ok_defers h g :
  goroutine_ok h g ->
  exists r, h !! g_owner g = Some r /\
    (defers g = registered (parent r) (g_owner g) \/
     defers g = [defer_waitgroup_Done (g_owner g)] \/
     defers g = []).
Proof.
  intros (r & Hr & H). exists r. split; [done|].
  destruct (status g) as [[id|par child]|child|b| |]; intuition.
Qed.

Lemma owes_fresh w c g gr :
  core_inv w -> pool w !! g = Some gr ->
  (match c with children_of p | waitgroup_of p => length (heap w) <= p end)%nat ->
  owes c (defers gr) = 0.
Proof.
  intros Hinv Hg Hc.
  destruct (goroutine_ok_defers _ _ (goroutines_ok _ Hinv _ _ Hg)) as (r & Hr & Hd).
  pose proof (lookup_lt_Some _ _ _ Hr) as Hlt.
  pose proof (fun q => parents_older _ Hinv _ _ q Hr) as Hpar.
  destruct c as [p|p].
  - destruct Hd as [-> | [-> | ->]]; [|done..].
    rewrite owes_registered_children. case_decide as Hq; [|done].
    specialize (Hpar p Hq). lia.
  - destruct Hd as [-> | [-> | ->]]; [| |done].
    + rewrite owes_registered_waitgroup. case_decide; [lia|done].
    + simpl. case_bool_decide; lia.
Qed.

Lemma owed_fresh w c :
  core_inv w ->
  (match c with children_of p | waitgroup_of p => length (heap w) <= p end)%nat ->
  owed c (pool w) = 0.
Proof. intros Hinv Hc. apply owed_zero. intros i g Hg. by eapply owes_fresh. Qed.

(** A heap that keeps every node and its parent keeps the goroutines well
    formed. *)
Definition keeps_parents (h h' : list routines) : Prop :=
  forall p r, h !! p = Some r -> exists r', h' !! p = Some r' /\ parent r' = parent r.

Lemma goroutine_ok_keeps h h' g :
  keeps_parents h h' -> goroutine_ok h g -> goroutine_ok h' g.
Proof.
  intros Hk (r & Hr & H). destruct (Hk _ _ Hr) as (r' & Hr' & Hp).
  exists r'. split; [done|]. by rewrite Hp.
Qed.

Lemma keeps_parents_on_parent f par h :
  (forall r, parent (f r) = parent r) -> keeps_parents h (on_parent f par h).
Proof.
  intros Hf p r Hr. rewrite lookup_on_parent, Hr. simpl.
  eexists. split; [done|]. by case_decide.
Qed.

Lemma keeps_parents_trans h1 h2 h3 :
  keeps_parents h1 h2 -> keeps_parents h2 h3 -> keeps_parents h1 h3.
Proof.
  intros H12 H23 p r Hr. destruct (H12 _ _ Hr) as (r2 & Hr2 & Hp2).
  destruct (H23 _ _ Hr2) as (r3 & Hr3 & Hp3). exists r3. split; congruence.
Qed.

Lemma keeps_parents_app h x : keeps_parents h (h ++ [x]).
Proof. intros p r Hr. exists r. split; [|done]. by apply lookup_app_l_Some. Qed.

(** Allocating a node. *)
Lemma core_alloc w par :
  core_inv w ->
  (forall q, par = Some q -> (q < length (heap w))%nat) ->
  core_inv (mkWorld (heap w ++ [mkRoutines false 0 par 0]) (pool w)).
Proof.
  intros Hinv Hpar. split; simpl.
  - intros p r q Hp Hq. apply lookup_app_Some in Hp as [Hp | [Hlen Hp]].
    + by eapply parents_older.
    + destruct (p - length (heap w))%nat eqn:E; simpl in Hp; [|done].
      inversion Hp; subst; simpl in *. specialize (Hpar _ Hq). lia.
  - intros p r Hp. apply lookup_app_Some in Hp as [Hp | [Hlen Hp]].
    + by eapply counters_exact.
    + destruct (p - length (heap w))%nat eqn:E; simpl in Hp; [|done].
      inversion Hp; subst; simpl.
      rewrite !(owed_fresh w) by (done || simpl; lia). done.
  - intros g gr Hg. eapply goroutine_ok_keeps; [apply keeps_parents_app|].
    by eapply goroutines_ok.
Qed.

(** Closing the channel of a node. *)
Lemma core_close w me :
  core_inv w -> core_inv (mkWorld (on_parent closed me (heap w)) (pool w)).
Proof.
  intros Hinv. split; simpl.
  - intros p r q Hp Hq. apply lookup_on_parent_inv in Hp as (r0 & Hr0 & ->).
    eapply parents_older; [done..|]. by case_decide.
  - intros p r Hp. apply lookup_on_parent_inv in Hp as (r0 & Hr0 & ->).
    destruct (counters_exact _ Hinv _ _ Hr0). by case_decide.
  - intros g gr Hg. eapply goroutine_ok_keeps; [|by eapply goroutines_ok].
    by apply keeps_parents_on_parent.
Qed.

(** What [Go] leaves behind. *)
Lemma core_Go w p r fn :
  core_inv w -> heap w !! p = Some r ->
  match fn with
  | client_fn _ => True
  | propagate par child => par = parent r /\ par <> None /\ child = of_ptr (Some p)
  end ->
  core_inv (mkWorld
    (on_parent (add_children 1) (parent r) (alter (add_waitgroup 1) p (heap w)))
    (pool w ++ [mkGoroutine p (Calling fn) (registered (parent r) p)])).
Proof.
  intros Hinv Hp Hfn.
  assert (Hk : keeps_parents (heap w)
    (on_parent (add_children 1) (parent r) (alter (add_waitgroup 1) p (heap w)))).
  { eapply keeps_parents_trans; [apply (keeps_parents_on_parent (add_waitgroup 1) (Some p))|
                                 apply keeps_parents_on_parent]; done. }
  split; simpl.
  - intros p' r' q Hp' Hq.
    apply lookup_on_parent_inv in Hp' as (r1 & Hr1 & ->).
    apply lookup_alter_inv in Hr1 as (r0 & Hr0 & ->).
    eapply parents_older; [done..|]. by repeat case_decide.
  - intros p' r' Hp'.
    apply lookup_on_parent_inv in Hp' as (r1 & Hr1 & ->).
    apply lookup_alter_inv in Hr1 as (r0 & Hr0 & ->).
    destruct (counters_exact _ Hinv _ _ Hr0) as [Hw Hc].
    rewrite !owed_app. cbn [owed defers].
    rewrite owes_registered_waitgroup, owes_registered_children.
    split; repeat case_decide; simpl; try congruence; lia.
  - intros g gr Hg. apply lookup_app_Some in Hg as [Hg | [Hlen Hg]].
    + eapply goroutine_ok_keeps; [done|]. by eapply goroutines_ok.
    + destruct (g - length (pool w))%nat eqn:E; simpl in Hg; [|done].
      inversion Hg; subst. destruct (Hk _ _ Hp) as (r' & Hr' & Hpar).
      exists r'. split; [done|].
      destruct fn as [id|par child]; simpl; rewrite Hpar; [done|].
      destruct Hfn as (-> & ? & ->). done.
Qed.

(** Changing the status of a goroutine, its deferred calls untouched. *)
Lemma core_set_status w g gr st :
  core_inv w -> pool w !! g = Some gr ->
  goroutine_ok (heap w) (set_status gr st) ->
  core_inv (mkWorld (heap w) (<[g := set_status gr st]> (pool w))).
Proof.
  intros Hinv Hg Hok. split; simpl.
  - apply (parents_older _ Hinv).
  - intros p r Hp. rewrite !(owed_insert _ _ _ _ _ Hg). simpl.
    destruct (counters_exact _ Hinv _ _ Hp). lia.
  - intros g' gr' Hg'. apply list_lookup_insert_Some in Hg' as [(-> & <- & _) | [_ Hg']].
    + done.
    + by eapply goroutines_ok.
Qed.

(** The heap after a deferred call that does not panic. *)
Definition after_deferred (d : deferred) (h : list routines) : list routines :=
  match d with
  | defer_waitgroup_Done p => alter (add_waitgroup (-1)) p h
  | defer_childrenDown par => on_parent (add_children (-1)) par h
  end.

(** Running the next deferred call of a goroutine: it does not panic, and
    the counter it decrements and the goroutine's list stay in step. *)
Lemma core_deferred w g gr d ds b b' :
  core_inv w -> pool w !! g = Some gr ->
  status gr = Unwinding b -> defers gr = d :: ds ->
  run_deferred d w = (Ok tt, mkWorld (after_deferred d (heap w)) (pool w)) /\
  core_inv (mkWorld (after_deferred d (heap w))
              (<[g := mkGoroutine (g_owner gr) (Unwinding b') ds]> (pool w))).
Proof.
  intros Hinv Hg Hst Hd.
  destruct (goroutines_ok _ Hinv _ _ Hg) as (r & Hr & Hok). rewrite Hst in Hok.
  assert (Hshape : (d = defer_childrenDown (parent r) /\ ds = [defer_waitgroup_Done (g_owner gr)])
                   \/ (d = defer_waitgroup_Done (g_owner gr) /\ ds = [])).
  { rewrite Hd in Hok. unfold registered in Hok.
    destruct Hok as [[= -> ->] | [[= -> ->] | [=]]]; auto. }
  destruct Hshape as [[-> ->] | [-> ->]].
  - (* me.parent.childrenDown() *)
    destruct (parent r) as [q|] eqn:Hq; simpl.
    + pose proof (parents_older _ Hinv _ _ _ Hr Hq) as Hlt.
      pose proof (lookup_lt_Some _ _ _ Hr) as Hlt'.
      destruct (lookup_lt_is_Some_2 (heap w) q) as [rq Hrq]; [lia|].
      destruct (counters_exact _ Hinv _ _ Hrq) as [_ Hc].
      pose proof (owed_lookup (children_of q) _ _ _ Hg) as Hle.
      rewrite Hd in Hle. simpl in Hle. rewrite bool_decide_eq_true_2 in Hle by done.
      rewrite (children_Done_spec _ _ _ Hrq) by lia.
      split; [done|]. split; simpl.
      * intros p' r' q' Hp' Hq'. apply lookup_alter_inv in Hp' as (r0 & Hr0 & ->).
        eapply parents_older; [done..|]. by case_decide.
      * intros p' r' Hp'. apply lookup_alter_inv in Hp' as (r0 & Hr0 & ->).
        rewrite !(owed_insert _ _ _ _ _ Hg), Hd. simpl.
        destruct (counters_exact _ Hinv _ _ Hr0) as [Hw' Hc'].
        split; repeat case_decide; repeat case_bool_decide; simpl; try congruence; lia.
      * intros g' gr' Hg'.
        apply list_lookup_insert_Some in Hg' as [(-> & <- & _) | [_ Hg']].
        -- destruct (keeps_parents_on_parent (add_children (-1)) (Some q) (heap w)
                       (fun _ => eq_refl) _ _ Hr) as (r' & Hr' & Hpar).
           exists r'. split; [done|]. simpl. auto.
        -- eapply goroutine_ok_keeps; [|by eapply goroutines_ok].
           by apply (keeps_parents_on_parent (add_children (-1)) (Some q)).
    + split; [by destruct w|]. split; simpl.
      * apply (parents_older _ Hinv).
      * intros p' r' Hp'. rewrite !(owed_insert _ _ _ _ _ Hg), Hd. simpl.
        destruct (counters_exact _ Hinv _ _ Hp') as [Hw' Hc'].
        split; repeat case_bool_decide; lia.
      * intros g' gr' Hg'.
        apply list_lookup_insert_Some in Hg' as [(-> & <- & _) | [_ Hg']].
        -- exists r. split; [done|]. simpl. auto.
        -- by eapply goroutines_ok.
  - (* me.waitgroup.Done() *)
    simpl.
    destruct (counters_exact _ Hinv _ _ Hr) as [Hw _].
    pose proof (owed_lookup (waitgroup_of (g_owner gr)) _ _ _ Hg) as Hle.
    rewrite Hd in Hle. simpl in Hle. rewrite bool_decide_eq_true_2 in Hle by done.
    rewrite (waitgroup_Done_spec _ _ _ Hr) by lia.
    split; [done|]. split; simpl.
    + intros p' r' q' Hp' Hq'. apply lookup_alter_inv in Hp' as (r0 & Hr0 & ->).
      eapply parents_older; [done..|]. by case_decide.
    + intros p' r' Hp'. apply lookup_alter_inv in Hp' as (r0 & Hr0 & ->).
      rewrite !(owed_insert _ _ _ _ _ Hg), Hd. simpl.
      destruct (counters_exact _ Hinv _ _ Hr0) as [Hw' Hc'].
      split; repeat case_decide; repeat case_bool_decide; simpl; try congruence; lia.
    + intros g' gr' Hg'.
      apply list_lookup_insert_Some in Hg' as [(-> & <- & _) | [_ Hg']].
      * destruct (keeps_parents_on_parent (add_waitgroup (-1)) (Some (g_owner gr)) (heap w)
                    (fun _ => eq_refl) _ _ Hr) as (r' & Hr' & Hpar).
        exists r'. split; [done|]. simpl. auto.
      * eapply goroutine_ok_keeps; [|by eapply goroutines_ok].
        by apply (keeps_parents_on_parent (add_waitgroup (-1)) (Some (g_owner gr))).
Qed.

(** Every node made by [Child] is stopped already, or the closure that
    [Child] launched on it is still there to stop it. *)
Definition propagating (p c : ptr) (st : gstatus) : Prop :=
  st = Calling (propagate (Some p) (of_ptr (Some c))) \/
  st = Forwarding (of_ptr (Some c)).

Definition propagators (w : world) : Prop :=
  forall c r p, heap w !! c = Some r -> parent r = Some p ->
    doneCh r = true \/
    exists g gr, pool w !! g = Some gr /\ g_owner gr = c /\ propagating p c (status gr).

Record node_inv (w : world) : Prop := {
  node_core : core_inv w;
  node_propagators : propagators w
}.

Lemma propagators_update w h' pl' :
  propagators w ->
  (forall c r' p, h' !! c = Some r' -> parent r' = Some p ->
     (exists r, heap w !! c = Some r /\ parent r = Some p /\
                (doneCh r = true -> doneCh r' = true)) \/
     (exists g gr, pl' !! g = Some gr /\ g_owner gr = c /\ propagating p c (status gr))) ->
  (forall g gr p c, pool w !! g = Some gr -> g_owner gr = c ->
     propagating p c (status gr) ->
     (exists gr', pl' !! g = Some gr' /\ g_owner gr' = c /\ propagating p c (status gr')) \/
     (exists r', h' !! c = Some r' /\ doneCh r' = true)) ->
  propagators (mkWorld h' pl').
Proof.
  intros Hprop Hheap Hpool c r' p Hc Hp. simpl in *.
  destruct (Hheap _ _ _ Hc Hp) as [(r & Hr & Hpr & Hd) | Hnew]; [|by right].
  destruct (Hprop _ _ _ Hr Hpr) as [Hcl | (g & gr & Hg & Ho & Hst)]; [by left; auto|].
  destruct (Hpool _ _ _ _ Hg Ho Hst) as [(gr' & Hg' & Ho' & Hst') | (r'' & Hr'' & Hcl)].
  - right. eauto.
  - left. congruence.
Qed.

(** The ways a goroutine of a well-formed pool can move. *)
Inductive goroutine_move (b : bool) (w : world) (gr : goroutine)
  : goroutine -> world -> Prop :=
| move_client_ends id :
    status gr = Calling (client_fn id) ->
    goroutine_move b w gr (set_status gr (Unwinding (negb b))) w
| move_parent_case p :
    status gr = Calling (propagate (Some p) (of_ptr (Some (g_owner gr)))) ->
    chan_ready w (Some p) = true ->
    goroutine_move b w gr (set_status gr (Forwarding (of_ptr (Some (g_owner gr))))) w
| move_child_case p :
    status gr = Calling (propagate (Some p) (of_ptr (Some (g_owner gr)))) ->
    chan_ready w (Some (g_owner gr)) = true ->
    goroutine_move b w gr (set_status gr (Unwinding false)) w
| move_forward :
    status gr = Forwarding (of_ptr (Some (g_owner gr))) ->
    goroutine_move b w gr (set_status gr (Unwinding false))
      (mkWorld (on_parent closed (Some (g_owner gr)) (heap w)) (pool w))
| move_deferred pn d ds :
    status gr = Unwinding pn -> defers gr = d :: ds ->
    goroutine_move b w gr (mkGoroutine (g_owner gr) (Unwinding pn) ds)
      (mkWorld (after_deferred d (heap w)) (pool w))
| move_exit pn :
    status gr = Unwinding pn -> defers gr = [] ->
    goroutine_move b w gr (set_status gr (if pn then Crashed else Exited)) w.

Lemma step_goroutine_cases w g gr b gr' w' :
  core_inv w -> pool w !! g = Some gr ->
  step_goroutine b gr w = Some (gr', w') ->
  goroutine_move b w gr gr' w'.
Proof.
  intros Hinv Hg Hstep.
  destruct (goroutines_ok _ Hinv _ _ Hg) as (r & Hr & Hok).
  unfold step_goroutine in Hstep.
  destruct (status gr) as [[id|par child]|child|pn| |] eqn:Hst; try done.
  - inversion Hstep; subst. by econstructor.
  - destruct Hok as (Hd & -> & Hne & ->).
    destruct (parent r) as [p|] eqn:Hp; [|done].
    cbn in Hstep. unfold select_case in Hstep.
    destruct (chan_ready w (Some p)) eqn:Ha, (chan_ready w (Some (g_owner gr))) eqn:Hc;
      try done; try destruct b; inversion Hstep; subst;
      try (by eapply move_parent_case); by eapply move_child_case.
  - destruct Hok as (Hd & Hne & ->). unfold via in Hstep.
    rewrite (Stop_spec w (Some (g_owner gr))) in Hstep.
    inversion Hstep; subst. by constructor.
  - destruct (defers gr) as [|d ds] eqn:Hd.
    + inversion Hstep; subst. by constructor.
    + destruct (core_deferred w g gr d ds pn pn Hinv Hg Hst Hd) as [Hrun _].
      rewrite Hrun in Hstep. inversion Hstep; subst. by econstructor.
Qed.

(** Heaps with the same nodes and parents, where no channel reopens. *)
Definition keeps_signals (h h' : list routines) : Prop :=
  forall c r', h' !! c = Some r' ->
    exists r, h !! c = Some r /\ parent r = parent r' /\
              (doneCh r = true -> doneCh r' = true).

Lemma keeps_signals_refl h : keeps_signals h h.
Proof. intros c r Hr. eauto. Qed.

Lemma keeps_signals_on_parent f par h :
  (forall r, parent (f r) = parent r) ->
  (forall r, doneCh r = true -> doneCh (f r) = true) ->
  keeps_signals h (on_parent f par h).
Proof.
  intros Hp Hd c r' Hr'. apply lookup_on_parent_inv in Hr' as (r & Hr & ->).
  exists r. split; [done|]. case_decide; auto.
Qed.

Lemma keeps_signals_deferred d h : keeps_signals h (after_deferred d h).
Proof.
  destruct d as [p|par]; simpl.
  - by apply (keeps_signals_on_parent (add_waitgroup (-1)) (Some p)).
  - by apply keeps_signals_on_parent.
Qed.

Lemma propagators_signals w h' pl' :
  propagators w -> keeps_signals (heap w) h' ->
  (forall g gr p c, pool w !! g = Some gr -> g_owner gr = c ->
     propagating p c (status gr) ->
     (exists gr', pl' !! g = Some gr' /\ g_owner gr' = c /\ propagating p c (status gr')) \/
     (exists r', h' !! c = Some r' /\ doneCh r' = true)) ->
  propagators (mkWorld h' pl').
Proof.
  intros Hprop Hk Hpool. apply (propagators_update w); [done| |done].
  intros c r' p Hc Hp. left. destruct (Hk _ _ Hc) as (r & Hr & Hpar & Hd).
  exists r. split; [done|]. split; [congruence|done].
Qed.

Lemma pool_kept_app (pl : list goroutine) (extra : list goroutine) (h' : list routines) :
  forall g gr p c, pl !! g = Some gr -> g_owner gr = c ->
    propagating p c (status gr) ->
    (exists gr', (pl ++ extra) !! g = Some gr' /\ g_owner gr' = c /\
                 propagating p c (status gr')) \/
    (exists r', h' !! c = Some r' /\ doneCh r' = true).
Proof.
  intros g gr p c Hg Ho Hst. left. exists gr. split; [by apply lookup_app_l_Some|done].
Qed.

Lemma pool_kept_insert (pl : list goroutine) g gr gr' (h' : list routines) :
  pl !! g = Some gr ->
  (forall p, propagating p (g_owner gr) (status gr) ->
     (g_owner gr' = g_owner gr /\ propagating p (g_owner gr) (status gr')) \/
     (exists r', h' !! g_owner gr = Some r' /\ doneCh r' = true)) ->
  forall g0 gr0 p c, pl !! g0 = Some gr0 -> g_owner gr0 = c ->
    propagating p c (status gr0) ->
    (exists gr1, <[g := gr']> pl !! g0 = Some gr1 /\ g_owner gr1 = c /\
                 propagating p c (status gr1)) \/
    (exists r', h' !! c = Some r' /\ doneCh r' = true).
Proof.
  intros Hg Hnew g0 gr0 p c Hg0 Ho Hst.
  destruct (decide (g0 = g)) as [->|Hne].
  - assert (gr0 = gr) as -> by congruence. subst c.
    destruct (Hnew _ Hst) as [[Ho' Hst'] | Hcl]; [|by right].
    left. exists gr'. split; [|done].
    apply list_lookup_insert_eq. by eapply lookup_lt_Some.
  - left. exists gr0. by rewrite list_lookup_insert_ne.
Qed.

Lemma node_NewRoutines w : node_inv w -> node_inv (NewRoutines w).2.
Proof.
  intros [Hcore Hprop]. split; simpl.
  - by apply core_alloc.
  - apply (propagators_update w); simpl; [done| |].
    + intros c r' p Hc Hp. left.
      apply lookup_app_Some in Hc as [Hc | [_ Hc]]; [eauto|].
      destruct (c - length (heap w))%nat; simpl in Hc; [|done].
      inversion Hc; subst. done.
    + intros g gr p c Hg Ho Hst. left. eauto.
Qed.

Lemma node_Stop w me : node_inv w -> node_inv (Stop me w).2.
Proof.
  intros [Hcore Hprop]. rewrite Stop_spec. split; simpl.
  - by apply core_close.
  - apply (propagators_signals w); [done|by apply keeps_signals_on_parent|].
    intros g gr p c Hg Ho Hst. left. eauto.
Qed.

Lemma parent_points_in w p r :
  core_inv w -> heap w !! p = Some r -> points_in (heap w) (parent r) = true.
Proof.
  intros Hinv Hr. destruct (parent r) as [q|] eqn:Hq; simpl; [|done].
  apply bool_decide_eq_true.
  pose proof (parents_older _ Hinv _ _ _ Hr Hq). pose proof (lookup_lt_Some _ _ _ Hr). lia.
Qed.

Lemma node_Go w me id :
  node_inv w -> points_in (heap w) me = true -> node_inv (Go me (client_fn id) w).2.
Proof.
  intros [Hcore Hprop] Hme. destruct me as [p|]; [|done].
  apply bool_decide_eq_true in Hme.
  destruct (lookup_lt_is_Some_2 _ _ Hme) as [r Hr].
  rewrite (Go_spec _ _ _ _ Hr) by by eapply parent_points_in.
  split; simpl.
  - by apply core_Go.
  - apply (propagators_signals w); [done| |apply pool_kept_app].
    intros c r' Hc. apply lookup_on_parent_inv in Hc as (r1 & Hr1 & ->).
    apply lookup_alter_inv in Hr1 as (r0 & Hr0 & ->).
    exists r0. split; [done|]. by repeat case_decide.
Qed.

Lemma node_Child w me :
  node_inv w -> points_in (heap w) me = true -> node_inv (Child me w).2.
Proof.
  intros [Hcore Hprop] Hme. destruct me as [p|]; [|done].
  apply bool_decide_eq_true in Hme. rewrite (Child_spec _ _ Hme). simpl.
  split.
  - assert (Ha : core_inv (mkWorld (heap w ++ [mkRoutines false 0 (Some p) 0]) (pool w))).
    { apply core_alloc; [done|]. by intros q [= <-]. }
    pose proof (core_Go _ (length (heap w)) _
                  (propagate (Some p) (of_ptr (Some (length (heap w)))))
                  Ha (lookup_snoc _ _)) as Hb.
    simpl in Hb. rewrite alter_snoc in Hb. simpl in Hb.
    rewrite alter_app_l in Hb by done. by apply Hb.
  - apply (propagators_update w); simpl; [done| |apply pool_kept_app].
    intros c r' q Hc Hq.
    apply lookup_app_Some in Hc as [Hc | [Hlen Hc]].
    + left. apply lookup_alter_inv in Hc as (r0 & Hr0 & ->).
      exists r0. split; [done|]. by case_decide.
    + right. rewrite length_alter in Hc, Hlen.
      destruct (c - length (heap w))%nat eqn:E; simpl in Hc; [|done].
      inversion Hc; subst r'. simpl in Hq. inversion Hq; subst q.
      assert (c = length (heap w)) as -> by lia.
      eexists (length (pool w)), _. split; [apply lookup_snoc|].
      split; [done|]. by left.
Qed.

Lemma chan_ready_closed w p :
  chan_ready w (Some p) = true -> exists r, heap w !! p = Some r /\ doneCh r = true.
Proof. simpl. destruct (heap w !! p) as [r|]; [eauto|done]. Qed.

Lemma node_step_goroutine w g gr b gr' w' :
  node_inv w -> pool w !! g = Some gr ->
  step_goroutine b gr w = Some (gr', w') ->
  node_inv (mkWorld (heap w') (<[g := gr']> (pool w'))).
Proof.
  intros [Hcore Hprop] Hg Hstep.
  destruct (goroutines_ok _ Hcore _ _ Hg) as (r & Hr & Hok).
  destruct (step_goroutine_cases _ _ _ _ _ _ Hcore Hg Hstep)
    as [id Hst | p Hst Hrdy | p Hst Hrdy | Hst | pn d ds Hst Hd | pn Hst Hd];
    rewrite Hst in Hok.
  - split.
    + apply core_set_status; [done..|]. exists r. split; [done|]. simpl. auto.
    + apply (propagators_signals w); [done|apply keeps_signals_refl|].
      apply (pool_kept_insert _ _ _ _ _ Hg).
      intros p [Hp | Hp]; rewrite Hst in Hp; done.
  - split.
    + apply core_set_status; [done..|]. exists r. split; [done|]. simpl.
      destruct Hok as (? & ? & ? & ?). repeat split; congruence.
    + apply (propagators_signals w); [done|apply keeps_signals_refl|].
      apply (pool_kept_insert _ _ _ _ _ Hg).
      intros p' _. left. split; [done|]. by right.
  - split.
    + apply core_set_status; [done..|]. exists r. split; [done|]. simpl.
      destruct Hok as (? & ?). auto.
    + apply (propagators_signals w); [done|apply keeps_signals_refl|].
      apply (pool_kept_insert _ _ _ _ _ Hg).
      intros p' _. right. by apply chan_ready_closed.
  - simpl. split.
    + apply (core_set_status
               (mkWorld (on_parent closed (Some (g_owner gr)) (heap w)) (pool w)));
        [by apply (core_close w (Some (g_owner gr)))|done|].
      simpl. exists (closed r). rewrite list_lookup_alter_eq, Hr.
      split; [done|]. simpl. destruct Hok as (? & ?). auto.
    + apply (propagators_signals w);
        [done|by apply (keeps_signals_on_parent closed (Some (g_owner gr)))|].
      apply (pool_kept_insert _ _ _ _ _ Hg).
      intros p' _. right. exists (closed r). simpl.
      by rewrite list_lookup_alter_eq, Hr.
  - simpl. split.
    + by apply (core_deferred w g gr d ds pn pn).
    + apply (propagators_signals w); [done|apply keeps_signals_deferred|].
      apply (pool_kept_insert _ _ _ _ _ Hg).
      intros p' [Hp | Hp]; rewrite Hst in Hp; done.
  - split.
    + apply core_set_status; [done..|]. exists r. split; [done|]. simpl.
      by destruct pn.
    + apply (propagators_signals w); [done|apply keeps_signals_refl|].
      apply (pool_kept_insert _ _ _ _ _ Hg).
      intros p' [Hp | Hp]; rewrite Hst in Hp; done.
Qed.

(** ** Invariants of the services and of the calls in progress *)

(** Nodes stay where they are, keep their parent, and stay closed once
    closed. *)
Definition persists (h h' : list routines) : Prop :=
  forall c r, h !! c = Some r ->
    exists r', h' !! c = Some r' /\ parent r' = parent r /\
               (doneCh r = true -> doneCh r' = true).

Lemma persists_refl h : persists h h.
Proof. intros c r Hr. eauto. Qed.

Lemma persists_trans h1 h2 h3 : persists h1 h2 -> persists h2 h3 -> persists h1 h3.
Proof.
  intros H12 H23 c r Hr. destruct (H12 _ _ Hr) as (r2 & Hr2 & Hp2 & Hd2).
  destruct (H23 _ _ Hr2) as (r3 & Hr3 & Hp3 & Hd3).
  exists r3. split; [done|]. split; [congruence|auto].
Qed.

Lemma persists_on_parent f par h :
  (forall r, parent (f r) = parent r) ->
  (forall r, doneCh r = true -> doneCh (f r) = true) ->
  persists h (on_parent f par h).
Proof.
  intros Hp Hd c r Hr. rewrite lookup_on_parent, Hr. simpl.
  eexists. split; [done|]. case_decide; auto.
Qed.

Lemma persists_app h x : persists h (h ++ [x]).
Proof. intros c r Hr. exists r. split; [by apply lookup_app_l_Some|done]. Qed.

Lemma persists_deferred d h : persists h (after_deferred d h).
Proof.
  destruct d as [p|par]; simpl.
  - by apply (persists_on_parent (add_waitgroup (-1)) (Some p)).
  - by apply persists_on_parent.
Qed.

Lemma persists_length h h' : persists h h' -> (length h <= length h')%nat.
Proof.
  intros H. destruct (decide (length h = 0)%nat) as [->|Hne]; [lia|].
  destruct (lookup_lt_is_Some_2 h (length h - 1)) as [r Hr]; [lia|].
  destruct (H _ _ Hr) as (r' & Hr' & _). apply lookup_lt_Some in Hr'. lia.
Qed.

Lemma persists_Stop w me : persists (heap w) (heap (Stop me w).2).
Proof. rewrite Stop_spec. by apply persists_on_parent. Qed.

Lemma persists_NewRoutines w : persists (heap w) (heap (NewRoutines w).2).
Proof. apply persists_app. Qed.

Lemma persists_Go w me fn :
  core_inv w -> points_in (heap w) me = true -> persists (heap w) (heap (Go me fn w).2).
Proof.
  intros Hcore Hme. destruct me as [p|]; [|apply persists_refl].
  apply bool_decide_eq_true in Hme.
  destruct (lookup_lt_is_Some_2 _ _ Hme) as [r Hr].
  rewrite (Go_spec _ _ _ _ Hr) by by eapply parent_points_in. simpl.
  eapply persists_trans; [apply (persists_on_parent (add_waitgroup 1) (Some p))|
                          apply persists_on_parent]; done.
Qed.

Lemma persists_Child w me :
  points_in (heap w) me = true -> persists (heap w) (heap (Child me w).2).
Proof.
  intros Hme. destruct me as [p|]; [|apply persists_refl].
  apply bool_decide_eq_true in Hme. rewrite (Child_spec _ _ Hme). simpl.
  eapply persists_trans; [apply (persists_on_parent (add_children 1) (Some p))|
                          apply persists_app]; done.
Qed.

Lemma persists_step_goroutine w g gr b gr' w' :
  core_inv w -> pool w !! g = Some gr ->
  step_goroutine b gr w = Some (gr', w') ->
  persists (heap w) (heap w').
Proof.
  intros Hcore Hg Hstep.
  destruct (step_goroutine_cases _ _ _ _ _ _ Hcore Hg Hstep); simpl;
    try apply persists_refl.
  - by apply (persists_on_parent closed (Some (g_owner gr))).
  - apply persists_deferred.
Qed.

(** The service whose mutex a call holds. *)
Definition holder (f : frame) : option sptr :=
  match f with
  | in_Start s _ start_Lock => None
  | in_Start s _ _ => Some s
  | in_Stop s stop_Lock => None
  | in_Stop s _ => Some s
  | _ => None
  end.

(** The candidate that [routines.Child()] returns in [Start]. *)
Definition made_by (h : list routines) (r child : Routines) : Prop :=
  match r with
  | nil_Routines => False
  | of_ptr None => child = nil_Routines
  | of_ptr (Some p) =>
      exists c rc, child = of_ptr (Some c) /\ h !! c = Some rc /\ parent rc = Some p
  end.

(** What [me.routines] can be: nil, or a node that [Child] made. *)
Definition active_ok (h : list routines) (r : Routines) : Prop :=
  match r with
  | nil_Routines => True
  | of_ptr None => False
  | of_ptr (Some c) => exists rc, h !! c = Some rc /\ parent rc <> None
  end.

(** The calls of [Wait] on [c] that remain, with [c] stopped before. *)
Definition draining (h : list routines) (r : Routines) (rest : list wg_ref) : Prop :=
  exists c rc, r = of_ptr (Some c) /\ h !! c = Some rc /\ doneCh rc = true /\
    parent rc <> None /\
    (rest = Wait (Some c) \/ rest = [waitgroup_of c] \/ rest = []).

Definition service_ok (h : list routines) (sv : service) : Prop :=
  active_ok h (s_routines sv) /\
  (start sv = stub_start -> s_routines sv = nil_Routines).

(** The counter is a counter of a node of the heap. *)
Definition valid_ref (h : list routines) (c : wg_ref) : Prop :=
  match c with
  | children_of p | waitgroup_of p => (p < length h)%nat
  end.

Definition frame_ok (h : list routines) (svs : list service) (f : frame) : Prop :=
  match f with
  | in_Wait rest => Forall (valid_ref h) rest
  | in_Start s r pc =>
      exists sv, svs !! s = Some sv /\ holds_in h r = true /\
        match pc with
        | start_Lock => True
        | start_check => mut sv = true
        | start_Child => mut sv = true /\ s_routines sv = nil_Routines
        | start_call child =>
            mut sv = true /\ s_routines sv = nil_Routines /\ made_by h r child
        | start_cleanup_Stop child err =>
            mut sv = true /\ s_routines sv = nil_Routines /\ made_by h r child /\
            (start sv = stub_start -> err = NilArgument)
        | start_cleanup_Wait child err rest =>
            mut sv = true /\ s_routines sv = nil_Routines /\ draining h child rest /\
            (start sv = stub_start -> err = NilArgument)
        end
  | in_Stop s pc =>
      exists sv, svs !! s = Some sv /\
        match pc with
        | stop_Lock => True
        | stop_check => mut sv = true
        | stop_Stop => mut sv = true /\ is_nil (s_routines sv) = false
        | stop_Wait rest => mut sv = true /\ draining h (s_routines sv) rest
        end
  | returned _ | panicked => True
  end.

Record sys_inv (σ : system) : Prop := {
  sys_nodes : node_inv (nodes σ);
  sys_services : forall s sv,
    services σ !! s = Some sv -> service_ok (heap (nodes σ)) sv;
  sys_frames : forall f fr,
    frames σ !! f = Some fr -> frame_ok (heap (nodes σ)) (services σ) fr;
  lock_unique : forall f1 f2 fr1 fr2 s,
    frames σ !! f1 = Some fr1 -> frames σ !! f2 = Some fr2 ->
    holder fr1 = Some s -> holder fr2 = Some s -> f1 = f2;
  lock_free : forall s sv f fr,
    services σ !! s = Some sv -> mut sv = false ->
    frames σ !! f = Some fr -> holder fr <> Some s
}.

Lemma made_by_persists h h' r child :
  persists h h' -> made_by h r child -> made_by h' r child.
Proof.
  intros Hp. destruct r as [|[p|]]; simpl; try done.
  intros (c & rc & -> & Hc & Hpar). destruct (Hp _ _ Hc) as (r' & Hr' & Hp' & _).
  exists c, r'. split; [done|]. split; congruence.
Qed.

Lemma active_ok_persists h h' r :
  persists h h' -> active_ok h r -> active_ok h' r.
Proof.
  intros Hp. destruct r as [|[c|]]; simpl; try done.
  intros (rc & Hc & Hpar). destruct (Hp _ _ Hc) as (r' & Hr' & Hp' & _).
  exists r'. split; congruence.
Qed.

Lemma draining_persists h h' r rest :
  persists h h' -> draining h r rest -> draining h' r rest.
Proof.
  intros Hp (c & rc & -> & Hc & Hd & Hpar & Hrest).
  destruct (Hp _ _ Hc) as (r' & Hr' & Hp' & Hd').
  exists c, r'. repeat split; auto. congruence.
Qed.

Lemma service_ok_persists h h' sv :
  persists h h' -> service_ok h sv -> service_ok h' sv.
Proof. intros Hp [Ha Hs]. split; [by eapply active_ok_persists|done]. Qed.

Lemma holds_in_persists h h' r :
  persists h h' -> holds_in h r = true -> holds_in h' r = true.
Proof.
  intros Hp. destruct r as [|[p|]]; simpl; try done.
  rewrite !bool_decide_eq_true. pose proof (persists_length _ _ Hp). lia.
Qed.

Lemma frame_ok_persists h h' svs fr :
  persists h h' -> frame_ok h svs fr -> frame_ok h' svs fr.
Proof.
  intros Hp. destruct fr as [rest|s r pc|s pc|v|]; simpl; try done.
  - intros H. eapply Forall_impl; [done|]. intros c.
    pose proof (persists_length _ _ Hp). destruct c; simpl; lia.
  - intros (sv & Hsv & Hr & H). exists sv. split; [done|].
    split; [by eapply holds_in_persists|].
    destruct pc; intuition eauto using made_by_persists, draining_persists.
  - intros (sv & Hsv & H). exists sv. split; [done|].
    destruct pc; intuition eauto using draining_persists.
Qed.

(** A change to the services that leaves alone those the call holds no
    mutex of, up to their existence, leaves the call well formed. *)
Lemma frame_ok_services h svs svs' fr :
  (forall s sv, svs !! s = Some sv -> holder fr = Some s -> svs' !! s = Some sv) ->
  (forall s, is_Some (svs !! s) -> is_Some (svs' !! s)) ->
  frame_ok h svs fr -> frame_ok h svs' fr.
Proof.
  intros Hheld Hex. destruct fr as [rest|s r pc|s pc|v|]; simpl; try done.
  - intros (sv & Hsv & Hr & H). destruct pc; simpl in Hheld;
      try (exists sv; split; [by apply Hheld|done]).
    destruct (Hex s) as [sv' Hsv']; [by eauto|]. by exists sv'.
  - intros (sv & Hsv & H). destruct pc; simpl in Hheld;
      try (exists sv; split; [by apply Hheld|done]).
    destruct (Hex s) as [sv' Hsv']; [by eauto|]. by exists sv'.
Qed.

Lemma sys_inv_nodes σ w' :
  sys_inv σ -> node_inv w' -> persists (heap (nodes σ)) (heap w') ->
  sys_inv (with_nodes σ w').
Proof.
  intros Hinv Hn Hp. split; simpl.
  - done.
  - intros s sv Hs. eapply service_ok_persists; [done|]. by eapply sys_services.
  - intros f fr Hf. eapply frame_ok_persists; [done|]. by eapply sys_frames.
  - apply (lock_unique _ Hinv).
  - apply (lock_free _ Hinv).
Qed.

Lemma sys_inv_push σ fr :
  sys_inv σ -> frame_ok (heap (nodes σ)) (services σ) fr -> holder fr = None ->
  sys_inv (push_frame σ fr).
Proof.
  intros Hinv Hok Hh. split; simpl.
  - apply (sys_nodes _ Hinv).
  - apply (sys_services _ Hinv).
  - intros f fr' Hf. apply lookup_app_Some in Hf as [Hf | [_ Hf]].
    + by eapply sys_frames.
    + destruct (f - length (frames σ))%nat; simpl in Hf; [|done]. by inversion Hf; subst.
  - intros f1 f2 fr1 fr2 s H1 H2 Hh1 Hh2.
    apply lookup_app_Some in H1 as [H1 | [_ H1]];
      apply lookup_app_Some in H2 as [H2 | [_ H2]].
    + by eapply (lock_unique _ Hinv).
    + destruct (f2 - length (frames σ))%nat; simpl in H2; [|done].
      inversion H2; subst. congruence.
    + destruct (f1 - length (frames σ))%nat; simpl in H1; [|done].
      inversion H1; subst. congruence.
    + destruct (f1 - length (frames σ))%nat; simpl in H1; [|done].
      inversion H1; subst. congruence.
  - intros s sv f fr' Hs Hm Hf. apply lookup_app_Some in Hf as [Hf | [_ Hf]].
    + by eapply (lock_free _ Hinv).
    + destruct (f - length (frames σ))%nat; simpl in Hf; [|done].
      inversion Hf; subst. congruence.
Qed.

Lemma holder_service σ f fr s :
  sys_inv σ -> frames σ !! f = Some fr -> holder fr = Some s ->
  is_Some (services σ !! s).
Proof.
  intros Hinv Hf Hh. pose proof (sys_frames _ Hinv _ _ Hf) as Hok.
  destruct fr as [rest|s' r pc|s' pc|v|]; simpl in *; try done.
  - destruct Hok as (sv & Hsv & _). destruct pc; inversion Hh; subst; eauto.
  - destruct Hok as (sv & Hsv & _). destruct pc; inversion Hh; subst; eauto.
Qed.

Lemma sys_inv_new_service σ st :
  sys_inv σ -> sys_inv (mkSystem (nodes σ) (services σ ++ [NewService st]) (frames σ)).
Proof.
  intros Hinv. split; simpl.
  - apply (sys_nodes _ Hinv).
  - intros s sv Hs. apply lookup_app_Some in Hs as [Hs | [_ Hs]].
    + by eapply sys_services.
    + destruct (s - length (services σ))%nat; simpl in Hs; [|done].
      inversion Hs; subst. split; simpl; done.
  - intros f fr Hf. eapply (frame_ok_services _ (services σ)); [| |by eapply sys_frames].
    + intros s sv Hs _. by apply lookup_app_l_Some.
    + intros s [sv Hs]. exists sv. by apply lookup_app_l_Some.
  - apply (lock_unique _ Hinv).
  - intros s sv f fr Hs Hm Hf Hh.
    destruct (holder_service _ _ _ _ Hinv Hf Hh) as [sv' Hsv'].
    rewrite (lookup_app_l_Some _ _ _ _ Hsv') in Hs. inversion Hs; subst.
    by eapply (lock_free _ Hinv).
Qed.

(** One call moves: what has to hold of its new frame and of the services
    for the invariant to stay. *)
Lemma sys_inv_frame_update σ f f0 f1 w' svs' :
  sys_inv σ -> frames σ !! f = Some f0 ->
  node_inv w' -> persists (heap (nodes σ)) (heap w') ->
  (forall s, is_Some (services σ !! s) -> is_Some (svs' !! s)) ->
  (forall s sv, services σ !! s = Some sv ->
     holder f0 <> Some s -> holder f1 <> Some s -> svs' !! s = Some sv) ->
  (forall s sv', svs' !! s = Some sv' -> service_ok (heap w') sv') ->
  frame_ok (heap w') svs' f1 ->
  (forall s, holder f1 = Some s ->
     holder f0 = Some s \/ exists sv, services σ !! s = Some sv /\ mut sv = false) ->
  (forall s sv', svs' !! s = Some sv' -> mut sv' = false ->
     holder f1 <> Some s /\
     (holder f0 = Some s \/ exists sv, services σ !! s = Some sv /\ mut sv = false)) ->
  sys_inv (mkSystem w' svs' (<[f := f1]> (frames σ))).
Proof.
  intros Hinv Hf Hn Hp Hex Hsame Hsvc Hok Hacq Hrel.
  assert (Hother : forall f' fr' s, f' <> f -> frames σ !! f' = Some fr' ->
            holder fr' = Some s -> holder f0 <> Some s /\ holder f1 <> Some s).
  { intros f' fr' s Hne Hf' Hh. split.
    - intros Hh0. by pose proof (lock_unique _ Hinv _ _ _ _ _ Hf' Hf Hh Hh0).
    - intros Hh1. destruct (Hacq _ Hh1) as [Hh0 | (sv & Hsv & Hm)].
      + by pose proof (lock_unique _ Hinv _ _ _ _ _ Hf' Hf Hh Hh0).
      + by eapply (lock_free _ Hinv). }
  split; simpl.
  - done.
  - done.
  - intros f' fr' Hf'.
    apply list_lookup_insert_Some in Hf' as [(-> & <- & _) | [Hne Hf']]; [done|].
    eapply (frame_ok_services _ (services σ)); [|done|].
    + intros s sv Hs Hh. destruct (Hother _ _ _ (not_eq_sym Hne) Hf' Hh). by apply Hsame.
    + eapply frame_ok_persists; [done|]. by eapply sys_frames.
  - intros f1' f2' fr1 fr2 s H1 H2 Hh1 Hh2.
    apply list_lookup_insert_Some in H1 as [(-> & <- & _) | [Hne1 H1]];
      apply list_lookup_insert_Some in H2 as [(-> & <- & _) | [Hne2 H2]]; try done.
    + by destruct (Hother _ _ _ (not_eq_sym Hne2) H2 Hh2).
    + by destruct (Hother _ _ _ (not_eq_sym Hne1) H1 Hh1).
    + by eapply (lock_unique _ Hinv).
  - intros s sv' f' fr' Hs Hm Hf' Hh.
    destruct (Hrel _ _ Hs Hm) as [Hh1 Hwas].
    apply list_lookup_insert_Some in Hf' as [(-> & <- & _) | [Hne Hf']]; [done|].
    destruct Hwas as [Hh0 | (sv & Hsv & Hm0)].
    + by destruct (Hother _ _ _ (not_eq_sym Hne) Hf' Hh).
    + by eapply (lock_free _ Hinv).
Qed.

Lemma sys_inv_frame_same σ f f0 f1 w' :
  sys_inv σ -> frames σ !! f = Some f0 ->
  node_inv w' -> persists (heap (nodes σ)) (heap w') ->
  holder f1 = holder f0 ->
  frame_ok (heap w') (services σ) f1 ->
  sys_inv (mkSystem w' (services σ) (<[f := f1]> (frames σ))).
Proof.
  intros Hinv Hf Hn Hp Hh Hok.
  apply (sys_inv_frame_update σ f f0); try done.
  - intros s sv' Hs. eapply service_ok_persists; [done|]. by eapply sys_services.
  - intros s Hs. left. congruence.
  - intros s sv' Hs Hm. split; [|by eauto].
    rewrite Hh. by eapply (lock_free _ Hinv).
Qed.

Lemma sys_inv_frame_service σ f f0 f1 w' s sv sv' :
  sys_inv σ -> frames σ !! f = Some f0 -> services σ !! s = Some sv ->
  node_inv w' -> persists (heap (nodes σ)) (heap w') ->
  (holder f0 = Some s \/ holder f1 = Some s) ->
  (forall s', holder f0 = Some s' -> s' = s) ->
  (forall s', holder f1 = Some s' -> s' = s) ->
  service_ok (heap w') sv' ->
  frame_ok (heap w') (<[s := sv']> (services σ)) f1 ->
  (holder f1 = Some s -> holder f0 = Some s \/ mut sv = false) ->
  (mut sv' = false -> holder f1 = None) ->
  sys_inv (mkSystem w' (<[s := sv']> (services σ)) (<[f := f1]> (frames σ))).
Proof.
  intros Hinv Hf Hsv Hn Hp Hheld Hh0 Hh1 Hsvc Hok Hacq Hrel.
  pose proof (lookup_lt_Some _ _ _ Hsv) as Hlt.
  apply (sys_inv_frame_update σ f f0); try done.
  - intros s0 Hs0. apply lookup_lt_is_Some. rewrite length_insert.
    by apply lookup_lt_is_Some.
  - intros s0 sv0 Hs0 Hn0 Hn1. rewrite list_lookup_insert_ne; [done|].
    intros <-. by destruct Hheld.
  - intros s0 sv0 Hs0.
    apply list_lookup_insert_Some in Hs0 as [(-> & <- & _) | [Hne Hs0]]; [done|].
    eapply service_ok_persists; [done|]. by eapply sys_services.
  - intros s0 Hs0. rewrite (Hh1 _ Hs0) in Hs0 |- *.
    destruct (Hacq Hs0); eauto.
  - intros s0 sv0 Hs0 Hm.
    apply list_lookup_insert_Some in Hs0 as [(-> & <- & _) | [Hne Hs0]].
    + rewrite (Hrel Hm). split; [done|]. destruct Hheld as [?|Hc]; [by left|].
      rewrite (Hrel Hm) in Hc. done.
    + split; [|by eauto]. intros Hc. by apply Hh1 in Hc.
Qed.

Lemma via_Child_spec w r o w' :
  node_inv w -> holds_in (heap w) r = true -> via r Child w = (o, w') ->
  node_inv w' /\ persists (heap w) (heap w') /\
  match o with
  | Ok child => made_by (heap w') r child
  | Panic => True
  end.
Proof.
  intros Hn Hr Hv. destruct r as [|me]; simpl in *.
  - inversion Hv; subst. split; [done|]. split; [apply persists_refl|done].
  - pose proof (node_Child _ _ Hn Hr) as Hn'.
    pose proof (persists_Child _ _ Hr) as Hp.
    rewrite Hv in Hn', Hp. simpl in *. split; [done|]. split; [done|].
    destruct me as [p|].
    + unfold points_in in Hr. apply bool_decide_eq_true in Hr.
      rewrite (Child_spec _ _ Hr) in Hv.
      inversion Hv; subst. simpl.
      eexists _, _. split; [reflexivity|]. split.
      * rewrite <- (length_alter (add_children 1) (heap w) p). apply lookup_snoc.
      * reflexivity.
    + by inversion Hv; subst.
Qed.

Lemma via_Stop_spec w r o w' :
  node_inv w -> via r Stop w = (o, w') ->
  node_inv w' /\ persists (heap w) (heap w') /\
  match o, r with
  | Ok _, of_ptr me => w' = (Stop me w).2
  | Panic, nil_Routines => w' = w
  | _, _ => False
  end.
Proof.
  intros Hn Hv. destruct r as [|me]; unfold via in Hv.
  - inversion Hv; subst. split; [done|]. split; [apply persists_refl|done].
  - assert (Hw : w' = (Stop me w).2) by (by rewrite Hv).
    assert (Ho : o = Ok tt) by (rewrite Stop_spec in Hv; by inversion Hv).
    subst. split; [by apply node_Stop|]. split; [apply persists_Stop|done].
Qed.

Lemma Stop_closes w c r :
  heap w !! c = Some r ->
  exists r', heap (Stop (Some c) w).2 !! c = Some r' /\ doneCh r' = true /\
             parent r' = parent r.
Proof.
  intros Hr. rewrite Stop_spec. simpl. rewrite list_lookup_alter_eq, Hr. simpl. eauto.
Qed.

Lemma service_ok_set_mut h sv b : service_ok h sv -> service_ok h (set_mut sv b).
Proof. by intros [? ?]. Qed.

Lemma sys_inv_resume σ f f0 client f1 σ1 :
  sys_inv σ -> frames σ !! f = Some f0 ->
  step_frame client f0 σ = Some (f1, σ1) ->
  sys_inv (mkSystem (nodes σ1) (services σ1) (<[f := f1]> (frames σ1))).
Proof.
  intros Hinv Hf Hstep.
  pose proof (sys_frames _ Hinv _ _ Hf) as Hok.
  pose proof (sys_nodes _ Hinv) as Hn.
  destruct f0 as [rest|s r pc|s pc|v|]; simpl in Hstep; try done.
  - destruct rest as [|c rest].
    + inversion Hstep; subst. apply (sys_inv_frame_same σ1 f (in_Wait [])); try done.
      apply persists_refl.
    + destruct (passes (nodes σ) c); inversion Hstep; subst.
      apply (sys_inv_frame_same σ1 f (in_Wait (c :: rest))); try done.
      * apply persists_refl.
      * simpl in *. by inversion Hok.
  - destruct Hok as (sv & Hsv & Hr & Hpc). rewrite Hsv in Hstep. simpl in Hstep.
    pose proof (sys_services _ Hinv _ _ Hsv) as Hsvc.
    pose proof (lookup_lt_Some _ _ _ Hsv) as Hlt.
    destruct pc as [| | |child|child err|child err rest].
    + (* Lock *)
      destruct (mut sv) eqn:Hm; inversion Hstep; subst; simpl.
      apply (sys_inv_frame_service σ f (in_Start s r start_Lock) _ _ s sv); try done.
      * apply persists_refl.
      * by right.
      * by intros s' [= <-].
      * simpl. eexists. by rewrite list_lookup_insert_eq.
      * by right.
    + (* check *)
      destruct (is_nil (s_routines sv)) eqn:Hnil; inversion Hstep; subst; simpl.
      * apply (sys_inv_frame_same σ1 f (in_Start s r start_check)); try done.
        -- apply persists_refl.
        -- simpl. exists sv. repeat split; try done. by destruct (s_routines sv).
      * apply (sys_inv_frame_service σ f (in_Start s r start_check) _ _ s sv); try done.
        -- apply persists_refl.
        -- by left.
        -- by intros s' [= <-].
    + (* Child *)
      destruct (via r Child (nodes σ)) as [o w'] eqn:Hv.
      apply via_Child_spec in Hv as (Hn' & Hp & Hmade); [|done..].
      destruct o as [child|]; inversion Hstep; subst; simpl.
      * apply (sys_inv_frame_same σ f (in_Start s r start_Child)); try done.
        simpl. exists sv. destruct Hpc.
        repeat split; try done. by eapply holds_in_persists.
      * apply (sys_inv_frame_service σ f (in_Start s r start_Child) _ _ s sv); try done.
        -- by left.
        -- by intros s' [= <-].
        -- apply service_ok_set_mut. by eapply service_ok_persists.
    + (* the call of the start routine *)
      destruct Hpc as (Hm & Hnil & Hmade).
      destruct (call_start (start sv) client) as [[err|]|] eqn:Hcall;
        inversion Hstep; subst; simpl.
      * apply (sys_inv_frame_same σ1 f (in_Start s r (start_call child))); try done.
        -- apply persists_refl.
        -- simpl. exists sv. repeat split; try done.
           intros Hstub. rewrite Hstub in Hcall. simpl in Hcall. congruence.
      * apply (sys_inv_frame_service σ f (in_Start s r (start_call child)) _ _ s sv);
          try done.
        -- apply persists_refl.
        -- by left.
        -- by intros s' [= <-].
        -- split; simpl.
           ++ destruct r as [|[p|]]; simpl in Hmade; try done.
              ** destruct Hmade as (c & rc & -> & Hc & Hpar). simpl.
                 exists rc. split; [done|]. congruence.
              ** by subst.
           ++ intros Hstub. rewrite Hstub in Hcall. simpl in Hcall. congruence.
      * apply (sys_inv_frame_service σ f (in_Start s r (start_call child)) _ _ s sv);
          try done.
        -- apply persists_refl.
        -- by left.
        -- by intros s' [= <-].
    + (* deferred: child.Stop() *)
      destruct Hpc as (Hm & Hnil & Hmade & Hstub).
      destruct (via child Stop (nodes σ)) as [o w'] eqn:Hv.
      apply via_Stop_spec in Hv as (Hn' & Hp & Hres); [|done].
      destruct o as [[]|], child as [|me]; simpl in Hstep; try done;
        inversion Hstep; subst; simpl.
      * apply (sys_inv_frame_same σ f (in_Start s r (start_cleanup_Stop (of_ptr me) err)));
          try done.
        simpl. exists sv. repeat split; try done; [by eapply holds_in_persists|].
        destruct r as [|[p|]]; simpl in Hmade; try done.
        destruct Hmade as (c & rc & [= ->] & Hc & Hpar).
        destruct (Stop_closes _ _ _ Hc) as (r' & Hr' & Hd' & Hp').
        exists c, r'. repeat split; try done; [congruence|by left].
      * apply (sys_inv_frame_service σ f (in_Start s r (start_cleanup_Stop nil_Routines err))
                 _ _ s sv); try done.
        -- by left.
        -- by intros s' [= <-].
    + (* deferred: child.Wait() *)
      destruct Hpc as (Hm & Hnil & Hdr & Hstub).
      destruct rest as [|c rest].
      * inversion Hstep; subst; simpl.
        apply (sys_inv_frame_service σ f (in_Start s r (start_cleanup_Wait child err []))
                 _ _ s sv); try done.
        -- apply persists_refl.
        -- by left.
        -- by intros s' [= <-].
      * destruct (passes (nodes σ) c); inversion Hstep; subst; simpl.
        apply (sys_inv_frame_same σ1 f
                 (in_Start s r (start_cleanup_Wait child err (c :: rest)))); try done.
        -- apply persists_refl.
        -- simpl. exists sv. repeat split; try done.
           destruct Hdr as (c0 & rc & Hc & Hrc & Hd & Hpar & Hrest).
           exists c0, rc. repeat split; try done.
           destruct Hrest as [Hw | [Hw | Hw]]; inversion Hw; subst; auto.
  - destruct Hok as (sv & Hsv & Hpc). rewrite Hsv in Hstep. simpl in Hstep.
    pose proof (sys_services _ Hinv _ _ Hsv) as Hsvc.
    pose proof (lookup_lt_Some _ _ _ Hsv) as Hlt.
    destruct pc as [| | |rest].
    + (* Lock *)
      destruct (mut sv) eqn:Hm; inversion Hstep; subst; simpl.
      apply (sys_inv_frame_service σ f (in_Stop s stop_Lock) _ _ s sv); try done.
      * apply persists_refl.
      * by right.
      * by intros s' [= <-].
      * simpl. eexists. by rewrite list_lookup_insert_eq.
      * by right.
    + (* check *)
      destruct (is_nil (s_routines sv)) eqn:Hnil; inversion Hstep; subst; simpl.
      * apply (sys_inv_frame_service σ f (in_Stop s stop_check) _ _ s sv); try done.
        -- apply persists_refl.
        -- by left.
        -- by intros s' [= <-].
      * apply (sys_inv_frame_same σ1 f (in_Stop s stop_check)); try done.
        -- apply persists_refl.
        -- simpl. exists sv. done.
    + (* me.routines.Stop() *)
      destruct Hpc as (Hm & Hnil).
      destruct (via (s_routines sv) Stop (nodes σ)) as [o w'] eqn:Hv.
      apply via_Stop_spec in Hv as (Hn' & Hp & Hres); [|done].
      destruct Hsvc as [Hact ?].
      destruct o as [[]|], (s_routines sv) as [|me] eqn:Hsr; simpl in Hstep; try done.
      inversion Hstep; subst; simpl.
      apply (sys_inv_frame_same σ f (in_Stop s stop_Stop)); try done.
      simpl. exists sv. repeat split; try done. rewrite Hsr.
      destruct me as [c|]; simpl in Hact; [|done].
      destruct Hact as (rc & Hc & Hpar).
      destruct (Stop_closes _ _ _ Hc) as (r' & Hr' & Hd' & Hp').
      exists c, r'. repeat split; try done; [congruence|by left].
    + (* me.routines.Wait(); me.routines = nil *)
      destruct Hpc as (Hm & Hdr).
      destruct rest as [|c rest].
      * inversion Hstep; subst; simpl.
        apply (sys_inv_frame_service σ f (in_Stop s (stop_Wait [])) _ _ s sv); try done.
        -- apply persists_refl.
        -- by left.
        -- by intros s' [= <-].
      * destruct (passes (nodes σ) c); inversion Hstep; subst; simpl.
        apply (sys_inv_frame_same σ1 f (in_Stop s (stop_Wait (c :: rest)))); try done.
        -- apply persists_refl.
        -- simpl. exists sv. repeat split; try done.
           destruct Hdr as (c0 & rc & Hc & Hrc & Hd & Hpar & Hrest).
           exists c0, rc. repeat split; try done.
           destruct Hrest as [Hw | [Hw | Hw]]; inversion Hw; subst; auto.
Qed.

Lemma sys_inv_init : sys_inv init.
Proof. split; simpl; done. Qed.

Lemma sys_inv_step l σ σ' : sys_inv σ -> step l σ = Some σ' -> sys_inv σ'.
Proof.
  intros Hinv Hstep. pose proof (sys_nodes _ Hinv) as Hn.
  destruct l as [|me|me id|me|me|st|me r|me|g b|f client]; simpl in Hstep.
  - inversion Hstep; subst.
    apply sys_inv_nodes; [done|by apply node_NewRoutines|apply persists_NewRoutines].
  - destruct (points_in (heap (nodes σ)) me) eqn:Hme; inversion Hstep; subst.
    apply sys_inv_nodes; [done|by apply node_Child|by apply persists_Child].
  - destruct (points_in (heap (nodes σ)) me) eqn:Hme; inversion Hstep; subst.
    apply sys_inv_nodes; [done|by apply node_Go|].
    apply persists_Go; [apply Hn|done].
  - destruct (points_in (heap (nodes σ)) me) eqn:Hme; inversion Hstep; subst.
    apply sys_inv_nodes; [done|by apply node_Stop|apply persists_Stop].
  - destruct (points_in (heap (nodes σ)) me) eqn:Hme; inversion Hstep; subst.
    apply sys_inv_push; [done| |done].
    destruct me as [p|]; simpl; [|done].
    apply bool_decide_eq_true in Hme. by repeat constructor.
  - inversion Hstep; subst. by apply sys_inv_new_service.
  - destruct (points_in (services σ) me) eqn:Hme; simpl in Hstep; [|done].
    destruct (holds_in (heap (nodes σ)) r) eqn:Hr; inversion Hstep; subst.
    apply sys_inv_push; [done| |by destruct me].
    destruct me as [s|]; simpl; [|done].
    apply bool_decide_eq_true in Hme.
    destruct (lookup_lt_is_Some_2 _ _ Hme) as [sv Hsv]. by exists sv.
  - destruct (points_in (services σ) me) eqn:Hme; inversion Hstep; subst.
    apply sys_inv_push; [done| |by destruct me].
    destruct me as [s|]; simpl; [|done].
    apply bool_decide_eq_true in Hme.
    destruct (lookup_lt_is_Some_2 _ _ Hme) as [sv Hsv]. by exists sv.
  - destruct (pool (nodes σ) !! g) as [g0|] eqn:Hg; simpl in Hstep; [|done].
    destruct (step_goroutine b g0 (nodes σ)) as [[g1 w1]|] eqn:Hs; simpl in Hstep; [|done].
    inversion Hstep; subst.
    apply sys_inv_nodes; [done|by eapply node_step_goroutine|].
    simpl. eapply persists_step_goroutine; [apply Hn|done..].
  - destruct (frames σ !! f) as [f0|] eqn:Hf; simpl in Hstep; [|done].
    destruct (step_frame client f0 σ) as [[f1 σ1]|] eqn:Hs; simpl in Hstep; [|done].
    inversion Hstep; subst. by eapply sys_inv_resume.
Qed.

Lemma sys_inv_exec tr σ σ' : sys_inv σ -> exec tr σ = Some σ' -> sys_inv σ'.
Proof.
  revert σ. induction tr as [|l tr IH]; intros σ Hinv Hex; simpl in Hex.
  - by inversion Hex; subst.
  - destruct (step l σ) as [σ1|] eqn:Hs; simpl in Hex; [|done].
    eapply IH; [|done]. by eapply sys_inv_step.
Qed.

Lemma reachable_inv σ : reachable σ -> sys_inv σ.
Proof. intros [tr Htr]. eapply sys_inv_exec; [apply sys_inv_init|done]. Qed.

Lemma exec_app tr1 tr2 σ :
  exec (tr1 ++ tr2) σ = σ' ← exec tr1 σ; exec tr2 σ'.
Proof.
  revert σ. induction tr1 as [|l tr1 IH]; intros σ; simpl; [done|].
  destruct (step l σ); simpl; [apply IH|done].
Qed.

Lemma reachable_exec tr σ σ' : reachable σ -> exec tr σ = Some σ' -> reachable σ'.
Proof.
  intros [tr0 H0] H. exists (tr0 ++ tr). by rewrite exec_app, H0.
Qed.

(** * Properties of the package *)

(** ** Nil receivers *)

(** Nil safety for a set of nodes called absent: no method faults on an
    absent node, and [Child] on an absent node yields an absent node. *)
Definition nil_safety (absent : Routines -> Prop) : Prop :=
  forall r, absent r -> forall (w : world) (fn : func),
    (via r Done w).1 <> Panic /\
    (via r (fun me => Go me fn) w).1 <> Panic /\
    (via r Stop w).1 <> Panic /\
    via_Wait r <> Panic /\
    exists r', (via r Child w).1 = Ok r' /\ absent r'.

(** C6, as stated, fails, whatever is called absent as long as the nil
    [*routines] is: [Child] on a nil [*routines] returns the nil interface,
    and a call of [Stop] on the nil interface panics. *)
Lemma C6_Child_of_nil_is_not_safe :
  ~ exists absent : Routines -> Prop, absent (of_ptr None) /\ nil_safety absent.
Proof.
  intros (absent & Hnil & Hsafe).
  destruct (Hsafe _ Hnil (mkWorld [] []) (client_fn 0%nat))
    as (_ & _ & _ & _ & r' & Hchild & Habs).
  cbn in Hchild. inversion Hchild; subst r'.
  destruct (Hsafe _ Habs (mkWorld [] []) (client_fn 0%nat)) as (_ & _ & Hstop & _).
  by apply Hstop.
Qed.


(** ** Stop *)

(** [Stop], [n] times in a row. *)
Fixpoint Stop_times (n : nat) (me : option ptr) : M unit :=
  match n with
  | O => ret tt
  | S n' => Stop me >> Stop_times n' me
  end.

(** [Stop] on each receiver of a list, in order: an interleaving of calls
    from several goroutines, [close] being atomic. *)
Fixpoint Stop_each (mes : list (option ptr)) : M unit :=
  match mes with
  | [] => ret tt
  | me :: mes' => Stop me >> Stop_each mes'
  end.

Lemma Stop_Stop me w : Stop me (Stop me w).2 = Stop me w.
Proof.
  rewrite !Stop_spec. simpl. f_equal. f_equal.
  destruct me as [p|]; simpl; [|done].
  rewrite list_alter_alter_eq. by apply list_alter_ext.
Qed.

Lemma Stop_then me (m : M unit) w : (Stop me >> m) w = m (Stop me w).2.
Proof. unfold bind. by rewrite Stop_spec. Qed.

Lemma Stop_times_once n me w : Stop_times (S n) me w = Stop me w.
Proof.
  revert w. induction n as [|n IH]; intros w.
  - simpl. rewrite Stop_then. by rewrite Stop_spec.
  - change (Stop_times (S (S n)) me) with (Stop me >> Stop_times (S n) me).
    rewrite Stop_then, IH. apply Stop_Stop.
Qed.

Lemma Stop_each_ok mes w : (Stop_each mes w).1 = Ok tt.
Proof.
  revert w. induction mes as [|me mes IH]; intros w; simpl; [done|].
  rewrite Stop_then. apply IH.
Qed.

Lemma exec_Stop_twice me σ σ' :
  step (call_Stop me) σ = Some σ' -> step (call_Stop me) σ' = Some σ'.
Proof.
  unfold step. destruct (points_in (heap (nodes σ)) me) eqn:Hme; [|done].
  intros [= <-]. unfold with_nodes. cbn [nodes services frames].
  assert (Hme' : points_in (heap (Stop me (nodes σ)).2) me = true).
  { destruct me as [p|]; [|done]. rewrite Stop_spec. simpl in *.
    by rewrite length_alter. }
  rewrite Hme'. by rewrite Stop_Stop.
Qed.

Lemma exec_Stop_again n me σ :
  step (call_Stop me) σ = Some σ -> exec (replicate n (call_Stop me)) σ = Some σ.
Proof.
  intros H. induction n as [|n IH]; [done|].
  cbn [replicate exec]. rewrite H. apply IH.
Qed.

(** C4. [Stop] any number [n >= 1] of times leaves the same world, and
    returns the same way, as [Stop] once; as calls of any goroutine of the
    program, too.  No sequence of [Stop] calls, on whatever receivers and
    in whatever order, panics. *)
Theorem C4_Stop_is_idempotent (me : option ptr) (n : nat) (w : world) (σ : system)
    (mes : list (option ptr)) :
  Stop_times (S n) me w = Stop me w /\
  (Stop me w).1 = Ok tt /\
  exec (replicate (S n) (call_Stop me)) σ = exec [call_Stop me] σ /\
  (Stop_each mes w).1 = Ok tt.
Proof.
  split; [apply Stop_times_once|]. split; [by rewrite Stop_spec|].
  split; [|apply Stop_each_ok].
  cbn [replicate exec]. destruct (step (call_Stop me) σ) as [σ1|] eqn:Hs; [|done].
  cbn [mbind option_bind]. apply exec_Stop_again. by eapply exec_Stop_twice.
Qed.

(** ** How a step changes the system *)

(** A call's step leaves the other frames alone; of the nodes it changes
    nothing, or makes the candidate child, or stops the candidate or the
    active node. *)
Lemma step_frame_effect client f0 σ f1 σ1 :
  step_frame client f0 σ = Some (f1, σ1) ->
  frames σ1 = frames σ /\
  (nodes σ1 = nodes σ \/
   (exists s r, f0 = in_Start s r start_Child /\ nodes σ1 = (via r Child (nodes σ)).2) \/
   (exists s r child err, f0 = in_Start s r (start_cleanup_Stop child err) /\
      nodes σ1 = (via child Stop (nodes σ)).2) \/
   (exists s sv, f0 = in_Stop s stop_Stop /\ services σ !! s = Some sv /\
      nodes σ1 = (via (s_routines sv) Stop (nodes σ)).2)).
Proof.
  intros Hstep.
  destruct f0 as [rest|s r pc|s pc|v|]; simpl in Hstep; try done.
  - destruct rest as [|c rest]; [by inversion Hstep; subst; auto|].
    destruct (passes (nodes σ) c); inversion Hstep; subst; auto.
  - destruct (services σ !! s) as [sv|]; simpl in Hstep; [|done].
    destruct pc as [| | |child|child err|child err rest].
    + destruct (mut sv); inversion Hstep; subst; auto.
    + destruct (is_nil (s_routines sv)); inversion Hstep; subst; auto.
    + destruct (via r Child (nodes σ)) as [o w'] eqn:Hv.
      destruct o; inversion Hstep; subst; simpl; split; try done;
        right; left; exists s, r; by rewrite Hv.
    + destruct (call_start (start sv) client) as [[e|]|]; inversion Hstep; subst; auto.
    + destruct (via child Stop (nodes σ)) as [o w'] eqn:Hv.
      destruct o, (via_Wait child); inversion Hstep; subst; simpl; split; try done;
        right; right; left; exists s, r, child, err; by rewrite Hv.
    + destruct rest as [|c rest]; [by inversion Hstep; subst; auto|].
      destruct (passes (nodes σ) c); inversion Hstep; subst; auto.
  - destruct (services σ !! s) as [sv|] eqn:Hsv; simpl in Hstep; [|done].
    destruct pc as [| | |rest].
    + destruct (mut sv); inversion Hstep; subst; auto.
    + destruct (is_nil (s_routines sv)); inversion Hstep; subst; auto.
    + destruct (via (s_routines sv) Stop (nodes σ)) as [o w'] eqn:Hv.
      destruct o, (via_Wait (s_routines sv)); inversion Hstep; subst; simpl;
        split; try done; right; right; right; exists s, sv; by rewrite Hv.
    + destruct rest as [|c rest]; [by inversion Hstep; subst; auto|].
      destruct (passes (nodes σ) c); inversion Hstep; subst; auto.
Qed.

(** A step that is not a step of call [f] leaves the frame of [f] alone. *)
Lemma step_other_frame l σ σ' f fr :
  step l σ = Some σ' -> frames σ !! f = Some fr ->
  (forall c, l <> resume f c) -> frames σ' !! f = Some fr.
Proof.
  intros Hstep Hf Hne.
  destruct l as [|me|me id|me|me|st|me r|me|g b|f' client]; simpl in Hstep.
  - by inversion Hstep; subst.
  - destruct (points_in _ me); inversion Hstep; by subst.
  - destruct (points_in _ me); inversion Hstep; by subst.
  - destruct (points_in _ me); inversion Hstep; by subst.
  - destruct (points_in _ me); inversion Hstep; subst. by apply lookup_app_l_Some.
  - by inversion Hstep; subst.
  - destruct (points_in _ me && holds_in _ r); inversion Hstep; subst.
    by apply lookup_app_l_Some.
  - destruct (points_in _ me); inversion Hstep; subst. by apply lookup_app_l_Some.
  - destruct (pool (nodes σ) !! g) as [g0|]; simpl in Hstep; [|done].
    destruct (step_goroutine b g0 (nodes σ)) as [[g1 w1]|]; inversion Hstep; by subst.
  - destruct (frames σ !! f') as [f0|]; simpl in Hstep; [|done].
    destruct (step_frame client f0 σ) as [[f1 σ1]|] eqn:Hs; inversion Hstep; subst.
    simpl. apply step_frame_effect in Hs as [-> _].
    rewrite list_lookup_insert_ne; [done|]. intros ->. by eapply Hne.
Qed.

(** The pool after a call through the interface. *)
Lemma via_Child_pool w r :
  holds_in (heap w) r = true ->
  exists extra, pool (via r Child w).2 = pool w ++ extra.
Proof.
  intros Hr. destruct r as [|[p|]]; simpl.
  - exists []. by rewrite app_nil_r.
  - simpl in Hr. apply bool_decide_eq_true in Hr.
    change (Child (Some p) w) with (Child (Some p) w).
    pose proof (Child_spec w p Hr) as Hc. unfold Child in Hc. rewrite Hc. simpl. eauto.
  - exists []. by rewrite app_nil_r.
Qed.

Lemma via_Stop_pool w r : pool (via r Stop w).2 = pool w.
Proof. destruct r as [|me]; [done|]. unfold via. by rewrite Stop_spec. Qed.

(** A step that is not a step of goroutine [g] leaves [g] alone. *)
Lemma step_other_goroutine l σ σ' g gr :
  sys_inv σ -> step l σ = Some σ' -> pool (nodes σ) !! g = Some gr ->
  (forall b, l <> run g b) -> pool (nodes σ') !! g = Some gr.
Proof.
  intros Hinv Hstep Hg Hne. pose proof (sys_nodes _ Hinv) as [Hcore _].
  destruct l as [|me|me id|me|me|st|me r|me|g' b|f' client]; simpl in Hstep.
  - by inversion Hstep; subst.
  - destruct (points_in _ me) eqn:Hme; inversion Hstep; subst. simpl.
    destruct (via_Child_pool (nodes σ) (of_ptr me) Hme) as [extra He].
    simpl in He. rewrite He. by apply lookup_app_l_Some.
  - destruct (points_in _ me) eqn:Hme; inversion Hstep; subst. simpl.
    destruct me as [p|]; [|done].
    apply bool_decide_eq_true in Hme.
    destruct (lookup_lt_is_Some_2 _ _ Hme) as [r Hr].
    rewrite (Go_spec _ _ _ _ Hr) by by eapply parent_points_in.
    simpl. by apply lookup_app_l_Some.
  - destruct (points_in _ me); inversion Hstep; subst.
    cbn [with_nodes nodes]. by rewrite Stop_spec.
  - destruct (points_in _ me); inversion Hstep; by subst.
  - by inversion Hstep; subst.
  - destruct (points_in _ me && holds_in _ r); inversion Hstep; by subst.
  - destruct (points_in _ me); inversion Hstep; by subst.
  - destruct (pool (nodes σ) !! g') as [g0|] eqn:Hg'; simpl in Hstep; [|done].
    destruct (step_goroutine b g0 (nodes σ)) as [[g1 w1]|] eqn:Hs;
      inversion Hstep; subst. simpl.
    assert (Hpool : pool w1 = pool (nodes σ)).
    { by destruct (step_goroutine_cases _ _ _ _ _ _ Hcore Hg' Hs). }
    rewrite Hpool, list_lookup_insert_ne; [done|]. intros ->. by eapply Hne.
  - destruct (frames σ !! f') as [f0|] eqn:Hf; simpl in Hstep; [|done].
    destruct (step_frame client f0 σ) as [[f1 σ1]|] eqn:Hs; inversion Hstep; subst.
    simpl. apply step_frame_effect in Hs as
      [_ [-> | [(s & r & -> & ->) | [(s & r & ch & e & -> & ->) | (s & sv & -> & _ & ->)]]]].
    + done.
    + pose proof (sys_frames _ Hinv _ _ Hf) as (sv & _ & Hr & _).
      destruct (via_Child_pool (nodes σ) r Hr) as [extra He].
      rewrite He. by apply lookup_app_l_Some.
    + by rewrite via_Stop_pool.
    + by rewrite via_Stop_pool.
Qed.

(** Old nodes persist through a step. *)
Lemma step_persists l σ σ' :
  sys_inv σ -> step l σ = Some σ' -> persists (heap (nodes σ)) (heap (nodes σ')).
Proof.
  intros Hinv Hstep. pose proof (sys_nodes _ Hinv) as Hn.
  destruct l as [|me|me id|me|me|st|me r|me|g b|f client]; simpl in Hstep.
  - inversion Hstep; subst. apply persists_NewRoutines.
  - destruct (points_in _ me) eqn:Hme; inversion Hstep; subst. by apply persists_Child.
  - destruct (points_in _ me) eqn:Hme; inversion Hstep; subst.
    apply persists_Go; [apply Hn|done].
  - destruct (points_in _ me); inversion Hstep; subst. apply persists_Stop.
  - destruct (points_in _ me); inversion Hstep; subst. apply persists_refl.
  - inversion Hstep; subst. apply persists_refl.
  - destruct (points_in _ me && holds_in _ r); inversion Hstep; subst.
    apply persists_refl.
  - destruct (points_in _ me); inversion Hstep; subst. apply persists_refl.
  - destruct (pool (nodes σ) !! g) as [g0|] eqn:Hg; simpl in Hstep; [|done].
    destruct (step_goroutine b g0 (nodes σ)) as [[g1 w1]|] eqn:Hs;
      inversion Hstep; subst. simpl.
    eapply persists_step_goroutine; [apply Hn|done..].
  - destruct (frames σ !! f) as [f0|] eqn:Hf; simpl in Hstep; [|done].
    destruct (step_frame client f0 σ) as [[f1 σ1]|] eqn:Hs; inversion Hstep; subst.
    simpl. apply step_frame_effect in Hs as
      [_ [-> | [(s & r & -> & ->) | [(s & r & ch & e & -> & ->) | (s & sv & -> & _ & ->)]]]].
    + apply persists_refl.
    + pose proof (sys_frames _ Hinv _ _ Hf) as (sv & _ & Hr & _).
      destruct (via r Child (nodes σ)) as [o w'] eqn:Hv.
      by apply via_Child_spec in Hv as (_ & Hp & _).
    + destruct (via ch Stop (nodes σ)) as [o w'] eqn:Hv.
      by apply via_Stop_spec in Hv as (_ & Hp & _).
    + destruct (via (s_routines sv) Stop (nodes σ)) as [o w'] eqn:Hv.
      by apply via_Stop_spec in Hv as (_ & Hp & _).
Qed.

Lemma exec_persists tr σ σ' :
  sys_inv σ -> exec tr σ = Some σ' -> persists (heap (nodes σ)) (heap (nodes σ')).
Proof.
  revert σ. induction tr as [|l tr IH]; intros σ Hinv Hex; simpl in Hex.
  - inversion Hex; subst. apply persists_refl.
  - destruct (step l σ) as [σ1|] eqn:Hs; simpl in Hex; [|done].
    eapply persists_trans; [by eapply step_persists|].
    eapply IH; [by eapply sys_inv_step|done].
Qed.

Lemma is_run_of l g : (exists b, l = run g b) \/ (forall b, l <> run g b).
Proof.
  destruct l as [| | | | | | | |g' b|]; try by right.
  destruct (decide (g' = g)) as [->|Hne]; [left; eauto|].
  right. intros b' [= ? ?]. done.
Qed.

Lemma is_resume_of l f : (exists c, l = resume f c) \/ (forall c, l <> resume f c).
Proof.
  destruct l as [| | | | | | | | |f' c]; try by right.
  destruct (decide (f' = f)) as [->|Hne]; [left; eauto|].
  right. intros c' [= ? ?]. done.
Qed.

(** A goroutine keeps its place, its owner, and never starts running anew. *)
Lemma step_goroutine_ages l σ σ' g gr :
  sys_inv σ -> step l σ = Some σ' -> pool (nodes σ) !! g = Some gr ->
  exists gr', pool (nodes σ') !! g = Some gr' /\ g_owner gr' = g_owner gr /\
              (running gr = false -> running gr' = false).
Proof.
  intros Hinv Hstep Hg.
  destruct (is_run_of l g) as [[b ->]|Hne].
  - pose proof (sys_nodes _ Hinv) as [Hcore _].
    simpl in Hstep. rewrite Hg in Hstep. simpl in Hstep.
    destruct (step_goroutine b gr (nodes σ)) as [[g1 w1]|] eqn:Hs;
      inversion Hstep; subst. simpl.
    exists g1.
    assert (Hpool : pool w1 = pool (nodes σ) /\ g_owner g1 = g_owner gr /\
                    (running gr = false -> running g1 = false)).
    { destruct (step_goroutine_cases _ _ _ _ _ _ Hcore Hg Hs) as
        [id Hst | p Hst Hrdy | p Hst Hrdy | Hst | pn d ds Hst Hd | pn Hst Hd];
        unfold running; rewrite ?Hst; simpl; repeat split; try done.
      by destruct pn. }
    destruct Hpool as (-> & ? & ?). split; [|done].
    apply list_lookup_insert_eq. by eapply lookup_lt_Some.
  - exists gr. split; [|done]. by eapply step_other_goroutine.
Qed.

Lemma exec_goroutine_ages tr σ σ' g gr :
  sys_inv σ -> exec tr σ = Some σ' -> pool (nodes σ) !! g = Some gr ->
  exists gr', pool (nodes σ') !! g = Some gr' /\ g_owner gr' = g_owner gr /\
              (running gr = false -> running gr' = false).
Proof.
  revert σ gr. induction tr as [|l tr IH]; intros σ gr Hinv Hex Hg; simpl in Hex.
  - inversion Hex; subst. eauto.
  - destruct (step l σ) as [σ1|] eqn:Hs; simpl in Hex; [|done].
    destruct (step_goroutine_ages _ _ _ _ _ Hinv Hs Hg) as (gr1 & Hg1 & Ho1 & Hr1).
    destruct (IH _ _ (sys_inv_step _ _ _ Hinv Hs) Hex Hg1) as (gr' & Hg' & Ho' & Hr').
    exists gr'. split; [done|]. split; [congruence|auto].
Qed.

(** ** Wait *)

Definition not_step_of (f : nat) (l : label) : Prop := forall c, l <> resume f c.

(** A call whose frame has changed has moved: the schedule splits at its
    first step. *)
Lemma first_move tr σ0 σ f fr :
  frames σ0 !! f = Some fr -> exec tr σ0 = Some σ -> frames σ !! f <> Some fr ->
  exists tr1 c tr2 σ1 σ1',
    tr = tr1 ++ resume f c :: tr2 /\ Forall (not_step_of f) tr1 /\
    exec tr1 σ0 = Some σ1 /\ frames σ1 !! f = Some fr /\
    step (resume f c) σ1 = Some σ1' /\ exec tr2 σ1' = Some σ.
Proof.
  revert σ0. induction tr as [|l tr IH]; intros σ0 Hf Hex Hne; simpl in Hex.
  - inversion Hex; subst. done.
  - destruct (step l σ0) as [σa|] eqn:Hs; simpl in Hex; [|done].
    destruct (is_resume_of l f) as [[c ->]|Hl].
    + exists [], c, tr, σ0, σa. repeat split; done.
    + pose proof (step_other_frame _ _ _ _ _ Hs Hf Hl) as Hf'.
      destruct (IH _ Hf' Hex Hne) as (tr1 & c & tr2 & σ1 & σ1' & -> & Hall & H1 & Hfr & Hst & H2).
      exists (l :: tr1), c, tr2, σ1, σ1'. repeat split; try done.
      * by constructor.
      * simpl. by rewrite Hs.
Qed.

(** A step of a call inside [Wait]: the counter it waits on is 0, and only
    its frame changes. *)
Lemma resume_Wait σ f c rest client σ' :
  frames σ !! f = Some (in_Wait (c :: rest)) ->
  step (resume f client) σ = Some σ' ->
  counter (nodes σ) c = Some 0 /\
  σ' = mkSystem (nodes σ) (services σ) (<[f := in_Wait rest]> (frames σ)).
Proof.
  intros Hf Hstep. simpl in Hstep. rewrite Hf in Hstep. simpl in Hstep.
  unfold passes in Hstep. destruct (counter (nodes σ) c) as [n|]; [|done].
  case_bool_decide; inversion Hstep; subst. done.
Qed.

Lemma resume_Wait_blocked σ f c rest client :
  frames σ !! f = Some (in_Wait (c :: rest)) ->
  counter (nodes σ) c <> Some 0 ->
  step (resume f client) σ = None.
Proof.
  intros Hf Hc. simpl. rewrite Hf. simpl. unfold passes.
  destruct (counter (nodes σ) c) as [n|]; [|done].
  case_bool_decide; [congruence|done].
Qed.

(** The two steps a returned call of [Wait] took, and the states in which
    it took them. *)
Lemma Wait_moves σ0 σ tr f p :
  frames σ0 !! f = Some (in_Wait (Wait (Some p))) ->
  exec tr σ0 = Some σ ->
  frames σ !! f = Some (returned no_value) ->
  exists tr1 c1 σ1 tr2 c2 σ2 tr3,
    tr = tr1 ++ resume f c1 :: tr2 ++ resume f c2 :: tr3 /\
    Forall (not_step_of f) tr1 /\ exec tr1 σ0 = Some σ1 /\
    counter (nodes σ1) (children_of p) = Some 0 /\
    Forall (not_step_of f) tr2 /\ exec (tr1 ++ resume f c1 :: tr2) σ0 = Some σ2 /\
    frames σ2 !! f = Some (in_Wait [waitgroup_of p]) /\
    counter (nodes σ2) (waitgroup_of p) = Some 0.
Proof.
  intros Hf Hex Hret.
  destruct (first_move _ _ _ _ _ Hf Hex) as
    (tr1 & c1 & tr' & σ1 & σ1' & -> & Hall1 & H1 & Hf1 & Hs1 & Hex').
  { by rewrite Hret. }
  destruct (resume_Wait _ _ _ _ _ _ Hf1 Hs1) as [Hc1 ->].
  assert (Hf2 : frames (mkSystem (nodes σ1) (services σ1)
                          (<[f := in_Wait [waitgroup_of p]]> (frames σ1))) !! f
                = Some (in_Wait [waitgroup_of p])).
  { simpl. apply list_lookup_insert_eq. by eapply lookup_lt_Some. }
  destruct (first_move _ _ _ _ _ Hf2 Hex') as
    (tr2 & c2 & tr3 & σ2 & σ2' & -> & Hall2 & H2 & Hf2' & Hs2 & Hex'').
  { by rewrite Hret. }
  destruct (resume_Wait _ _ _ _ _ _ Hf2' Hs2) as [Hc2 ->].
  exists tr1, c1, σ1, tr2, c2, σ2, tr3. repeat split; try done.
  rewrite exec_app, H1. cbn [mbind option_bind exec]. by rewrite Hs1.
Qed.

Lemma resume_Wait_passes σ f c rest client :
  frames σ !! f = Some (in_Wait (c :: rest)) ->
  counter (nodes σ) c = Some 0 ->
  step (resume f client) σ =
    Some (mkSystem (nodes σ) (services σ) (<[f := in_Wait rest]> (frames σ))).
Proof.
  intros Hf Hc. simpl. rewrite Hf. simpl. unfold passes. rewrite Hc.
  by rewrite bool_decide_eq_true_2.
Qed.

Lemma resume_Wait_returns σ f client :
  frames σ !! f = Some (in_Wait []) ->
  step (resume f client) σ =
    Some (mkSystem (nodes σ) (services σ) (<[f := returned no_value]> (frames σ))).
Proof. intros Hf. simpl. by rewrite Hf. Qed.




(** The nodes above [p]: its parent, the parent of its parent, and so on. *)
Fixpoint ancestors (fuel : nat) (h : list routines) (p : ptr) : list ptr :=
  match fuel with
  | O => []
  | S k => match h !! p with
           | Some r => match parent r with
                       | Some q => q :: ancestors k h q
                       | None => []
                       end
           | None => []
           end
  end.

Definition strict_ancestors (w : world) (p : ptr) : list ptr :=
  ancestors (length (heap w)) (heap w) p.

(** A running goroutine still owes both its deferred calls. *)
Lemma running_owes h g r :
  goroutine_ok h g -> h !! g_owner g = Some r -> running g = true ->
  defers g = registered (parent r) (g_owner g).
Proof.
  intros (r' & Hr' & Hok) Hr Hrun. assert (r' = r) as -> by congruence.
  unfold running in Hrun.
  destruct (status g) as [[id|par child]|child|pn| |]; try done; by destruct Hok.
Qed.

(** With [R.waitgroup] at 0 no goroutine launched on [R] is running; with
    [R.children] at 0 none launched on a child of [R] is. *)
Lemma quiet_when_zero w g gr ro R :
  core_inv w -> pool w !! g = Some gr -> heap w !! g_owner gr = Some ro ->
  (g_owner gr = R /\ counter w (waitgroup_of R) = Some 0) \/
  (parent ro = Some R /\ counter w (children_of R) = Some 0) ->
  running gr = false.
Proof.
  intros Hcore Hg Hro Hzero.
  destruct (running gr) eqn:Hrun; [exfalso|done].
  pose proof (running_owes _ _ _ (goroutines_ok _ Hcore _ _ Hg) Hro Hrun) as Hd.
  destruct Hzero as [[<- Hc] | [Hpar Hc]]; simpl in Hc.
  - rewrite Hro in Hc. simpl in Hc. inversion Hc as [Hw].
    destruct (counters_exact _ Hcore _ _ Hro) as [Hex _].
    pose proof (owed_lookup (waitgroup_of (g_owner gr)) _ _ _ Hg) as Hle.
    rewrite Hd, owes_registered_waitgroup in Hle. case_decide; [lia|done].
  - destruct (heap w !! R) as [rR|] eqn:HR; simpl in Hc; [|done]. inversion Hc as [Hw].
    destruct (counters_exact _ Hcore _ _ HR) as [_ Hex].
    pose proof (owed_lookup (children_of R) _ _ _ Hg) as Hle.
    rewrite Hd, owes_registered_children in Hle. case_decide; [lia|done].
Qed.

(** [Wait] on [R] awaits the goroutines launched on [R] and on every node
    below [R]. *)
Definition Wait_awaits_all_below : Prop :=
  forall σ0 tr σ f R g gr gr',
    reachable σ0 ->
    frames σ0 !! f = Some (in_Wait (Wait (Some R))) ->
    pool (nodes σ0) !! g = Some gr ->
    g_owner gr = R \/ In R (strict_ancestors (nodes σ0) (g_owner gr)) ->
    exec tr σ0 = Some σ ->
    frames σ !! f = Some (returned no_value) ->
    pool (nodes σ) !! g = Some gr' ->
    running gr' = false.

(** A root, its child, the child of that child with a goroutine launched
    on it, and a call of [Wait] on the root. *)
Definition three_levels : list label :=
  [call_NewRoutines; call_Child (Some 0%nat); call_Child (Some 1%nat);
   call_Go (Some 2%nat) 7%nat; call_Wait (Some 0%nat)].

(** [Stop] on the root; the closure of the child forwards it and ends; the
    call of [Wait] takes its three steps. *)
Definition stop_root_and_wait : list label :=
  [call_Stop (Some 0%nat);
   run 0%nat true; run 0%nat true; run 0%nat true; run 0%nat true; run 0%nat true;
   resume 0%nat Panic; resume 0%nat Panic; resume 0%nat Panic].

(** C2, as stated, fails: [Wait] on the root returns while the goroutine
    launched on the grandchild is still running. *)
Lemma C2_Wait_misses_grandchildren : ~ Wait_awaits_all_below.
Proof.
  intros H.
  destruct (exec three_levels init) as [σ0|] eqn:H0; [|by vm_compute in H0].
  destruct (exec stop_root_and_wait σ0) as [σ|] eqn:H1;
    [|vm_compute in H0; inversion H0; subst; by vm_compute in H1].
  assert (Hr : reachable σ0) by by exists three_levels.
  vm_compute in H0. inversion H0; subst. clear H0.
  specialize (H _ stop_root_and_wait σ 0%nat 0%nat 2%nat _
                (mkGoroutine 2 (Calling (client_fn 7))
                   [defer_childrenDown (Some 1%nat); defer_waitgroup_Done 2%nat])
                Hr eq_refl eq_refl).
  vm_compute in H1. inversion H1; subst. clear H1.
  specialize (H (or_intror (or_intror (or_introl eq_refl))) eq_refl eq_refl eq_refl).
  done.
Qed.

(** When every goroutine launched on [R] or on a child of [R] has exited,
    both counters of [R] are 0. *)
Lemma counters_zero_when_exited w R rR :
  core_inv w -> heap w !! R = Some rR ->
  (forall g gr ro, pool w !! g = Some gr -> heap w !! g_owner gr = Some ro ->
     g_owner gr = R \/ parent ro = Some R -> status gr = Exited) ->
  waitgroup rR = 0 /\ children rR = 0.
Proof.
  intros Hcore HR Hex.
  destruct (counters_exact _ Hcore _ _ HR) as [-> ->].
  assert (Hz : forall c, c = waitgroup_of R \/ c = children_of R -> owed c (pool w) = 0).
  { intros c Hc. apply owed_zero. intros g gr Hg.
    pose proof (goroutines_ok _ Hcore _ _ Hg) as Hok.
    destruct (goroutine_ok_defers _ _ Hok) as (ro & Hro & Hd).
    assert (Hexit : g_owner gr = R \/ parent ro = Some R -> defers gr = []).
    { intros Hon. specialize (Hex _ _ _ Hg Hro Hon).
      destruct Hok as (r' & _ & Hok). by rewrite Hex in Hok. }
    destruct Hd as [Hd | [Hd | Hd]]; rewrite Hd; [| |done].
    - destruct Hc as [-> | ->].
      + rewrite owes_registered_waitgroup. case_decide as Hq; [|done].
        rewrite Hexit in Hd by auto. done.
      + rewrite owes_registered_children. case_decide as Hq; [|done].
        rewrite Hexit in Hd by auto. done.
    - destruct Hc as [-> | ->]; simpl; [|done].
      case_bool_decide as Hq; [|done]. rewrite Hexit in Hd by auto. done. }
  split; apply Hz; auto.
Qed.

(** C2, amended. A goroutine launched on [R], or on a child of [R], before
    [Wait] was called on [R] is not running any more once that call has
    returned; goroutines launched further down are not awaited.  And once
    every goroutine launched on [R] or on a child of [R] has exited, the
    call is not blocked: its three steps take it to its return. *)
Theorem C2_Wait_awaits_own_and_children (σ0 : system) (f : nat) (R : ptr) :
  reachable σ0 ->
  frames σ0 !! f = Some (in_Wait (Wait (Some R))) ->
  (forall tr σ g gr ro gr',
     pool (nodes σ0) !! g = Some gr ->
     heap (nodes σ0) !! g_owner gr = Some ro ->
     g_owner gr = R \/ parent ro = Some R ->
     exec tr σ0 = Some σ ->
     frames σ !! f = Some (returned no_value) ->
     pool (nodes σ) !! g = Some gr' ->
     running gr' = false) /\
  ((forall g gr ro,
      pool (nodes σ0) !! g = Some gr ->
      heap (nodes σ0) !! g_owner gr = Some ro ->
      g_owner gr = R \/ parent ro = Some R ->
      status gr = Exited) ->
   forall c, exists σ,
     exec [resume f c; resume f c; resume f c] σ0 = Some σ /\
     frames σ !! f = Some (returned no_value)).
Proof.
  intros Hreach Hf. pose proof (reachable_inv _ Hreach) as Hinv0. split.
  - intros tr σ g gr ro gr' Hg Hro Hon Hex Hret Hg'.
    destruct (Wait_moves _ _ _ _ _ Hf Hex Hret) as
      (tr1 & c1 & σ1 & tr2 & c2 & σ2 & tr3 & -> & _ & H1 & Hc1 & _ & H2 & _ & Hc2).
    (* the state [σq] in which the counter that covers [g] was 0 *)
    assert (Hq : exists trq σq trr, exec trq σ0 = Some σq /\ exec trr σq = Some σ /\
              ((g_owner gr = R /\ counter (nodes σq) (waitgroup_of R) = Some 0) \/
               (parent ro = Some R /\ counter (nodes σq) (children_of R) = Some 0))).
    { destruct Hon as [Ho | Hp].
      - exists (tr1 ++ resume f c1 :: tr2), σ2, (resume f c2 :: tr3).
        split; [done|]. split; [|by left].
        replace (tr1 ++ resume f c1 :: tr2 ++ resume f c2 :: tr3)
          with ((tr1 ++ resume f c1 :: tr2) ++ resume f c2 :: tr3) in Hex
          by by rewrite <- app_assoc.
        rewrite exec_app, H2 in Hex. done.
      - exists tr1, σ1, (resume f c1 :: tr2 ++ resume f c2 :: tr3).
        split; [done|]. split; [|by right].
        rewrite exec_app, H1 in Hex. done. }
    destruct Hq as (trq & σq & trr & Hq1 & Hq2 & Hzero).
    pose proof (sys_inv_exec _ _ _ Hinv0 Hq1) as Hinvq.
    destruct (exec_goroutine_ages _ _ _ _ _ Hinv0 Hq1 Hg) as (grq & Hgq & Hoq & _).
    destruct (exec_persists _ _ _ Hinv0 Hq1 _ _ Hro) as (roq & Hroq & Hpq & _).
    assert (Hquiet : running grq = false).
    { eapply (quiet_when_zero (nodes σq) g grq roq R).
      - apply Hinvq.
      - done.
      - by rewrite Hoq.
      - rewrite Hoq, Hpq. done. }
    destruct (exec_goroutine_ages _ _ _ _ _ Hinvq Hq2 Hgq) as (gr'' & Hg'' & _ & Hr'').
    assert (gr'' = gr') as -> by congruence. auto.
  - intros Hexited c.
    pose proof (sys_frames _ Hinv0 _ _ Hf) as Hok. simpl in Hok.
    inversion Hok as [|? ? HR _]; subst. simpl in HR.
    destruct (lookup_lt_is_Some_2 _ _ HR) as [rR HrR].
    destruct (counters_zero_when_exited (nodes σ0) R rR) as [Hw Hc];
      [apply Hinv0|done|done|].
    eexists. split.
    + cbn [exec]. rewrite (resume_Wait_passes _ _ _ _ _ Hf)
        by (simpl; rewrite HrR; simpl; by rewrite Hc).
      cbn [mbind option_bind].
      rewrite (resume_Wait_passes _ f (waitgroup_of R) []).
      2: { simpl. apply list_lookup_insert_eq. by eapply lookup_lt_Some. }
      2: { simpl. rewrite HrR. simpl. by rewrite Hw. }
      cbn [mbind option_bind].
      rewrite resume_Wait_returns.
      2: { simpl. apply list_lookup_insert_eq. rewrite length_insert.
           by eapply lookup_lt_Some. }
      done.
    + simpl. apply list_lookup_insert_eq. rewrite !length_insert.
      by eapply lookup_lt_Some.
Qed.

(** ** Go *)

(** A goroutine past [fn] runs its next deferred call. *)
Lemma run_deferred_step σ g gr pn d ds b :
  sys_inv σ -> pool (nodes σ) !! g = Some gr ->
  status gr = Unwinding pn -> defers gr = d :: ds ->
  step (run g b) σ =
    Some (with_nodes σ
            (mkWorld (after_deferred d (heap (nodes σ)))
                     (<[g := mkGoroutine (g_owner gr) (Unwinding pn) ds]> (pool (nodes σ))))).
Proof.
  intros Hinv Hg Hst Hd. pose proof (sys_nodes _ Hinv) as [Hcore _].
  destruct (core_deferred _ _ _ _ _ pn pn Hcore Hg Hst Hd) as [Hrun _].
  unfold step. rewrite Hg. cbn [mbind option_bind].
  unfold step_goroutine. rewrite Hst, Hd, Hrun. done.
Qed.

(** A function of the caller ends, one way or the other. *)
Lemma run_client_ends σ g gr id b :
  pool (nodes σ) !! g = Some gr -> status gr = Calling (client_fn id) ->
  step (run g b) σ =
    Some (with_nodes σ
            (mkWorld (heap (nodes σ))
                     (<[g := set_status gr (Unwinding (negb b))]> (pool (nodes σ))))).
Proof.
  intros Hg Hst. unfold step. rewrite Hg. cbn [mbind option_bind].
  unfold step_goroutine. by rewrite Hst.
Qed.

(** [Go] increments the [children] counter of every node above [me]. *)
Definition Go_counts_on_every_ancestor : Prop :=
  forall σ p a id ra ra',
    reachable σ ->
    In a (strict_ancestors (nodes σ) p) ->
    heap (nodes σ) !! a = Some ra ->
    heap (Go (Some p) (client_fn id) (nodes σ)).2 !! a = Some ra' ->
    children ra' = children ra + 1.

(** C1, as stated, fails: [Go] on the child of a child leaves the
    [children] counter of the root as it was. *)
Lemma C1_Go_skips_the_grandparent : ~ Go_counts_on_every_ancestor.
Proof.
  intros H.
  pose (tr := [call_NewRoutines; call_Child (Some 0%nat); call_Child (Some 1%nat)]).
  destruct (exec tr init) as [σ|] eqn:H0; [|by vm_compute in H0].
  assert (Hr : reachable σ) by by exists tr.
  vm_compute in H0. inversion H0; subst. clear H0.
  specialize (H _ 2%nat 0%nat 0%nat (mkRoutines false 0 None 1) (mkRoutines false 0 None 1)
                Hr (or_intror (or_introl eq_refl)) eq_refl eq_refl).
  done.
Qed.

Lemma Go_returns w p r fn w' :
  heap w !! p = Some r -> Go (Some p) fn w = (Ok tt, w') ->
  points_in (heap w) (parent r) = true.
Proof.
  intros Hp Hgo. destruct (parent r) as [q|] eqn:Hq; [|done].
  apply bool_decide_eq_true. destruct (decide (q < length (heap w))%nat); [done|].
  exfalso. unfold Go, bind at 1 in Hgo. rewrite (waitgroup_Add_spec _ _ _ Hp) in Hgo.
  unfold bind at 1, load at 1 in Hgo. simpl heap in Hgo.
  rewrite list_lookup_alter_eq, Hp in Hgo. simpl in Hgo. rewrite Hq in Hgo.
  unfold bind at 1, childrenUp, children_Add, bind at 1, load in Hgo. simpl heap in Hgo.
  rewrite (proj2 (lookup_ge_None _ _)) in Hgo by (rewrite length_alter; lia).
  done.
Qed.

(** A deferred call that returns has decremented its counter, and nothing
    else. *)
Lemma run_deferred_Ok d w w' :
  run_deferred d w = (Ok tt, w') ->
  heap w' = after_deferred d (heap w) /\ pool w' = pool w.
Proof.
  destruct d as [p|[q|]]; cbn [run_deferred childrenDown after_deferred on_parent].
  - unfold waitgroup_Done, bind, load, store.
    destruct (heap w !! p) as [r|] eqn:Hp; [|done]. cbn.
    case_decide; [done|]. intros [= <-]. cbn.
    by rewrite <- (insert_as_alter (add_waitgroup (-1)) _ _ _ Hp).
  - unfold children_Done, bind, load, store.
    destruct (heap w !! q) as [r|] eqn:Hq; [|done]. cbn.
    case_decide; [done|]. intros [= <-]. cbn.
    by rewrite <- (insert_as_alter (add_children (-1)) _ _ _ Hq).
  - by intros [= <-].
Qed.

(** C1, amended. [p] is a node.
    - A call of [Go] on [p] that returns has added 1 to [p.waitgroup] and,
      when [p] has a parent, 1 to the [children] counter of that parent; it
      has changed no other counter, those of the nodes further up included;
      and it has added one goroutine to the pool, with the two deferred
      calls registered.
    - When the function of such a goroutine ends, by returning or by
      panicking, the goroutine goes on to its deferred calls, which are
      still the two that [Go] registered.
    - Neither deferred call is ever blocked.  The first,
      [me.parent.childrenDown()], when it returns, has subtracted 1 from the
      [children] counter of the parent and from nothing else; the second,
      [me.waitgroup.Done()], when it returns, has subtracted 1 from
      [p.waitgroup] and from nothing else, and the goroutine has no deferred
      call left. *)
Theorem C1_Go_counts_on_me_and_parent (σ : system) (p : ptr) (r : routines) :
  heap (nodes σ) !! p = Some r ->
  (forall fn w',
     Go (Some p) fn (nodes σ) = (Ok tt, w') ->
     (forall n rn, heap (nodes σ) !! n = Some rn ->
        exists rn', heap w' !! n = Some rn' /\
          waitgroup rn' = waitgroup rn + (if decide (n = p) then 1 else 0) /\
          children rn' = children rn + (if decide (parent r = Some n) then 1 else 0)) /\
     pool w' = pool (nodes σ) ++ [mkGoroutine p (Calling fn) (registered (parent r) p)]) /\
  (reachable σ ->
   forall g gr id b,
     pool (nodes σ) !! g = Some gr -> g_owner gr = p ->
     status gr = Calling (client_fn id) ->
     defers gr = registered (parent r) p /\
     step (run g b) σ =
       Some (with_nodes σ
               (mkWorld (heap (nodes σ))
                  (<[g := mkGoroutine p (Unwinding (negb b)) (registered (parent r) p)]>
                     (pool (nodes σ)))))) /\
  (forall g gr pn b,
     pool (nodes σ) !! g = Some gr -> g_owner gr = p ->
     status gr = Unwinding pn -> defers gr = registered (parent r) p ->
     is_Some (step (run g b) σ) /\
     forall w', childrenDown (parent r) (nodes σ) = (Ok tt, w') ->
       step (run g b) σ =
         Some (with_nodes σ
                 (mkWorld (heap w')
                    (<[g := mkGoroutine p (Unwinding pn) [defer_waitgroup_Done p]]>
                       (pool (nodes σ))))) /\
       forall n rn, heap (nodes σ) !! n = Some rn ->
         exists rn', heap w' !! n = Some rn' /\
           waitgroup rn' = waitgroup rn /\
           children rn' = children rn - (if decide (parent r = Some n) then 1 else 0)) /\
  (forall g gr pn b,
     pool (nodes σ) !! g = Some gr -> g_owner gr = p ->
     status gr = Unwinding pn -> defers gr = [defer_waitgroup_Done p] ->
     is_Some (step (run g b) σ) /\
     forall w', waitgroup_Done p (nodes σ) = (Ok tt, w') ->
       step (run g b) σ =
         Some (with_nodes σ
                 (mkWorld (heap w')
                    (<[g := mkGoroutine p (Unwinding pn) []]> (pool (nodes σ))))) /\
       forall n rn, heap (nodes σ) !! n = Some rn ->
         exists rn', heap w' !! n = Some rn' /\
           waitgroup rn' = waitgroup rn - (if decide (n = p) then 1 else 0) /\
           children rn' = children rn).
Proof.
  intros Hp. split; [|split; [|split]].
  - intros fn w' Hgo. pose proof (Go_returns _ _ _ _ _ Hp Hgo) as Hpar.
    rewrite (Go_spec _ _ _ _ Hp Hpar) in Hgo. inversion Hgo; subst w'. clear Hgo.
    simpl. split; [|done].
    intros n rn Hn. rewrite lookup_on_parent, list_lookup_alter, Hn.
    repeat case_decide; subst; try congruence; rewrite ?Hp, ?Hn; simpl;
      try (assert (rn = r) as -> by congruence);
      eexists; (split; [reflexivity|]); simpl; split; lia.
  - intros Hreach g gr id b Hg Ho Hst. subst p.
    pose proof (reachable_inv _ Hreach) as Hinv.
    pose proof (sys_nodes _ Hinv) as [Hcore _].
    assert (Hd : defers gr = registered (parent r) (g_owner gr)).
    { eapply running_owes; [by eapply goroutines_ok|done|].
      unfold running. by rewrite Hst. }
    split; [done|]. rewrite (run_client_ends σ g gr id b Hg Hst).
    unfold set_status. by rewrite Hd.
  - intros g gr pn b Hg Ho Hst Hd. unfold step. rewrite Hg. cbn [mbind option_bind].
    unfold step_goroutine. rewrite Hst, Hd. cbn [registered run_deferred].
    split. { destruct (childrenDown (parent r) (nodes σ)) as [[[]|] w1]; by eexists. }
    intros w' Hrun. rewrite Hrun. cbn [mbind option_bind].
    destruct (run_deferred_Ok (defer_childrenDown (parent r)) _ _ Hrun) as [Hh Hpl].
    rewrite Hpl, Ho. split; [done|].
    intros n rn Hn. rewrite Hh. cbn [after_deferred].
    rewrite lookup_on_parent, Hn. simpl. eexists. split; [reflexivity|].
    case_decide; simpl; split; lia.
  - intros g gr pn b Hg Ho Hst Hd. unfold step. rewrite Hg. cbn [mbind option_bind].
    unfold step_goroutine. rewrite Hst, Hd. cbn [run_deferred].
    split. { destruct (waitgroup_Done p (nodes σ)) as [[[]|] w1]; by eexists. }
    intros w' Hrun. rewrite Hrun. cbn [mbind option_bind].
    destruct (run_deferred_Ok (defer_waitgroup_Done p) _ _ Hrun) as [Hh Hpl].
    rewrite Hpl, Ho. split; [done|].
    intros n rn Hn. rewrite Hh. cbn [after_deferred].
    rewrite list_lookup_alter. case_decide; subst; rewrite Hn; simpl;
      (eexists; split; [reflexivity|]); case_decide; simpl; try congruence; split; lia.
Qed.

(** ** Worked schedules *)

(** The system a schedule leaves, run from the empty one. *)
Definition after (tr : list label) : system := default init (exec tr init).

Lemma after_reachable tr : is_Some (exec tr init) -> reachable (after tr).
Proof. intros [σ H]. exists tr. unfold after. by rewrite H. Qed.




(** A root, its child, a goroutine launched on the child, and a call of
    [Wait] on the root. *)
Definition root_child_task : list label :=
  [call_NewRoutines; call_Child (Some 0%nat); call_Go (Some 1%nat) 7%nat;
   call_Wait (Some 0%nat)].

(** [Stop] on the root; the closure of the child forwards it and ends; the
    goroutine on the child ends; the call of [Wait] takes its three steps. *)
Definition stop_drain_wait : list label :=
  [call_Stop (Some 0%nat);
   run 0%nat true; run 0%nat true; run 0%nat true; run 0%nat true; run 0%nat true;
   run 1%nat true; run 1%nat true; run 1%nat true; run 1%nat true;
   resume 0%nat Panic; resume 0%nat Panic; resume 0%nat Panic].

Lemma C2_witness :
  (forall gr', pool (nodes (after (root_child_task ++ stop_drain_wait))) !! 1%nat = Some gr' ->
     running gr' = false) /\
  exists σ,
    exec [resume 0%nat Panic; resume 0%nat Panic; resume 0%nat Panic]
      (after [call_NewRoutines; call_Wait (Some 0%nat)]) = Some σ /\
    frames σ !! 0%nat = Some (returned no_value).
Proof.
  split.
  - intros gr' Hg'.
    destruct (C2_Wait_awaits_own_and_children (after root_child_task) 0%nat 0%nat)
      as [Hsafe _]; [by apply after_reachable|reflexivity|].
    eapply (Hsafe stop_drain_wait (after (root_child_task ++ stop_drain_wait)) 1%nat);
      [reflexivity|reflexivity|by right|reflexivity|reflexivity|exact Hg'].
  - destruct (C2_Wait_awaits_own_and_children
                (after [call_NewRoutines; call_Wait (Some 0%nat)]) 0%nat 0%nat)
      as [_ Hlive]; [by apply after_reachable|reflexivity|].
    apply Hlive. intros [|g] gr ro Hg; [|destruct g]; discriminate Hg.
Defined.

(** A root, its child, and a goroutine launched on the child: [Go] on the
    child, which returns, and the end of the goroutine launched before. *)
Definition child_with_task : list label :=
  [call_NewRoutines; call_Child (Some 0%nat); call_Go (Some 1%nat) 7%nat].

Lemma C1_witness :
  pool (Go (Some 1%nat) (client_fn 8) (nodes (after child_with_task))).2 =
    pool (nodes (after child_with_task))
      ++ [mkGoroutine 1%nat (Calling (client_fn 8)) (registered (Some 0%nat) 1%nat)] /\
  is_Some (step (run 1%nat false) (after child_with_task)).
Proof.
  destruct (C1_Go_counts_on_me_and_parent (after child_with_task) 1%nat
              (mkRoutines false 2 (Some 0%nat) 0) eq_refl)
    as (Hgo & Hend & _).
  split.
  - by destruct (Hgo (client_fn 8)
                   (Go (Some 1%nat) (client_fn 8) (nodes (after child_with_task))).2
                   eq_refl) as [_ Hpool].
  - destruct (Hend (after_reachable child_with_task ltac:(by eexists))
                1%nat _ 7%nat false eq_refl eq_refl eq_refl) as [_ Hs].
    rewrite Hs. by eexists.
Defined.

(** ** service *)

Lemma insert_snoc_twice {A} (l : list A) (x y z : A) :
  <[length l := z]> (<[length l := y]> (l ++ [x])) = l ++ [z].
Proof. by rewrite !insert_snoc. Qed.

(** C10. [Stop] on a nil [*service] returns at once, without a value and
    without touching the system; no step of a call of [Stop], on whatever
    service, returns an error.  [Start] on a nil [*service] returns
    [NilReceiver] at once. *)
Theorem C10_Stop_on_nil_service_is_silent (σ : system) (r : Routines) :
  service_Stop None = returned no_value /\
  step (call_service_Stop None) σ = Some (push_frame σ (returned no_value)) /\
  (forall client s pc σ' f1 σ1 err,
     step_frame client (in_Stop s pc) σ' = Some (f1, σ1) ->
     f1 <> returned (an_error err)) /\
  Start None r = returned (an_error (Some NilReceiver)) /\
  step (call_Start None r) σ =
    if holds_in (heap (nodes σ)) r
    then Some (push_frame σ (returned (an_error (Some NilReceiver)))) else None.
Proof.
  repeat split.
  intros client s pc σ' f1 σ1 err Hstep. simpl in Hstep.
  destruct (services σ' !! s) as [sv|]; simpl in Hstep; [|done].
  destruct pc as [| | |[|c rest]];
    repeat match type of Hstep with
           | context [if ?b then _ else _] => destruct b
           | context [via ?r Stop ?w] => destruct (via r Stop w) as [[[]|] ?]
           | context [via_Wait ?r] => destruct (via_Wait r)
           end; inversion Hstep; subst; done.
Qed.

Lemma call_Start_step σ s sv r :
  services σ !! s = Some sv -> holds_in (heap (nodes σ)) r = true ->
  step (call_Start (Some s) r) σ = Some (push_frame σ (in_Start s r start_Lock)).
Proof.
  intros Hsv Hr. unfold step, points_in.
  rewrite bool_decide_eq_true_2 by by eapply lookup_lt_Some. by rewrite Hr.
Qed.

Lemma resume_step σ f f0 c f1 σ1 :
  frames σ !! f = Some f0 -> step_frame c f0 σ = Some (f1, σ1) ->
  step (resume f c) σ = Some (mkSystem (nodes σ1) (services σ1) (<[f := f1]> (frames σ1))).
Proof. intros Hf Hs. unfold step. rewrite Hf. cbn [mbind option_bind]. by rewrite Hs. Qed.

Lemma Start_takes_mutex σ s r sv c :
  services σ !! s = Some sv -> mut sv = false ->
  step_frame c (in_Start s r start_Lock) σ =
    Some (in_Start s r start_check,
          mkSystem (nodes σ) (<[s := set_mut sv true]> (services σ)) (frames σ)).
Proof. intros Hsv Hm. cbn [step_frame]. rewrite Hsv. cbn [mbind option_bind]. by rewrite Hm. Qed.

Lemma Start_already_started σ s r sv c :
  services σ !! s = Some sv -> is_nil (s_routines sv) = false ->
  step_frame c (in_Start s r start_check) σ =
    Some (returned (an_error (Some AlreadyStarted)),
          mkSystem (nodes σ) (<[s := set_mut sv false]> (services σ)) (frames σ)).
Proof. intros Hsv Hn. cbn [step_frame]. rewrite Hsv. cbn [mbind option_bind]. by rewrite Hn. Qed.

(** C7. [Start] on a service whose [routines] field is not nil, with the
    mutex free: the call takes the mutex, returns [AlreadyStarted] and gives
    the mutex back; the system it leaves is the one it found, with nothing
    more than the returned call.  No node is made, no goroutine launched,
    the start routine is not called (the result does not depend on what it
    would return), and [routines] is what it was.  Whenever a call of
    [Start] reaches the test with [routines] not nil it leaves this way. *)
Theorem C7_Start_on_running_service (σ : system) (s : sptr) (sv : service)
    (r : Routines) (c1 c2 : outcome (option error)) :
  services σ !! s = Some sv ->
  is_nil (s_routines sv) = false ->
  mut sv = false ->
  holds_in (heap (nodes σ)) r = true ->
  exec [call_Start (Some s) r; resume (length (frames σ)) c1;
        resume (length (frames σ)) c2] σ
    = Some (push_frame σ (returned (an_error (Some AlreadyStarted)))) /\
  (forall σ' f sv' c,
     frames σ' !! f = Some (in_Start s r start_check) ->
     services σ' !! s = Some sv' ->
     is_nil (s_routines sv') = false ->
     step (resume f c) σ' =
       Some (mkSystem (nodes σ') (<[s := set_mut sv' false]> (services σ'))
               (<[f := returned (an_error (Some AlreadyStarted))]> (frames σ')))).
Proof.
  intros Hsv Hrun Hm Hr. split.
  - pose proof (lookup_lt_Some _ _ _ Hsv) as Hlt.
    assert (H1 : step (resume (length (frames σ)) c1)
                   (push_frame σ (in_Start s r start_Lock)) =
                 Some (mkSystem (nodes σ) (<[s := set_mut sv true]> (services σ))
                         (frames σ ++ [in_Start s r start_check]))).
    { erewrite resume_step; [|apply lookup_snoc|by apply Start_takes_mutex].
      cbn [nodes services frames push_frame]. by rewrite insert_snoc. }
    assert (H2 : step (resume (length (frames σ)) c2)
                   (mkSystem (nodes σ) (<[s := set_mut sv true]> (services σ))
                      (frames σ ++ [in_Start s r start_check])) =
                 Some (push_frame σ (returned (an_error (Some AlreadyStarted))))).
    { erewrite resume_step;
        [|apply lookup_snoc
         |apply Start_already_started; [by apply list_lookup_insert_eq|done]].
      cbn [nodes services frames]. unfold push_frame.
      rewrite insert_snoc, list_insert_insert_eq. do 2 f_equal.
      apply list_insert_id. rewrite Hsv. f_equal. destruct sv; simpl in *. by subst. }
    cbn [exec]. rewrite (call_Start_step _ _ _ _ Hsv Hr). cbn [mbind option_bind].
    rewrite H1. cbn [mbind option_bind]. by rewrite H2.
  - intros σ' f sv' c Hf Hsv' Hrun'.
    by rewrite (resume_step _ _ _ c _ _ Hf (Start_already_started _ _ _ _ _ Hsv' Hrun')).
Qed.

(** ** Propagation of Stop *)

Lemma lookup_closed_on me (h : list routines) c r :
  h !! c = Some r ->
  exists r', on_parent closed me h !! c = Some r' /\ parent r' = parent r /\
             (doneCh r' = doneCh r \/ me = Some c).
Proof.
  intros Hc. rewrite lookup_on_parent, Hc. simpl. eexists. split; [done|].
  case_decide; simpl; auto.
Qed.

(** After a step a node has the channel state it had, unless the step is a
    call of [Stop] on the node itself or the node has a parent. *)
Lemma step_closes l σ σ' c r :
  sys_inv σ -> step l σ = Some σ' -> heap (nodes σ) !! c = Some r ->
  exists r', heap (nodes σ') !! c = Some r' /\ parent r' = parent r /\
    (doneCh r' = doneCh r \/ l = call_Stop (Some c) \/ parent r <> None).
Proof.
  intros Hinv Hstep Hc. pose proof (sys_nodes _ Hinv) as [Hcore _].
  pose proof (lookup_lt_Some _ _ _ Hc) as Hlt.
  assert (Hvia : forall x, active_ok (heap (nodes σ)) x \/ x = of_ptr None ->
            exists r', heap (via x Stop (nodes σ)).2 !! c = Some r' /\
              parent r' = parent r /\ (doneCh r' = doneCh r \/ parent r <> None)).
  { intros [|me] Hx; [by exists r; auto|]. unfold via. rewrite Stop_spec. simpl.
    destruct (lookup_closed_on me _ _ _ Hc) as (r' & Hr' & Hp' & [Hd | ->]); [by eauto|].
    exists r'. split; [done|]. split; [done|]. right.
    destruct Hx as [(rc & Hrc & Hpar) | [=]]. congruence. }
  destruct l as [|me|me id|me|me|st|me x|me|g b|f client]; simpl in Hstep.
  - inversion Hstep; subst. simpl. exists r. split; [by apply lookup_app_l_Some|auto].
  - destruct (points_in _ me) eqn:Hme; inversion Hstep; subst. simpl.
    destruct me as [p|]; [|by exists r; auto].
    unfold points_in in Hme. apply bool_decide_eq_true in Hme.
    rewrite (Child_spec _ _ Hme). simpl.
    rewrite lookup_app_l by by rewrite length_alter.
    rewrite list_lookup_alter, Hc. case_decide; subst; rewrite ?Hc; simpl; eauto.
  - destruct (points_in _ me) eqn:Hme; inversion Hstep; subst. simpl.
    destruct me as [p|]; [|by exists r; auto].
    unfold points_in in Hme. apply bool_decide_eq_true in Hme.
    destruct (lookup_lt_is_Some_2 _ _ Hme) as [rp Hrp].
    rewrite (Go_spec _ _ _ _ Hrp) by by eapply parent_points_in. simpl.
    rewrite lookup_on_parent, list_lookup_alter, Hc.
    repeat case_decide; subst; rewrite ?Hc; simpl; eauto.
  - destruct (points_in _ me); inversion Hstep; subst. cbn [with_nodes nodes].
    rewrite Stop_spec. simpl.
    destruct (lookup_closed_on me _ _ _ Hc) as (r' & Hr' & Hp' & [Hd | ->]); eauto 10.
  - destruct (points_in _ me); inversion Hstep; subst. simpl. eauto.
  - inversion Hstep; subst. simpl. eauto.
  - destruct (points_in _ me && holds_in _ x); inversion Hstep; subst. simpl. eauto.
  - destruct (points_in _ me); inversion Hstep; subst. simpl. eauto.
  - destruct (pool (nodes σ) !! g) as [g0|] eqn:Hg; simpl in Hstep; [|done].
    destruct (step_goroutine b g0 (nodes σ)) as [[g1 w1]|] eqn:Hs;
      inversion Hstep; subst. simpl.
    destruct (goroutines_ok _ Hcore _ _ Hg) as (ro & Hro & Hok).
    destruct (step_goroutine_cases _ _ _ _ _ _ Hcore Hg Hs) as
      [id Hst | p Hst Hrdy | p Hst Hrdy | Hst | pn d ds Hst Hd | pn Hst Hd];
      simpl; eauto.
    + destruct (lookup_closed_on (Some (g_owner g0)) _ _ _ Hc)
        as (r' & Hr' & Hp' & [Hd | [= <-]]); [by eauto|].
      exists r'. split; [done|]. split; [done|]. right. right.
      rewrite Hst in Hok. destruct Hok as (_ & Hne & _). congruence.
    + destruct d as [q|par]; simpl.
      * rewrite list_lookup_alter, Hc. case_decide; subst; rewrite ?Hc; simpl; eauto.
      * rewrite lookup_on_parent, Hc. simpl. case_decide; simpl; eauto.
  - destruct (frames σ !! f) as [f0|] eqn:Hf; simpl in Hstep; [|done].
    destruct (step_frame client f0 σ) as [[f1 σ1]|] eqn:Hs; inversion Hstep; subst.
    simpl. pose proof (sys_frames _ Hinv _ _ Hf) as Hok.
    apply step_frame_effect in Hs as
      [_ [-> | [(s & x & -> & ->) | [(s & x & ch & e & -> & ->) | (s & sv & -> & Hsv & ->)]]]].
    + eauto.
    + destruct Hok as (sv & _ & Hx & _).
      destruct x as [|[p|]]; simpl; [by eauto| |by eauto].
      simpl in Hx. apply bool_decide_eq_true in Hx.
      change (Child (Some p) (nodes σ)) with (Child (Some p) (nodes σ)).
      pose proof (Child_spec (nodes σ) p Hx) as Hch. unfold Child in Hch.
      rewrite Hch. simpl.
      rewrite lookup_app_l by by rewrite length_alter.
      rewrite list_lookup_alter, Hc. case_decide; subst; rewrite ?Hc; simpl; eauto.
    + destruct Hok as (sv & _ & _ & _ & _ & Hmade & _).
      destruct (Hvia ch) as (r' & Hr' & Hp' & Hd');
        [|exists r'; split; [done|]; split; [done|]; destruct Hd'; auto].
      destruct x as [|[p|]]; simpl in Hmade; [done| |subst; left; exact I].
      destruct Hmade as (c' & rc & -> & Hrc & Hpar). left. simpl.
      exists rc. split; [done|]. congruence.
    + destruct (Hvia (s_routines sv)) as (r' & Hr' & Hp' & Hd');
        [|exists r'; split; [done|]; split; [done|]; destruct Hd'; auto].
      left. by apply (sys_services _ Hinv _ _ Hsv).
Qed.

(** A root is stopped by a call of [Stop] on it and by nothing else. *)
Lemma root_stays tr σ σ' R rR :
  sys_inv σ -> exec tr σ = Some σ' ->
  heap (nodes σ) !! R = Some rR -> parent rR = None ->
  ~ In (call_Stop (Some R)) tr ->
  chan_ready (nodes σ') (Some R) = chan_ready (nodes σ) (Some R).
Proof.
  revert σ rR. induction tr as [|l tr IH]; intros σ rR Hinv Hex HR Hroot Hnot;
    simpl in Hex.
  - by inversion Hex; subst.
  - destruct (step l σ) as [σ1|] eqn:Hs; simpl in Hex; [|done].
    destruct (step_closes _ _ _ _ _ Hinv Hs HR) as (r1 & Hr1 & Hp1 & Hd1).
    rewrite (IH σ1 r1); [| by eapply sys_inv_step |done|done|congruence|].
    + simpl. rewrite Hr1, HR. destruct Hd1 as [Hd | [-> | Hd]]; [done| |done].
      exfalso. apply Hnot. by left.
    + intros Hin. apply Hnot. by right.
Qed.

Lemma chan_ready_persists h h' pl pl' c :
  persists h h' ->
  chan_ready (mkWorld h pl) c = true -> chan_ready (mkWorld h' pl') c = true.
Proof.
  intros Hp. destruct c as [p|]; simpl; [|done].
  destruct (h !! p) as [r|] eqn:Hr; [|done]. intros Hd.
  destruct (Hp _ _ Hr) as (r' & -> & _ & Hd'). auto.
Qed.

Lemma chan_ready_step l σ σ' c :
  sys_inv σ -> step l σ = Some σ' ->
  chan_ready (nodes σ) c = true -> chan_ready (nodes σ') c = true.
Proof.
  intros Hinv Hs. pose proof (step_persists _ _ _ Hinv Hs) as Hp.
  destruct (nodes σ), (nodes σ'). by apply chan_ready_persists.
Qed.

Definition is_run (g : nat) (l : label) : bool :=
  match l with
  | run g' _ => bool_decide (g' = g)
  | _ => false
  end.

(** The steps goroutine [g] takes in a schedule. *)
Fixpoint runs_of (g : nat) (tr : list label) : nat :=
  match tr with
  | [] => O
  | l :: tr' => ((if is_run g l then 1 else 0) + runs_of g tr')%nat
  end.

(** Is goroutine [g] between the [select] and [child.Stop()]? *)
Definition forwarding (σ : system) (g : nat) : bool :=
  match pool (nodes σ) !! g with
  | Some gr => match status gr with
               | Forwarding _ => true
               | _ => false
               end
  | None => false
  end.

(** The steps goroutine [g] has to take at most before the channel of [C]
    is closed. *)
Definition distance (σ : system) (g : nat) (C : ptr) : nat :=
  if chan_ready (nodes σ) (Some C) then 0%nat
  else if forwarding σ g then 1%nat else 2%nat.

Lemma distance_at_most_2 σ g C : (distance σ g C <= 2)%nat.
Proof.
  unfold distance. destruct (chan_ready (nodes σ) (Some C)); [lia|].
  destruct (forwarding σ g); lia.
Qed.

(** [R] is stopped, and its child [C] is stopped too or goroutine [g] is
    the closure that forwards to it. *)
Definition carries (σ : system) (g : nat) (R C : ptr) : Prop :=
  sys_inv σ /\ chan_ready (nodes σ) (Some R) = true /\
  (chan_ready (nodes σ) (Some C) = true \/
   exists gr, pool (nodes σ) !! g = Some gr /\ g_owner gr = C /\
              propagating R C (status gr)).

Lemma carries_step l σ σ' g R C :
  carries σ g R C -> step l σ = Some σ' ->
  carries σ' g R C /\
  (distance σ' g C <= distance σ g C - (if is_run g l then 1 else 0))%nat.
Proof.
  intros (Hinv & HR & HC) Hs.
  pose proof (sys_inv_step _ _ _ Hinv Hs) as Hinv'.
  pose proof (chan_ready_step _ _ _ _ Hinv Hs HR) as HR'.
  destruct HC as [HC | (gr & Hg & Ho & Hst)].
  { pose proof (chan_ready_step _ _ _ _ Hinv Hs HC) as HC'.
    split; [by split; [|split; [|left]]|]. unfold distance. rewrite HC'. lia. }
  destruct (chan_ready (nodes σ) (Some C)) eqn:HC.
  { pose proof (chan_ready_step _ _ _ _ Hinv Hs HC) as HC'.
    split; [by split; [|split; [|left]]|]. unfold distance. rewrite HC'. lia. }
  destruct (is_run_of l g) as [[b ->]|Hne].
  - pose proof (sys_nodes _ Hinv) as [Hcore _].
    simpl is_run. rewrite bool_decide_eq_true_2 by done.
    simpl in Hs. rewrite Hg in Hs. simpl in Hs.
    destruct (step_goroutine b gr (nodes σ)) as [[g1 w1]|] eqn:Hsg;
      inversion Hs; subst σ'. clear Hs.
    pose proof (lookup_lt_Some _ _ _ Hg) as Hlt.
    destruct (step_goroutine_cases _ _ _ _ _ _ Hcore Hg Hsg) as
      [id Hst' | p Hst' Hrdy | p Hst' Hrdy | Hst' | pn d ds Hst' Hd | pn Hst' Hd];
      try (destruct Hst as [Hst | Hst]; congruence).
    (* the child case of the select needs the child stopped already *)
    + (* the parent case of the select *)
      split.
      * split; [done|]. split; [done|]. right. exists (set_status gr (Forwarding (of_ptr (Some (g_owner gr))))).
        split; [simpl; by apply list_lookup_insert_eq|]. split; [done|].
        right. simpl. by subst C.
      * unfold distance, forwarding. simpl in *. rewrite HC.
        rewrite list_lookup_insert_eq by done. simpl.
        rewrite Hg. rewrite Hst'. lia.
    + (* child.Stop() *)
      assert (HC' : chan_ready (mkWorld (on_parent closed (Some (g_owner gr)) (heap (nodes σ)))
                                  (<[g := set_status gr (Unwinding false)]> (pool (nodes σ))))
                      (Some C) = true).
      { subst C. simpl. rewrite list_lookup_alter_eq.
        destruct (goroutines_ok _ Hcore _ _ Hg) as (ro & Hro & _). by rewrite Hro. }
      split; [by split; [|split; [|left]]|].
      unfold distance. cbn [nodes with_nodes heap pool]. rewrite HC'. lia.
  - pose proof (step_other_goroutine _ _ _ _ _ Hinv Hs Hg Hne) as Hg'.
    split; [split; [done|]; split; [done|]; right; by eauto|].
    assert (is_run g l = false) as ->.
    { destruct l; try done. simpl. apply bool_decide_eq_false. intros ->. by eapply Hne. }
    unfold distance, forwarding. rewrite HC, Hg, Hg'.
    destruct (chan_ready (nodes σ') (Some C)); [lia|].
    destruct (status gr); lia.
Qed.

Lemma carries_exec tr σ σ' g R C :
  carries σ g R C -> exec tr σ = Some σ' ->
  carries σ' g R C /\ (distance σ' g C <= distance σ g C - runs_of g tr)%nat.
Proof.
  revert σ. induction tr as [|l tr IH]; intros σ Hc Hex; simpl in Hex.
  - inversion Hex; subst. split; [done|]. simpl. lia.
  - destruct (step l σ) as [σ1|] eqn:Hs; simpl in Hex; [|done].
    destruct (carries_step _ _ _ _ _ _ Hc Hs) as [Hc1 Hd1].
    destruct (IH _ Hc1 Hex) as [Hc' Hd']. split; [done|]. simpl. lia.
Qed.

Lemma carries_enabled σ g R C b :
  carries σ g R C -> chan_ready (nodes σ) (Some C) = false ->
  is_Some (step (run g b) σ).
Proof.
  intros (Hinv & HR & HC) HCn.
  destruct HC as [HC | (gr & Hg & Ho & Hst)]; [congruence|].
  unfold step. rewrite Hg. cbn [mbind option_bind]. unfold step_goroutine.
  destruct Hst as [-> | ->].
  - cbn. unfold select_case. rewrite HR. 
    destruct (chan_ready (nodes σ) (Some C)); [destruct b|]; by eexists.
  - unfold via. rewrite Stop_spec. by eexists.
Qed.

(** The calls of [child.Stop()] that goroutine [g] makes in a schedule. *)
Fixpoint forwards_in (g : nat) (tr : list label) (σ : system) : nat :=
  match tr with
  | [] => O
  | l :: tr' =>
      ((if is_run g l && forwarding σ g then 1 else 0) +
       match step l σ with
       | Some σ' => forwards_in g tr' σ'
       | None => 0
       end)%nat
  end.

(** What is left to goroutine [g] of its one call of [child.Stop()]. *)
Definition may_forward (σ : system) (g : nat) : nat :=
  match pool (nodes σ) !! g with
  | Some gr => if running gr then 1%nat else 0%nat
  | None => 1%nat
  end.

Lemma forwarding_may σ g : forwarding σ g = true -> may_forward σ g = 1%nat.
Proof.
  unfold forwarding, may_forward, running.
  destruct (pool (nodes σ) !! g) as [gr|]; [|done]. by destruct (status gr).
Qed.

Lemma may_forward_step l σ σ' g :
  sys_inv σ -> step l σ = Some σ' -> (may_forward σ' g <= may_forward σ g)%nat.
Proof.
  intros Hinv Hs. unfold may_forward.
  destruct (pool (nodes σ) !! g) as [gr|] eqn:Hg.
  - destruct (step_goroutine_ages _ _ _ _ _ Hinv Hs Hg) as (gr' & -> & _ & Hmono).
    destruct (running gr); [destruct (running gr'); lia|]. by rewrite Hmono.
  - destruct (pool (nodes σ') !! g) as [gr'|]; [destruct (running gr')|]; lia.
Qed.

Lemma forwarded_step b σ σ' g :
  sys_inv σ -> forwarding σ g = true -> step (run g b) σ = Some σ' ->
  may_forward σ' g = 0%nat.
Proof.
  intros Hinv Hf Hs. pose proof (sys_nodes _ Hinv) as [Hcore _].
  unfold forwarding in Hf. unfold may_forward.
  destruct (pool (nodes σ) !! g) as [gr|] eqn:Hg; [|done].
  simpl in Hs. rewrite Hg in Hs. simpl in Hs.
  destruct (step_goroutine b gr (nodes σ)) as [[g1 w1]|] eqn:Hsg; inversion Hs; subst σ'.
  pose proof (lookup_lt_Some _ _ _ Hg) as Hlt.
  destruct (step_goroutine_cases _ _ _ _ _ _ Hcore Hg Hsg) as
    [id Hst | p Hst Hrdy | p Hst Hrdy | Hst | pn d ds Hst Hd | pn Hst Hd];
    rewrite Hst in Hf; try done.
  simpl. by rewrite list_lookup_insert_eq.
Qed.

Lemma forwards_bounded g tr σ :
  sys_inv σ -> (forwards_in g tr σ <= may_forward σ g)%nat.
Proof.
  revert σ. induction tr as [|l tr IH]; intros σ Hinv; simpl; [lia|].
  destruct (is_run g l && forwarding σ g) eqn:Hl.
  - apply andb_true_iff in Hl as [Hl Hf]. rewrite (forwarding_may _ _ Hf).
    destruct (step l σ) as [σ'|] eqn:Hs; [|lia].
    specialize (IH σ' (sys_inv_step _ _ _ Hinv Hs)).
    destruct l as [| | | | | | | |g' b|]; try done.
    simpl in Hl. apply bool_decide_eq_true in Hl. subst g'.
    rewrite (forwarded_step _ _ _ _ Hinv Hf Hs) in IH. lia.
  - destruct (step l σ) as [σ'|] eqn:Hs; [|lia].
    specialize (IH σ' (sys_inv_step _ _ _ Hinv Hs)).
    pose proof (may_forward_step _ _ _ g Hinv Hs). lia.
Qed.

(** A goroutine past [fn] is never blocked. *)
Lemma unwinding_enabled σ g gr pn b :
  sys_inv σ -> pool (nodes σ) !! g = Some gr -> status gr = Unwinding pn ->
  is_Some (step (run g b) σ).
Proof.
  intros Hinv Hg Hst. destruct (defers gr) as [|d ds] eqn:Hd.
  - unfold step. rewrite Hg. cbn [mbind option_bind]. unfold step_goroutine.
    rewrite Hst, Hd. by eexists.
  - rewrite (run_deferred_step _ _ _ _ _ _ _ Hinv Hg Hst Hd). by eexists.
Qed.

(** C5. [R] is a root and [C] a child that [Child] made of it.
    - After [Stop] on [R] there is a goroutine [g], the closure [Child]
      launched on [C], such that in every schedule the channel of [C] is
      closed by the time [g] has taken two steps, and [g] can take a step in
      every state in which that channel is still open.
    - In a schedule without a call of [Stop] on [R], with whatever calls of
      [Stop] on [C], the channel of [R] is ready at the end exactly when it
      was at the start.
    - A goroutine calls [child.Stop()] at most once in a schedule, and past
      its function it is never blocked, so it runs its deferred calls and
      exits. *)
Theorem C5_Stop_goes_down_only (σ0 : system) (R C : ptr) (rR rC : routines) :
  reachable σ0 ->
  heap (nodes σ0) !! R = Some rR -> parent rR = None ->
  heap (nodes σ0) !! C = Some rC -> parent rC = Some R ->
  (exists σ g,
     step (call_Stop (Some R)) σ0 = Some σ /\
     (forall tr σ', exec tr σ = Some σ' -> (2 <= runs_of g tr)%nat ->
        chan_ready (nodes σ') (Some C) = true) /\
     (forall tr σ' b, exec tr σ = Some σ' ->
        chan_ready (nodes σ') (Some C) = false -> is_Some (step (run g b) σ'))) /\
  (forall tr σ', exec tr σ0 = Some σ' -> ~ In (call_Stop (Some R)) tr ->
     chan_ready (nodes σ') (Some R) = chan_ready (nodes σ0) (Some R)) /\
  (forall g tr, (forwards_in g tr init <= 1)%nat) /\
  (forall σ g gr pn b, reachable σ -> pool (nodes σ) !! g = Some gr ->
     status gr = Unwinding pn -> is_Some (step (run g b) σ)).
Proof.
  intros Hreach HR Hroot HC Hpar. pose proof (reachable_inv _ Hreach) as Hinv.
  split; [|split; [|split]].
  - assert (Hs : step (call_Stop (Some R)) σ0
                 = Some (with_nodes σ0 (Stop (Some R) (nodes σ0)).2)).
    { unfold step, points_in. rewrite bool_decide_eq_true_2; [done|].
      by eapply lookup_lt_Some. }
    pose proof (sys_inv_step _ _ _ Hinv Hs) as Hinv'.
    destruct (Stop_closes _ _ _ HR) as (rR' & HR' & HdR & _).
    destruct (step_persists _ _ _ Hinv Hs _ _ HC) as (rC' & HC' & HpC & _).
    assert (Hg : exists g, carries (with_nodes σ0 (Stop (Some R) (nodes σ0)).2) g R C).
    { destruct (node_propagators _ (sys_nodes _ Hinv') C rC' R HC')
        as [Hd | (g & gr & Hg & Ho & Hst)]; [congruence| |].
      - exists 0%nat. split; [done|]. split.
        + cbn [nodes with_nodes chan_ready]. by rewrite HR'.
        + left. cbn [chan_ready]. by rewrite HC'.
      - exists g. split; [done|]. split.
        + cbn [nodes with_nodes chan_ready]. by rewrite HR'.
        + right. eauto. }
    destruct Hg as [g Hcar]. eexists _, g. split; [exact Hs|]. split.
    + intros tr σ' Hex Hruns.
      destruct (carries_exec _ _ _ _ _ _ Hcar Hex) as [_ Hd].
      unfold distance in Hd at 1.
      destruct (chan_ready (nodes σ') (Some C)) eqn:Hopen; [done|].
      pose proof (distance_at_most_2 (with_nodes σ0 (Stop (Some R) (nodes σ0)).2) g C).
      destruct (forwarding σ' g); lia.
    + intros tr σ' b Hex Hopen.
      destruct (carries_exec _ _ _ _ _ _ Hcar Hex) as [Hcar' _].
      by eapply carries_enabled.
  - intros tr σ' Hex Hnot. by eapply root_stays.
  - intros g tr. by apply (forwards_bounded g tr init sys_inv_init).
  - intros σ g gr pn b Hr Hg Hst.
    eapply unwinding_enabled; [by apply reachable_inv|done..].
Qed.

(** ** Start *)








(** The steps of [Start] past the mutex, one by one. *)
Lemma Start_is_idle σ s r sv c :
  services σ !! s = Some sv -> is_nil (s_routines sv) = true ->
  step_frame c (in_Start s r start_check) σ = Some (in_Start s r start_Child, σ).
Proof. intros Hsv Hn. cbn [step_frame]. rewrite Hsv. cbn [mbind option_bind]. by rewrite Hn. Qed.

Lemma Start_makes_child σ s p sv c :
  services σ !! s = Some sv -> (p < length (heap (nodes σ)))%nat ->
  step_frame c (in_Start s (of_ptr (Some p)) start_Child) σ =
    Some (in_Start s (of_ptr (Some p))
            (start_call (of_ptr (Some (length (heap (nodes σ)))))),
          mkSystem (Child (Some p) (nodes σ)).2 (services σ) (frames σ)).
Proof.
  intros Hsv Hp. cbn [step_frame]. rewrite Hsv. cbn [mbind option_bind].
  unfold via. by rewrite (Child_spec _ _ Hp).
Qed.


Lemma Start_stops_child σ s r sv ch err c :
  services σ !! s = Some sv ->
  step_frame c (in_Start s r (start_cleanup_Stop (of_ptr (Some ch)) err)) σ =
    Some (in_Start s r (start_cleanup_Wait (of_ptr (Some ch)) err (Wait (Some ch))),
          mkSystem (Stop (Some ch) (nodes σ)).2 (services σ) (frames σ)).
Proof.
  intros Hsv. cbn [step_frame]. rewrite Hsv. cbn [mbind option_bind].
  unfold via. by rewrite Stop_spec.
Qed.

Lemma Start_wait_passes σ s r sv child err c0 rest c :
  services σ !! s = Some sv -> counter (nodes σ) c0 = Some 0 ->
  step_frame c (in_Start s r (start_cleanup_Wait child err (c0 :: rest))) σ =
    Some (in_Start s r (start_cleanup_Wait child err rest), σ).
Proof.
  intros Hsv Hc. cbn [step_frame]. rewrite Hsv. cbn [mbind option_bind].
  unfold passes. rewrite Hc. by rewrite bool_decide_eq_true_2.
Qed.

Lemma Start_returns_error σ s r sv child err c :
  services σ !! s = Some sv ->
  step_frame c (in_Start s r (start_cleanup_Wait child err [])) σ =
    Some (returned (an_error (Some err)),
          mkSystem (nodes σ) (<[s := set_mut sv false]> (services σ)) (frames σ)).
Proof. intros Hsv. cbn [step_frame]. by rewrite Hsv. Qed.






(** ** A service without a start routine *)




Lemma alter_at_end {A} (f : A -> A) (l : list A) (x : A) (n : nat) :
  n = length l -> alter f n (l ++ [x]) = l ++ [f x].
Proof. intros ->. apply alter_snoc. Qed.

Lemma lookup_at_end {A} (l : list A) (x : A) (n : nat) :
  n = length l -> (l ++ [x]) !! n = Some x.
Proof. intros ->. apply lookup_snoc. Qed.

Lemma insert_at_end {A} (l : list A) (x y : A) (n : nat) :
  n = length l -> <[n := y]> (l ++ [x]) = l ++ [y].
Proof. intros ->. apply insert_snoc. Qed.

(** The closure of [Child] takes [case <-child.Done()] when the channel of
    the child is closed and the scheduler picks it. *)
Lemma run_child_case σ g gr par c :
  pool (nodes σ) !! g = Some gr ->
  status gr = Calling (propagate par (of_ptr (Some c))) ->
  chan_ready (nodes σ) (Some c) = true ->
  step (run g false) σ =
    Some (with_nodes σ
            (mkWorld (heap (nodes σ))
                     (<[g := set_status gr (Unwinding false)]> (pool (nodes σ))))).
Proof.
  intros Hg Hst Hc. unfold step. rewrite Hg. cbn [mbind option_bind].
  unfold step_goroutine. rewrite Hst.
  destruct par; cbn [Done via bind ret]; unfold select_case; rewrite Hc; clear Hc;
    destruct (chan_ready _ _); reflexivity.
Qed.

(** A deferred call that returns. *)
Lemma run_deferred_returns σ g gr pn d ds b w' :
  pool (nodes σ) !! g = Some gr ->
  status gr = Unwinding pn -> defers gr = d :: ds ->
  run_deferred d (nodes σ) = (Ok tt, w') ->
  step (run g b) σ =
    Some (with_nodes σ
            (mkWorld (heap w')
                     (<[g := mkGoroutine (g_owner gr) (Unwinding pn) ds]> (pool w')))).
Proof.
  intros Hg Hst Hd Hrun. unfold step. rewrite Hg. cbn [mbind option_bind].
  unfold step_goroutine. by rewrite Hst, Hd, Hrun.
Qed.









(** ** Worked schedules for the service *)

(** [Stop] and [Start] on a nil service, before anything else. *)
Lemma C10_witness :
  step (call_service_Stop None) init = Some (push_frame init (returned no_value)) /\
  step (call_Start None nil_Routines) init =
    Some (push_frame init (returned (an_error (Some NilReceiver)))).
Proof.
  destruct (C10_Stop_on_nil_service_is_silent init nil_Routines)
    as (_ & Hstop & _ & _ & Hstart).
  split; [exact Hstop|exact Hstart].
Defined.

(** A root, a service, and a call of [Start] whose start routine returns
    nil: the service is running. *)
Definition started_service : list label :=
  [call_NewRoutines; call_NewService (Some 3%nat);
   call_Start (Some 0%nat) (of_ptr (Some 0%nat));
   resume 0%nat Panic; resume 0%nat Panic; resume 0%nat Panic;
   resume 0%nat (Ok None)].

Lemma C7_witness :
  exec [call_Start (Some 0%nat) (of_ptr (Some 0%nat));
        resume (length (frames (after started_service))) Panic;
        resume (length (frames (after started_service))) Panic]
       (after started_service)
    = Some (push_frame (after started_service)
              (returned (an_error (Some AlreadyStarted)))).
Proof.
  apply (C7_Start_on_running_service (after started_service) 0%nat
           (mkService (client_start 3%nat) false (of_ptr (Some 1%nat)))
           (of_ptr (Some 0%nat)) Panic Panic);
    reflexivity.
Defined.

(** A root and its child; [Stop] on the child leaves the root open. *)
Lemma C5_witness :
  chan_ready (nodes (after [call_NewRoutines; call_Child (Some 0%nat);
                            call_Stop (Some 1%nat)])) (Some 0%nat)
    = chan_ready (nodes (after [call_NewRoutines; call_Child (Some 0%nat)])) (Some 0%nat).
Proof.
  destruct (C5_Stop_goes_down_only
              (after [call_NewRoutines; call_Child (Some 0%nat)]) 0%nat 1%nat
              (mkRoutines false 0 None 1) (mkRoutines false 1 (Some 0%nat) 0))
    as (_ & Hup & _); [by apply after_reachable|reflexivity..|].
  apply (Hup [call_Stop (Some 1%nat)]); [reflexivity|].
  intros [H|[]]. discriminate H.
Defined.





(** * Further properties of the package *)

(** ** The hierarchy of nodes *)

(** X1. The parent of a node is a node made before it, so the hierarchy
    has no cycle.  Along every schedule a node stays at its address, keeps
    the parent [Child] gave it, and its channel, once closed, stays closed. *)
Theorem hierarchy_is_fixed (σ σ' : system) (tr : list label) (p : ptr) (r : routines) :
  reachable σ -> exec tr σ = Some σ' ->
  heap (nodes σ) !! p = Some r ->
  (forall q, parent r = Some q ->
     (q < p)%nat /\ is_Some (heap (nodes σ) !! q)) /\
  exists r', heap (nodes σ') !! p = Some r' /\ parent r' = parent r /\
    (doneCh r = true -> doneCh r' = true).
Proof.
  intros Hreach Hex Hp. pose proof (reachable_inv _ Hreach) as Hinv. split.
  - intros q Hq.
    pose proof (parents_older _ (node_core _ (sys_nodes _ Hinv)) _ _ _ Hp Hq) as Hlt.
    split; [done|]. apply lookup_lt_is_Some_2.
    pose proof (lookup_lt_Some _ _ _ Hp). lia.
  - by apply (exec_persists _ _ _ Hinv Hex).
Qed.

(** ** The counters *)

(** X3. The deferred calls of a goroutine run [me.parent.childrenDown()]
    before [me.waitgroup.Done()]: once the [waitgroup] counter of a node is
    0, every goroutine launched on the node has run all its deferred calls,
    so none of them is counted on the parent any more. *)
Theorem drained_node_owes_nothing (σ : system) (p : ptr) (r : routines)
    (g : nat) (gr : goroutine) :
  reachable σ -> heap (nodes σ) !! p = Some r -> waitgroup r = 0 ->
  pool (nodes σ) !! g = Some gr -> g_owner gr = p ->
  defers gr = [] /\ running gr = false.
Proof.
  intros Hreach Hp Hz Hg Ho. pose proof (reachable_inv _ Hreach) as Hinv.
  pose proof (node_core _ (sys_nodes _ Hinv)) as Hcore.
  destruct (counters_exact _ Hcore _ _ Hp) as [Hw _].
  pose proof (owed_lookup (waitgroup_of p) _ _ _ Hg) as Hle.
  pose proof (owes_nonneg (waitgroup_of p) (defers gr)) as Hge.
  assert (Hd : defers gr = []).
  { destruct (goroutine_ok_defers _ _ (goroutines_ok _ Hcore _ _ Hg)) as (ro & _ & Hd).
    destruct Hd as [Hd | [Hd | Hd]]; [| |done]; rewrite Hd, Ho in Hle, Hge.
    - rewrite owes_registered_waitgroup in Hle. case_decide; [lia|done].
    - simpl in Hle. rewrite bool_decide_eq_true_2 in Hle by done. lia. }
  split; [done|].
  destruct (running gr) eqn:Hrun; [|done].
  pose proof (running_owes _ _ r (goroutines_ok _ Hcore _ _ Hg)) as Hro.
  rewrite Ho in Hro. specialize (Hro Hp Hrun). by rewrite Hd in Hro.
Qed.

(** ** Children and Wait *)

(** [Child] launches its closure with [Go] on the new node: while the
    channel of a child is open the closure is counted, on the [waitgroup]
    counter of the child and on the [children] counter of its parent. *)
Lemma open_child_counted σ c p rc :
  sys_inv σ ->
  heap (nodes σ) !! c = Some rc -> parent rc = Some p -> doneCh rc = false ->
  0 < waitgroup rc /\ exists rp, heap (nodes σ) !! p = Some rp /\ 0 < children rp.
Proof.
  intros Hinv Hc Hpar Hopen.
  pose proof (node_core _ (sys_nodes _ Hinv)) as Hcore.
  destruct (node_propagators _ (sys_nodes _ Hinv) _ _ _ Hc Hpar)
    as [Hd | (g & gr & Hg & Ho & Hst)]; [congruence|].
  assert (Hdef : defers gr = registered (Some p) c).
  { rewrite <- Hpar, <- Ho.
    apply (running_owes _ _ _ (goroutines_ok _ Hcore _ _ Hg)); [by rewrite Ho|].
    unfold running. by destruct Hst as [-> | ->]. }
  pose proof (parents_older _ Hcore _ _ _ Hc Hpar) as Hlt.
  destruct (lookup_lt_is_Some_2 (heap (nodes σ)) p) as [rp Hp].
  { pose proof (lookup_lt_Some _ _ _ Hc). lia. }
  destruct (counters_exact _ Hcore _ _ Hc) as [Hw _].
  destruct (counters_exact _ Hcore _ _ Hp) as [_ Hch].
  pose proof (owed_lookup (waitgroup_of c) _ _ _ Hg) as Hle1.
  pose proof (owed_lookup (children_of p) _ _ _ Hg) as Hle2.
  rewrite Hdef in Hle1, Hle2.
  rewrite owes_registered_waitgroup in Hle1. rewrite owes_registered_children in Hle2.
  rewrite decide_True in Hle1 by done. rewrite decide_True in Hle2 by done.
  split; [lia|]. exists rp. split; [done|lia].
Qed.

Lemma chan_ready_exec tr σ σ' c :
  sys_inv σ -> exec tr σ = Some σ' ->
  chan_ready (nodes σ) c = true -> chan_ready (nodes σ') c = true.
Proof.
  intros Hinv Hex. pose proof (exec_persists _ _ _ Hinv Hex) as Hp.
  destruct (nodes σ), (nodes σ'). by apply chan_ready_persists.
Qed.

(** X4. A call of [Wait] on a node returns only after every child the node
    had when [Wait] was called has been stopped, and, if the node is itself
    a child, only after it has been stopped: the closure of [Child] is one
    of the goroutines [Wait] waits for.  In the state in which [Wait] is
    called an open child has positive counters. *)
Theorem Wait_returns_after_Stop (σ0 σ : system) (tr : list label) (f : nat)
    (R c : ptr) (rc : routines) :
  reachable σ0 ->
  frames σ0 !! f = Some (in_Wait (Wait (Some R))) ->
  heap (nodes σ0) !! c = Some rc ->
  (c = R /\ parent rc <> None) \/ parent rc = Some R ->
  (doneCh rc = false ->
   0 < waitgroup rc /\
   forall p, parent rc = Some p ->
     exists rp, heap (nodes σ0) !! p = Some rp /\ 0 < children rp) /\
  (exec tr σ0 = Some σ ->
   frames σ !! f = Some (returned no_value) ->
   chan_ready (nodes σ) (Some c) = true).
Proof.
  intros Hreach Hf Hc Hrel. pose proof (reachable_inv _ Hreach) as Hinv0. split.
  - intros Hopen. destruct (parent rc) as [p|] eqn:Hpar.
    + destruct (open_child_counted _ _ _ _ Hinv0 Hc Hpar Hopen) as [Hw Hp].
      split; [done|]. by intros ? [= <-].
    + by destruct Hrel as [[_ ?] | ?].
  - intros Hex Hret.
    destruct (Wait_moves _ _ _ _ _ Hf Hex Hret) as
      (tr1 & c1 & σ1 & tr2 & c2 & σ2 & tr3 & -> & _ & H1 & Hc1 & _ & H2 & _ & Hc2).
    (* a state on the way in which the channel of [c] was closed *)
    assert (Hq : exists trq σq trr, exec trq σ0 = Some σq /\ exec trr σq = Some σ /\
                   chan_ready (nodes σq) (Some c) = true).
    { destruct Hrel as [[-> Hne] | Hpar].
      - exists (tr1 ++ resume f c1 :: tr2), σ2, (resume f c2 :: tr3).
        split; [done|]. split.
        { replace (tr1 ++ resume f c1 :: tr2 ++ resume f c2 :: tr3)
            with ((tr1 ++ resume f c1 :: tr2) ++ resume f c2 :: tr3) in Hex
            by by rewrite <- app_assoc.
          rewrite exec_app, H2 in Hex. exact Hex. }
        destruct (exec_persists _ _ _ Hinv0 H2 _ _ Hc) as (r2 & Hr2 & Hp2 & _).
        cbn [chan_ready]. rewrite Hr2.
        destruct (doneCh r2) eqn:Hd; [done|exfalso].
        destruct (parent rc) as [p|] eqn:Hpar; [|done].
        destruct (open_child_counted _ _ _ _ (sys_inv_exec _ _ _ Hinv0 H2) Hr2 Hp2 Hd)
          as [Hw _].
        cbn in Hc2. rewrite Hr2 in Hc2. cbn in Hc2. inversion Hc2. lia.
      - exists tr1, σ1, (resume f c1 :: tr2 ++ resume f c2 :: tr3).
        split; [done|]. split; [by rewrite exec_app, H1 in Hex|].
        destruct (exec_persists _ _ _ Hinv0 H1 _ _ Hc) as (r1 & Hr1 & Hp1 & _).
        cbn [chan_ready]. rewrite Hr1.
        destruct (doneCh r1) eqn:Hd; [done|exfalso].
        rewrite Hpar in Hp1.
        destruct (open_child_counted _ _ _ _ (sys_inv_exec _ _ _ Hinv0 H1) Hr1 Hp1 Hd)
          as [_ (rp & Hrp & Hpos)].
        cbn in Hc1. rewrite Hrp in Hc1. cbn in Hc1. inversion Hc1. lia. }
    destruct Hq as (trq & σq & trr & Hq & Hr & Hcl).
    eapply chan_ready_exec; [|exact Hr|exact Hcl].
    by eapply sys_inv_exec.
Qed.

(** ** Stop, down the hierarchy *)

(** A step of a goroutine of the pool. *)
Definition goroutine_step (l : label) : Prop := exists g b, l = run g b.

(** With the channel of [R] closed, at most two steps of the closure of a
    child [C] of [R] close the channel of [C]. *)
Lemma carries_reaches n σ g R C :
  (distance σ g C <= n)%nat -> carries σ g R C ->
  exists tr σ', exec tr σ = Some σ' /\ Forall goroutine_step tr /\
    (length tr <= n)%nat /\ chan_ready (nodes σ') (Some C) = true.
Proof.
  revert σ. induction n as [|n IH]; intros σ Hd Hc.
  - exists [], σ. split; [done|]. split; [constructor|]. split; [done|].
    unfold distance in Hd. destruct (chan_ready (nodes σ) (Some C)); [done|].
    destruct (forwarding σ g); lia.
  - destruct (chan_ready (nodes σ) (Some C)) eqn:HC.
    { exists [], σ. split; [done|]. split; [constructor|]. split; [simpl; lia|done]. }
    destruct (carries_enabled _ _ _ _ true Hc HC) as [σ1 Hs].
    destruct (carries_step _ _ _ _ _ _ Hc Hs) as [Hc1 Hd1].
    cbn [is_run] in Hd1. rewrite bool_decide_eq_true_2 in Hd1 by done.
    assert (Hpos : (0 < distance σ g C)%nat).
    { unfold distance. rewrite HC. destruct (forwarding σ g); lia. }
    destruct (IH σ1) as (tr & σ' & Hex & Hall & Hlen & Hcl); [lia|done|].
    exists (run g true :: tr), σ'. split; [cbn [exec]; by rewrite Hs|].
    split; [constructor; [by exists g, true|done]|]. split; [simpl; lia|done].
Qed.

Lemma child_reached σ R C rC :
  sys_inv σ -> heap (nodes σ) !! C = Some rC -> parent rC = Some R ->
  chan_ready (nodes σ) (Some R) = true ->
  exists tr σ', exec tr σ = Some σ' /\ Forall goroutine_step tr /\
    (length tr <= 2)%nat /\ chan_ready (nodes σ') (Some C) = true.
Proof.
  intros Hinv HC Hpar HR.
  destruct (node_propagators _ (sys_nodes _ Hinv) _ _ _ HC Hpar)
    as [Hd | (g & gr & Hg & Ho & Hst)].
  - exists [], σ. split; [done|]. split; [constructor|]. split; [simpl; lia|].
    cbn [chan_ready]. by rewrite HC.
  - apply (carries_reaches 2 σ g R C); [apply distance_at_most_2|].
    split; [done|]. split; [done|]. right. by eauto.
Qed.

Lemma descendant_reached fuel σ R D :
  sys_inv σ -> In R (ancestors fuel (heap (nodes σ)) D) ->
  chan_ready (nodes σ) (Some R) = true ->
  exists tr σ', exec tr σ = Some σ' /\ Forall goroutine_step tr /\
    (length tr <= 2 * length (ancestors fuel (heap (nodes σ)) D))%nat /\
    chan_ready (nodes σ') (Some D) = true.
Proof.
  revert D. induction fuel as [|k IH]; intros D Hinv Hin HR; [done|].
  cbn [ancestors] in *.
  destruct (heap (nodes σ) !! D) as [rD|] eqn:HD; [|done].
  destruct (parent rD) as [q|] eqn:Hq; [|done].
  (* first the parent [q] of [D], then [D] *)
  assert (Hfirst : exists tr1 σ1, exec tr1 σ = Some σ1 /\ Forall goroutine_step tr1 /\
            (length tr1 <= 2 * length (ancestors k (heap (nodes σ)) q))%nat /\
            chan_ready (nodes σ1) (Some q) = true).
  { destruct Hin as [<- | Hin].
    - exists [], σ. split; [done|]. split; [constructor|]. split; [simpl; lia|done].
    - by apply IH. }
  destruct Hfirst as (tr1 & σ1 & H1 & Hall1 & Hlen1 & Hq1).
  pose proof (sys_inv_exec _ _ _ Hinv H1) as Hinv1.
  destruct (exec_persists _ _ _ Hinv H1 _ _ HD) as (r1 & Hr1 & Hp1 & _).
  rewrite Hq in Hp1.
  destruct (child_reached _ _ _ _ Hinv1 Hr1 Hp1 Hq1)
    as (tr2 & σ2 & H2 & Hall2 & Hlen2 & HD2).
  exists (tr1 ++ tr2), σ2. split; [by rewrite exec_app, H1|].
  split; [by apply Forall_app|]. split; [|done].
  rewrite length_app. cbn [length]. lia.
Qed.

(** X5. [Stop] goes all the way down.  Once the channel of a node [R] is
    closed, steps of the goroutines of the pool alone, at most two for each
    level above a descendant [D] however deep, close the channel of [D]: the closures that [Child] launched forward the call level by
    level, and none of them is blocked on the way. *)
Theorem Stop_reaches_every_descendant (σ : system) (R D : ptr) :
  reachable σ ->
  In R (strict_ancestors (nodes σ) D) ->
  chan_ready (nodes σ) (Some R) = true ->
  exists tr σ',
    exec tr σ = Some σ' /\ Forall goroutine_step tr /\
    (length tr <= 2 * length (strict_ancestors (nodes σ) D))%nat /\
    chan_ready (nodes σ') (Some D) = true.
Proof.
  intros Hreach Hin HR.
  apply (descendant_reached _ σ R D); [by apply reachable_inv|done..].
Qed.

(** ** Stop, never up or sideways *)

(** A closure that is about to call [child.Stop()] took the parent case of
    its [select]: the channel of the parent is closed. *)
Definition forwarding_from_closed (w : world) : Prop :=
  forall g gr child, pool w !! g = Some gr -> status gr = Forwarding child ->
    exists r p, heap w !! g_owner gr = Some r /\ parent r = Some p /\
      chan_ready w (Some p) = true.

(** The goroutines a step adds to the pool are at the start of their
    function. *)
Lemma step_new_goroutines l σ σ' g gr :
  sys_inv σ -> step l σ = Some σ' ->
  pool (nodes σ) !! g = None -> pool (nodes σ') !! g = Some gr ->
  exists fn, status gr = Calling fn.
Proof.
  intros Hinv Hstep Hno Hg. pose proof (sys_nodes _ Hinv) as [Hcore _].
  assert (Hchild : forall me, points_in (heap (nodes σ)) me = true ->
            pool (Child me (nodes σ)).2 !! g = Some gr -> exists fn, status gr = Calling fn).
  { intros [p|] Hme Hl; [|simpl in Hl; congruence].
    apply bool_decide_eq_true in Hme. rewrite (Child_spec _ _ Hme) in Hl. simpl in Hl.
    apply lookup_app_Some in Hl as [Hl | [_ Hl]]; [congruence|].
    apply list_lookup_singleton_Some in Hl as [_ <-]. by eexists. }
  destruct l as [|me|me id|me|me|st|me r|me|g' b|f' client]; simpl in Hstep.
  - inversion Hstep; subst. simpl in Hg. congruence.
  - destruct (points_in _ me) eqn:Hme; inversion Hstep; subst. by apply (Hchild me).
  - destruct (points_in _ me) eqn:Hme; inversion Hstep; subst. simpl in Hg.
    destruct me as [p|]; [|simpl in Hg; congruence].
    apply bool_decide_eq_true in Hme.
    destruct (lookup_lt_is_Some_2 _ _ Hme) as [rp Hrp].
    rewrite (Go_spec _ _ _ _ Hrp) in Hg by by eapply parent_points_in.
    simpl in Hg. apply lookup_app_Some in Hg as [Hl | [_ Hl]]; [congruence|].
    apply list_lookup_singleton_Some in Hl as [_ <-]. by eexists.
  - destruct (points_in _ me); inversion Hstep; subst.
    cbn [with_nodes nodes] in Hg. rewrite Stop_spec in Hg. simpl in Hg. congruence.
  - destruct (points_in _ me); inversion Hstep; subst. simpl in Hg. congruence.
  - inversion Hstep; subst. simpl in Hg. congruence.
  - destruct (points_in _ me && holds_in _ r); inversion Hstep; subst. simpl in Hg. congruence.
  - destruct (points_in _ me); inversion Hstep; subst. simpl in Hg. congruence.
  - destruct (pool (nodes σ) !! g') as [g0|] eqn:Hg'; simpl in Hstep; [|done].
    destruct (step_goroutine b g0 (nodes σ)) as [[g1 w1]|] eqn:Hs;
      inversion Hstep; subst. simpl in Hg.
    assert (Hpool : pool w1 = pool (nodes σ)).
    { by destruct (step_goroutine_cases _ _ _ _ _ _ Hcore Hg' Hs). }
    rewrite Hpool in Hg. apply lookup_lt_Some in Hg. rewrite length_insert in Hg.
    apply lookup_ge_None in Hno. lia.
  - destruct (frames σ !! f') as [f0|] eqn:Hf; simpl in Hstep; [|done].
    destruct (step_frame client f0 σ) as [[f1 σ1]|] eqn:Hs; inversion Hstep; subst.
    simpl in Hg. apply step_frame_effect in Hs as
      [_ [Hn | [(s & r & -> & Hn) | [(s & r & ch & e & -> & Hn) | (s & sv & -> & _ & Hn)]]]];
      rewrite Hn in Hg.
    + congruence.
    + pose proof (sys_frames _ Hinv _ _ Hf) as (sv & _ & Hr & _).
      destruct r as [|me]; [simpl in Hg; congruence|]. by apply (Hchild me).
    + rewrite via_Stop_pool in Hg. congruence.
    + rewrite via_Stop_pool in Hg. congruence.
Qed.

Lemma forwarding_step l σ σ' :
  sys_inv σ -> forwarding_from_closed (nodes σ) -> step l σ = Some σ' ->
  forwarding_from_closed (nodes σ').
Proof.
  intros Hinv Hfw Hstep g gr' child Hg' Hst'.
  pose proof (sys_nodes _ Hinv) as [Hcore _].
  destruct (pool (nodes σ) !! g) as [gr|] eqn:Hg.
  2: { destruct (step_new_goroutines _ _ _ _ _ Hinv Hstep Hg Hg') as [fn Hfn]. congruence. }
  destruct (is_run_of l g) as [[b ->]|Hne].
  - pose proof Hstep as Hrun. simpl in Hrun. rewrite Hg in Hrun. simpl in Hrun.
    destruct (step_goroutine b gr (nodes σ)) as [[g1 w1]|] eqn:Hs;
      inversion Hrun; subst σ'. clear Hrun. simpl in Hg'.
    destruct (goroutines_ok _ Hcore _ _ Hg) as (ro & Hro & Hok).
    destruct (step_goroutine_cases _ _ _ _ _ _ Hcore Hg Hs) as
      [id Hst | p Hst Hrdy | p Hst Hrdy | Hst | pn d ds Hst Hd | pn Hst Hd];
      simpl in Hg'; rewrite list_lookup_insert_eq in Hg' by (by eapply lookup_lt_Some);
      inversion Hg'; subst gr'; simpl in Hst'; try done.
    + rewrite Hst in Hok. destruct Hok as (_ & Hpar & _). simpl.
      exists ro, p. split; [done|]. split; [done|]. exact Hrdy.
    + by destruct pn.
  - pose proof (step_other_goroutine _ _ _ _ _ Hinv Hstep Hg Hne) as Hsame.
    assert (gr' = gr) as -> by congruence.
    destruct (Hfw _ _ _ Hg Hst') as (r & p & Hr & Hpar & Hrdy).
    destruct (step_persists _ _ _ Hinv Hstep _ _ Hr) as (r' & Hr' & Hp' & _).
    exists r', p. split; [done|]. split; [congruence|].
    by eapply chan_ready_step.
Qed.

Lemma forwarding_exec tr σ σ' :
  sys_inv σ -> forwarding_from_closed (nodes σ) -> exec tr σ = Some σ' ->
  forwarding_from_closed (nodes σ').
Proof.
  revert σ. induction tr as [|l tr IH]; intros σ Hinv Hfw Hex; simpl in Hex.
  - by inversion Hex; subst.
  - destruct (step l σ) as [σ1|] eqn:Hs; simpl in Hex; [|done].
    eapply IH; [by eapply sys_inv_step|by eapply forwarding_step|done].
Qed.

Lemma forwarding_reachable σ : reachable σ -> forwarding_from_closed (nodes σ).
Proof.
  intros [tr Hex]. eapply forwarding_exec; [apply sys_inv_init| |exact Hex].
  intros g gr child Hg. simpl in Hg. done.
Qed.

(** The node on which a step of the program, or of a call on a service,
    calls [Stop]: [Stop] itself, [child.Stop()] in the deferred function of
    [Start], [me.routines.Stop()] in [Stop] of a service. *)
Definition Stop_called (σ : system) (l : label) : option ptr :=
  match l with
  | call_Stop me => me
  | resume f _ =>
      match frames σ !! f with
      | Some (in_Start _ _ (start_cleanup_Stop (of_ptr me) _)) => me
      | Some (in_Stop s stop_Stop) =>
          match services σ !! s with
          | Some sv => match s_routines sv with
                       | of_ptr me => me
                       | nil_Routines => None
                       end
          | None => None
          end
      | _ => None
      end
  | _ => None
  end.

(** A step leaves the channel of a node as it was, unless it calls [Stop]
    on the node, or it is the step of a closure of [Child] and the channel
    of the parent is closed. *)
Lemma step_closes_who l σ σ' c r :
  sys_inv σ -> forwarding_from_closed (nodes σ) ->
  step l σ = Some σ' -> heap (nodes σ) !! c = Some r ->
  exists r', heap (nodes σ') !! c = Some r' /\
    (doneCh r' = doneCh r \/ Stop_called σ l = Some c \/
     exists g b p, l = run g b /\ parent r = Some p /\
       chan_ready (nodes σ) (Some p) = true).
Proof.
  intros Hinv Hfw Hstep Hc. pose proof (sys_nodes _ Hinv) as [Hcore _].
  pose proof (lookup_lt_Some _ _ _ Hc) as Hlt.
  assert (Hvia : forall x,
            exists r', heap (via x Stop (nodes σ)).2 !! c = Some r' /\
              (doneCh r' = doneCh r \/ x = of_ptr (Some c))).
  { intros [|me]; [by exists r; auto|]. unfold via. rewrite Stop_spec. simpl.
    destruct (lookup_closed_on me _ _ _ Hc) as (r' & Hr' & _ & [Hd | ->]); by eauto. }
  assert (Hchild : forall me, points_in (heap (nodes σ)) me = true ->
            exists r', heap (Child me (nodes σ)).2 !! c = Some r' /\ doneCh r' = doneCh r).
  { intros [p|] Hme; [|by exists r].
    apply bool_decide_eq_true in Hme. rewrite (Child_spec _ _ Hme). simpl.
    rewrite lookup_app_l by by rewrite length_alter.
    rewrite list_lookup_alter, Hc. case_decide; subst; rewrite ?Hc; simpl; eauto. }
  destruct l as [|me|me id|me|me|st|me x|me|g b|f client]; simpl in Hstep.
  - inversion Hstep; subst. simpl. exists r. split; [by apply lookup_app_l_Some|auto].
  - destruct (points_in _ me) eqn:Hme; inversion Hstep; subst. simpl.
    destruct (Hchild me Hme) as (r' & Hr' & Hd). eauto.
  - destruct (points_in _ me) eqn:Hme; inversion Hstep; subst. simpl.
    destruct me as [p|]; [|by exists r; auto].
    unfold points_in in Hme. apply bool_decide_eq_true in Hme.
    destruct (lookup_lt_is_Some_2 _ _ Hme) as [rp Hrp].
    rewrite (Go_spec _ _ _ _ Hrp) by by eapply parent_points_in. simpl.
    rewrite lookup_on_parent, list_lookup_alter, Hc.
    repeat case_decide; subst; rewrite ?Hc; simpl; eauto.
  - destruct (points_in _ me); inversion Hstep; subst. cbn [with_nodes nodes].
    rewrite Stop_spec. simpl.
    destruct (lookup_closed_on me _ _ _ Hc) as (r' & Hr' & _ & [Hd | ->]); eauto.
  - destruct (points_in _ me); inversion Hstep; subst. simpl. eauto.
  - inversion Hstep; subst. simpl. eauto.
  - destruct (points_in _ me && holds_in _ x); inversion Hstep; subst. simpl. eauto.
  - destruct (points_in _ me); inversion Hstep; subst. simpl. eauto.
  - destruct (pool (nodes σ) !! g) as [g0|] eqn:Hg; simpl in Hstep; [|done].
    destruct (step_goroutine b g0 (nodes σ)) as [[g1 w1]|] eqn:Hs;
      inversion Hstep; subst. simpl.
    destruct (step_goroutine_cases _ _ _ _ _ _ Hcore Hg Hs) as
      [id Hst | p Hst Hrdy | p Hst Hrdy | Hst | pn d ds Hst Hd | pn Hst Hd];
      simpl; eauto.
    + destruct (lookup_closed_on (Some (g_owner g0)) _ _ _ Hc)
        as (r' & Hr' & _ & [Hd | [= <-]]); [by eauto|].
      exists r'. split; [done|]. right. right.
      destruct (Hfw _ _ _ Hg Hst) as (ro & p & Hro & Hpar & Hrdy).
      assert (ro = r) as -> by congruence. by exists g, b, p.
    + destruct d as [q|par]; simpl.
      * rewrite list_lookup_alter, Hc. case_decide; subst; rewrite ?Hc; simpl; eauto.
      * rewrite lookup_on_parent, Hc. simpl. case_decide; simpl; eauto.
  - destruct (frames σ !! f) as [f0|] eqn:Hf; simpl in Hstep; [|done].
    destruct (step_frame client f0 σ) as [[f1 σ1]|] eqn:Hs; inversion Hstep; subst.
    simpl. pose proof (sys_frames _ Hinv _ _ Hf) as Hok.
    apply step_frame_effect in Hs as
      [_ [-> | [(s & x & -> & ->) | [(s & x & ch & e & -> & ->) | (s & sv & -> & Hsv & ->)]]]].
    + eauto.
    + destruct Hok as (sv & _ & Hx & _).
      destruct x as [|me]; [by exists r; auto|].
      destruct (Hchild me Hx) as (r' & Hr' & Hd). eauto.
    + destruct (Hvia ch) as (r' & Hr' & [Hd | ->]); [by eauto|].
      exists r'. split; [done|]. right. left. by rewrite Hf.
    + destruct (Hvia (s_routines sv)) as (r' & Hr' & [Hd | Heq]); [by eauto|].
      exists r'. split; [done|]. right. left. by rewrite Hf, Hsv, Heq.
Qed.

(** [A] is [N] or a node above [N]. *)
Inductive reaches (h : list routines) : ptr -> ptr -> Prop :=
| reaches_self N : reaches h N N
| reaches_parent N r p A :
    h !! N = Some r -> parent r = Some p -> reaches h p A -> reaches h N A.

Lemma reaches_up h N A rA p :
  reaches h N A -> h !! A = Some rA -> parent rA = Some p -> reaches h N p.
Proof.
  induction 1 as [N|N r q A Hr Hq _ IH]; intros HA Hp.
  - eapply reaches_parent; [done..|constructor].
  - eapply reaches_parent; [done..|]. by apply IH.
Qed.

(** The nodes above a node are the same in a later heap. *)
Lemma reaches_earlier h h' N A :
  (forall p r q, h !! p = Some r -> parent r = Some q -> (q < p)%nat) ->
  persists h h' -> reaches h' N A -> is_Some (h !! N) -> reaches h N A.
Proof.
  intros Hold Hp. induction 1 as [N|N r' q A Hr' Hq _ IH]; intros [r Hr]; [constructor|].
  destruct (Hp _ _ Hr) as (r1 & Hr1 & Hp1 & _).
  assert (r1 = r') as -> by congruence.
  assert (Hq' : parent r = Some q) by congruence.
  eapply reaches_parent; [done..|].
  apply IH. apply lookup_lt_is_Some_2.
  pose proof (Hold _ _ _ Hr Hq'). pose proof (lookup_lt_Some _ _ _ Hr). lia.
Qed.

Lemma reaches_node h N A :
  (forall p r q, h !! p = Some r -> parent r = Some q -> (q < p)%nat) ->
  reaches h N A -> is_Some (h !! N) -> is_Some (h !! A).
Proof.
  intros Hold. induction 1 as [N|N r q A Hr Hq _ IH]; intros HN; [done|].
  apply IH. apply lookup_lt_is_Some_2.
  pose proof (Hold _ _ _ Hr Hq). pose proof (lookup_lt_Some _ _ _ Hr). lia.
Qed.

(** The nodes on which the program and the calls on services call [Stop]
    in a schedule. *)
Fixpoint Stops_in (tr : list label) (σ : system) : list ptr :=
  match tr with
  | [] => []
  | l :: tr' =>
      match step l σ with
      | Some σ' =>
          match Stop_called σ l with
          | Some p => p :: Stops_in tr' σ'
          | None => Stops_in tr' σ'
          end
      | None => []
      end
  end.

Lemma Stops_in_later l tr σ σ' A :
  step l σ = Some σ' -> In A (Stops_in tr σ') -> In A (Stops_in (l :: tr) σ).
Proof.
  intros Hs Hin. cbn [Stops_in]. rewrite Hs.
  destruct (Stop_called σ l); [by right|done].
Qed.

Lemma Stops_in_now l tr σ σ' A :
  step l σ = Some σ' -> Stop_called σ l = Some A -> In A (Stops_in (l :: tr) σ).
Proof. intros Hs Hc. cbn [Stops_in]. rewrite Hs, Hc. by left. Qed.

Lemma closes_from_above tr σ σ' N r :
  sys_inv σ -> forwarding_from_closed (nodes σ) ->
  exec tr σ = Some σ' ->
  heap (nodes σ) !! N = Some r -> doneCh r = false ->
  chan_ready (nodes σ') (Some N) = true ->
  exists A, reaches (heap (nodes σ)) N A /\
    (chan_ready (nodes σ) (Some A) = true \/ In A (Stops_in tr σ)).
Proof.
  revert σ r. induction tr as [|l tr IH]; intros σ r Hinv Hfw Hex HN Hopen Hend;
    simpl in Hex.
  - inversion Hex; subst. cbn in Hend. rewrite HN in Hend. congruence.
  - destruct (step l σ) as [σ1|] eqn:Hs; simpl in Hex; [|done].
    pose proof (sys_inv_step _ _ _ Hinv Hs) as Hinv1.
    pose proof (forwarding_step _ _ _ Hinv Hfw Hs) as Hfw1.
    pose proof (step_persists _ _ _ Hinv Hs) as Hpers.
    pose proof (parents_older _ (node_core _ (sys_nodes _ Hinv))) as Hold.
    (* what the first step does to a node *)
    assert (Hfirst : forall A rA, heap (nodes σ) !! A = Some rA ->
              reaches (heap (nodes σ)) N A ->
              chan_ready (nodes σ1) (Some A) = true ->
              exists B, reaches (heap (nodes σ)) N B /\
                (chan_ready (nodes σ) (Some B) = true \/ In B (Stops_in (l :: tr) σ))).
    { intros A rA HA Hreach HA1.
      destruct (step_closes_who _ _ _ _ _ Hinv Hfw Hs HA)
        as (rA' & HrA' & [Hd | [Hcall | (g & b & p & -> & Hpar & Hrdy)]]).
      - exists A. split; [done|]. left. cbn in *. rewrite HrA' in HA1.
        rewrite HA. congruence.
      - exists A. split; [done|]. right. by eapply Stops_in_now.
      - exists p. split; [by eapply reaches_up|by left]. }
    destruct (step_persists _ _ _ Hinv Hs _ _ HN) as (r1 & Hr1 & _).
    destruct (doneCh r1) eqn:Hd1.
    + apply (Hfirst N r HN); [constructor|]. cbn. by rewrite Hr1.
    + destruct (IH σ1 r1 Hinv1 Hfw1 Hex Hr1 Hd1 Hend) as (A & Hreach & [HA | HA]).
      * assert (Hreach0 : reaches (heap (nodes σ)) N A).
        { eapply reaches_earlier; [exact Hold|exact Hpers|done|by eexists]. }
        destruct (reaches_node _ _ _ Hold Hreach0) as [rA HrA]; [by eexists|].
        by apply (Hfirst A rA).
      * exists A. split; [|right; by eapply Stops_in_later].
        eapply reaches_earlier; [exact Hold|exact Hpers|done|by eexists].
Qed.

(** X6. [Stop] goes down only.  If the channel of a node is open in one
    state and closed at the end of a schedule, then the program, or a call
    on a service, called [Stop] in that schedule on the node itself or on a
    node above it, or the channel of a node above it was closed from the
    start.  Calls of [Stop] on children, on siblings and on unrelated nodes
    never close it, and neither do [Go], [Child] or [Wait]. *)
Theorem Stop_comes_from_above (σ σ' : system) (tr : list label) (N : ptr)
    (r : routines) :
  reachable σ -> exec tr σ = Some σ' ->
  heap (nodes σ) !! N = Some r -> doneCh r = false ->
  chan_ready (nodes σ') (Some N) = true ->
  exists A, reaches (heap (nodes σ)) N A /\
    (chan_ready (nodes σ) (Some A) = true \/ In A (Stops_in tr σ)).
Proof.
  intros Hreach. apply closes_from_above;
    [by apply reachable_inv|by apply forwarding_reachable].
Qed.

(** ** The mutex of a service *)

(** What a step of a call does to the services: nothing; or it takes the
    mutex of its service, which was free; or it gives the mutex back, and
    only then may [routines] have changed. *)
Lemma step_frame_service client f0 σ f1 σ1 :
  step_frame client f0 σ = Some (f1, σ1) ->
  (services σ1 = services σ /\ holder f1 = holder f0) \/
  (exists s sv, services σ !! s = Some sv /\ mut sv = false /\
     holder f0 = None /\ holder f1 = Some s /\
     services σ1 = <[s := set_mut sv true]> (services σ)) \/
  (exists s sv sv', services σ !! s = Some sv /\
     holder f0 = Some s /\ holder f1 = None /\
     mut sv' = false /\ start sv' = start sv /\
     services σ1 = <[s := sv']> (services σ)).
Proof.
  intros Hsf.
  destruct f0 as [rest|s0 r pc|s0 pc|v|]; simpl in Hsf; try done.
  - destruct rest as [|c rest]; [by inversion Hsf; subst; auto|].
    destruct (passes (nodes σ) c); inversion Hsf; subst; auto.
  - destruct (services σ !! s0) as [sv0|] eqn:Hsv0; simpl in Hsf; [|done].
    destruct pc as [| | |child|child err|child err [|c rest]];
      repeat match type of Hsf with
             | context [if ?b then _ else _] => destruct b eqn:?
             | context [via ?r ?m ?w] => destruct (via r m w) as [[?|] ?]
             | context [via_Wait ?r] => destruct (via_Wait r)
             | context [call_start ?a ?b] => destruct (call_start a b) as [[?|]|]
             end; inversion Hsf; subst; cbn [services holder];
      first [ by left
            | right; left; by exists s0, sv0
            | match goal with
              | |- context [<[s0 := ?x]> (services σ) = <[_ := _]> _] =>
                  right; right; by exists s0, sv0, x
              end ].
  - destruct (services σ !! s0) as [sv0|] eqn:Hsv0; simpl in Hsf; [|done].
    destruct pc as [| | |[|c rest]];
      repeat match type of Hsf with
             | context [if ?b then _ else _] => destruct b eqn:?
             | context [via ?r ?m ?w] => destruct (via r m w) as [[?|] ?]
             | context [via_Wait ?r] => destruct (via_Wait r)
             end; inversion Hsf; subst; cbn [services holder];
      first [ by left
            | right; left; by exists s0, sv0
            | match goal with
              | |- context [<[s0 := ?x]> (services σ) = <[_ := _]> _] =>
                  right; right; by exists s0, sv0, x
              end ].
Qed.

(** A locked mutex is held by a call in progress. *)
Definition lock_held (σ : system) : Prop :=
  forall s sv, services σ !! s = Some sv -> mut sv = true ->
    exists f fr, frames σ !! f = Some fr /\ holder fr = Some s.

(** A call past [me.mut.Lock()] has the mutex locked. *)
Lemma holder_locked σ f fr s sv :
  sys_inv σ -> frames σ !! f = Some fr -> holder fr = Some s ->
  services σ !! s = Some sv -> mut sv = true.
Proof.
  intros Hinv Hf Hh Hsv. pose proof (sys_frames _ Hinv _ _ Hf) as Hok.
  destruct fr as [rest|s0 r pc|s0 pc|v|]; simpl in Hh; try done.
  - destruct Hok as (sv' & Hsv' & _ & Hpc).
    destruct pc; inversion Hh; subst; assert (sv' = sv) as -> by congruence;
      tauto.
  - destruct Hok as (sv' & Hsv' & Hpc).
    destruct pc; inversion Hh; subst; assert (sv' = sv) as -> by congruence;
      tauto.
Qed.

Lemma lock_held_step l σ σ' :
  sys_inv σ -> lock_held σ -> step l σ = Some σ' -> lock_held σ'.
Proof.
  intros Hinv Hheld Hs.
  assert (Hpush : forall w fr, lock_held (mkSystem w (services σ) (frames σ ++ fr))).
  { intros w fr s sv Hsv Hm. destruct (Hheld _ _ Hsv Hm) as (f & fr' & Hf & Hh).
    exists f, fr'. split; [by apply lookup_app_l_Some|done]. }
  assert (Hsame : forall w, lock_held (mkSystem w (services σ) (frames σ))).
  { intros w. specialize (Hpush w []). by rewrite app_nil_r in Hpush. }
  destruct l as [|me|me id|me|me|st|me x|me|g b|f client]; simpl in Hs.
  - inversion Hs; subst. apply Hsame.
  - destruct (points_in _ me); inversion Hs; subst. apply Hsame.
  - destruct (points_in _ me); inversion Hs; subst. apply Hsame.
  - destruct (points_in _ me); inversion Hs; subst. apply Hsame.
  - destruct (points_in _ me); inversion Hs; subst. apply Hpush.
  - inversion Hs; subst. intros s sv Hsv Hm. cbn [services frames] in *.
    apply lookup_app_Some in Hsv as [Hsv | [_ Hsv]]; [by eapply Hheld|].
    apply list_lookup_singleton_Some in Hsv as [_ <-]. by destruct st.
  - destruct (points_in _ me && holds_in _ x); inversion Hs; subst. apply Hpush.
  - destruct (points_in _ me); inversion Hs; subst. apply Hpush.
  - destruct (pool (nodes σ) !! g) as [g0|]; simpl in Hs; [|done].
    destruct (step_goroutine b g0 (nodes σ)) as [[g1 w1]|]; inversion Hs; subst.
    apply Hsame.
  - destruct (frames σ !! f) as [f0|] eqn:Hf; simpl in Hs; [|done].
    destruct (step_frame client f0 σ) as [[f1 σ1]|] eqn:Hsf; inversion Hs; subst.
    pose proof (lookup_lt_Some _ _ _ Hf) as Hlt.
    pose proof (step_frame_effect _ _ _ _ _ Hsf) as [Hfr _].
    intros s sv Hsv Hm. cbn [services frames] in *. rewrite Hfr.
    (* a call other than [f] that held a mutex holds it still *)
    assert (Hother : forall s' sv', services σ !! s' = Some sv' -> mut sv' = true ->
              holder f0 <> Some s' ->
              exists f' fr', <[f := f1]> (frames σ) !! f' = Some fr' /\
                holder fr' = Some s').
    { intros s' sv' Hsv' Hm' Hne. destruct (Hheld _ _ Hsv' Hm') as (f' & fr' & Hf' & Hh').
      exists f', fr'. split; [|done]. rewrite list_lookup_insert_ne; [done|].
      intros ->. congruence. }
    destruct (step_frame_service _ _ _ _ _ Hsf)
      as [[Hsvs Hh] | [(s0 & sv0 & Hsv0 & Hm0 & Hh0 & Hh1 & Hsvs)
                      | (s0 & sv0 & sv1 & Hsv0 & Hh0 & Hh1 & Hm1 & _ & Hsvs)]];
      rewrite Hsvs in Hsv.
    + destruct (decide (holder f0 = Some s)) as [Heq|Hne]; [|by eapply Hother].
      exists f, f1. split; [by apply list_lookup_insert_eq|congruence].
    + destruct (decide (s = s0)) as [->|Hne].
      * exists f, f1. split; [by apply list_lookup_insert_eq|done].
      * rewrite list_lookup_insert_ne in Hsv by done.
        eapply Hother; [done..|congruence].
    + destruct (decide (s = s0)) as [->|Hne].
      * rewrite list_lookup_insert_eq in Hsv by by eapply lookup_lt_Some.
        congruence.
      * rewrite list_lookup_insert_ne in Hsv by done.
        eapply Hother; [done..|congruence].
Qed.

Lemma lock_held_reachable σ : reachable σ -> lock_held σ.
Proof.
  intros [tr Hex].
  assert (H : forall σ0, sys_inv σ0 -> lock_held σ0 -> exec tr σ0 = Some σ -> lock_held σ).
  { clear Hex. induction tr as [|l tr IH]; intros σ0 Hinv Hheld Hex; simpl in Hex.
    - by inversion Hex; subst.
    - destruct (step l σ0) as [σ1|] eqn:Hs; simpl in Hex; [|done].
      eapply IH; [by eapply sys_inv_step|by eapply lock_held_step|done]. }
  apply (H init); [apply sys_inv_init| |done].
  intros s sv Hsv. simpl in Hsv. done.
Qed.

(** X7. The mutex of a service serialises the calls of [Start] and [Stop]
    on it.  At most one call on a service is between [me.mut.Lock()] and
    its return; the mutex is locked exactly while there is such a call, so
    no call that has returned or panicked leaves it locked; and while there
    is one, every other call of [Start] or [Stop] on the service is blocked
    at [me.mut.Lock()]. *)
Theorem mutex_serialises_calls (σ : system) (s : sptr) (sv : service) :
  reachable σ -> services σ !! s = Some sv ->
  (forall f1 f2 fr1 fr2,
     frames σ !! f1 = Some fr1 -> frames σ !! f2 = Some fr2 ->
     holder fr1 = Some s -> holder fr2 = Some s -> f1 = f2) /\
  (mut sv = true <->
   exists f fr, frames σ !! f = Some fr /\ holder fr = Some s) /\
  (forall f f' fr' r c,
     frames σ !! f = Some (in_Start s r start_Lock) \/
     frames σ !! f = Some (in_Stop s stop_Lock) ->
     frames σ !! f' = Some fr' -> holder fr' = Some s ->
     step (resume f c) σ = None).
Proof.
  intros Hreach Hsv. pose proof (reachable_inv _ Hreach) as Hinv.
  split; [|split].
  - intros f1 f2 fr1 fr2 H1 H2 Hh1 Hh2. by eapply (lock_unique _ Hinv).
  - split.
    + by apply (lock_held_reachable _ Hreach).
    + intros (f & fr & Hf & Hh). by eapply holder_locked.
  - intros f f' fr' r c Hf Hf' Hh'.
    pose proof (holder_locked _ _ _ _ _ Hinv Hf' Hh' Hsv) as Hm.
    unfold step. destruct Hf as [-> | ->]; cbn [mbind option_bind step_frame];
      rewrite Hsv; cbn [mbind option_bind]; by rewrite Hm.
Qed.

(** ** Stop of a service *)


Lemma call_service_Stop_step σ s sv :
  services σ !! s = Some sv ->
  step (call_service_Stop (Some s)) σ = Some (push_frame σ (in_Stop s stop_Lock)).
Proof.
  intros Hsv. unfold step, points_in.
  by rewrite bool_decide_eq_true_2 by by eapply lookup_lt_Some.
Qed.

Lemma Stop_takes_mutex σ s sv c :
  services σ !! s = Some sv -> mut sv = false ->
  step_frame c (in_Stop s stop_Lock) σ =
    Some (in_Stop s stop_check,
          mkSystem (nodes σ) (<[s := set_mut sv true]> (services σ)) (frames σ)).
Proof. intros Hsv Hm. cbn [step_frame]. rewrite Hsv. cbn [mbind option_bind]. by rewrite Hm. Qed.

Lemma Stop_not_running σ s sv c :
  services σ !! s = Some sv -> is_nil (s_routines sv) = true ->
  step_frame c (in_Stop s stop_check) σ =
    Some (returned no_value,
          mkSystem (nodes σ) (<[s := set_mut sv false]> (services σ)) (frames σ)).
Proof. intros Hsv Hn. cbn [step_frame]. rewrite Hsv. cbn [mbind option_bind]. by rewrite Hn. Qed.

Lemma Stop_is_running σ s sv c :
  services σ !! s = Some sv -> is_nil (s_routines sv) = false ->
  step_frame c (in_Stop s stop_check) σ = Some (in_Stop s stop_Stop, σ).
Proof. intros Hsv Hn. cbn [step_frame]. rewrite Hsv. cbn [mbind option_bind]. by rewrite Hn. Qed.

Lemma Stop_stops_active σ s sv ch c :
  services σ !! s = Some sv -> s_routines sv = of_ptr (Some ch) ->
  step_frame c (in_Stop s stop_Stop) σ =
    Some (in_Stop s (stop_Wait (Wait (Some ch))),
          mkSystem (Stop (Some ch) (nodes σ)).2 (services σ) (frames σ)).
Proof.
  intros Hsv Hr. cbn [step_frame]. rewrite Hsv. cbn [mbind option_bind].
  rewrite Hr. unfold via. by rewrite Stop_spec.
Qed.

Lemma Stop_wait_passes σ s sv c0 rest c :
  services σ !! s = Some sv -> counter (nodes σ) c0 = Some 0 ->
  step_frame c (in_Stop s (stop_Wait (c0 :: rest))) σ =
    Some (in_Stop s (stop_Wait rest), σ).
Proof.
  intros Hsv Hc. cbn [step_frame]. rewrite Hsv. cbn [mbind option_bind].
  unfold passes. rewrite Hc. by rewrite bool_decide_eq_true_2.
Qed.

Lemma Stop_returns σ s sv c :
  services σ !! s = Some sv ->
  step_frame c (in_Stop s (stop_Wait [])) σ =
    Some (returned no_value,
          mkSystem (nodes σ)
            (<[s := set_mut (set_routines sv nil_Routines) false]> (services σ))
            (frames σ)).
Proof. intros Hsv. cbn [step_frame]. by rewrite Hsv. Qed.

(** X8. [Stop] on a service that is not running, with the mutex free: the
    call takes the mutex, finds [routines] nil, gives the mutex back and
    returns; the system it leaves is the one it found, with nothing more
    than the returned call.  It stops no node and waits for nothing. *)
Theorem Stop_on_idle_service (σ : system) (s : sptr) (sv : service)
    (c1 c2 : outcome (option error)) :
  services σ !! s = Some sv ->
  is_nil (s_routines sv) = true ->
  mut sv = false ->
  exec [call_service_Stop (Some s); resume (length (frames σ)) c1;
        resume (length (frames σ)) c2] σ
    = Some (push_frame σ (returned no_value)).
Proof.
  intros Hsv Hidle Hm. pose proof (lookup_lt_Some _ _ _ Hsv) as Hlt.
  cbn [exec]. rewrite (call_service_Stop_step _ _ _ Hsv). cbn [mbind option_bind].
  unfold push_frame.
  erewrite resume_step; [|apply lookup_snoc|by apply Stop_takes_mutex].
  cbn [mbind option_bind nodes services frames]. rewrite insert_snoc.
  erewrite resume_step;
    [|apply lookup_snoc|apply Stop_not_running; [by apply list_lookup_insert_eq|done]].
  cbn [mbind option_bind nodes services frames].
  rewrite insert_snoc, list_insert_insert_eq. do 3 f_equal.
  apply list_insert_id. rewrite Hsv. f_equal. destruct sv; simpl in *. by subst.
Qed.







(** ** Start of a service *)

Lemma Start_stores_child σ s r sv child id :
  services σ !! s = Some sv -> start sv = client_start id ->
  step_frame (Ok None) (in_Start s r (start_call child)) σ =
    Some (returned (an_error None),
          mkSystem (nodes σ)
            (<[s := set_mut (set_routines sv child) false]> (services σ)) (frames σ)).
Proof.
  intros Hsv Hst. cbn [step_frame]. rewrite Hsv. cbn [mbind option_bind].
  by rewrite Hst.
Qed.

Lemma Start_success_run σ s sv id p c1 c2 c3 :
  services σ !! s = Some sv ->
  start sv = client_start id ->
  s_routines sv = nil_Routines ->
  mut sv = false ->
  (p < length (heap (nodes σ)))%nat ->
  exec [call_Start (Some s) (of_ptr (Some p));
        resume (length (frames σ)) c1; resume (length (frames σ)) c2;
        resume (length (frames σ)) c3; resume (length (frames σ)) (Ok None)] σ
    = Some (mkSystem
              (mkWorld
                 (alter (add_children 1) p (heap (nodes σ))
                    ++ [mkRoutines false 1 (Some p) 0])
                 (pool (nodes σ)
                    ++ [mkGoroutine (length (heap (nodes σ)))
                          (Calling (propagate (Some p)
                                      (of_ptr (Some (length (heap (nodes σ)))))))
                          (registered (Some p) (length (heap (nodes σ))))]))
              (<[s := mkService (client_start id) false
                        (of_ptr (Some (length (heap (nodes σ)))))]> (services σ))
              (frames σ ++ [returned (an_error None)])).
Proof.
  intros Hsv Hst Hnil Hm Hp. pose proof (lookup_lt_Some _ _ _ Hsv) as Hlt.
  assert (Hsv' : forall w frs,
    services (mkSystem w (<[s := set_mut sv true]> (services σ)) frs) !! s
      = Some (set_mut sv true)).
  { intros. cbn [services]. by apply list_lookup_insert_eq. }
  cbn [exec].
  erewrite call_Start_step; [|exact Hsv|cbn; by apply bool_decide_eq_true_2].
  cbn [mbind option_bind]. unfold push_frame.
  erewrite resume_step; [|apply lookup_snoc|by eapply Start_takes_mutex].
  cbn [mbind option_bind nodes services frames]. rewrite insert_snoc.
  erewrite resume_step;
    [|apply lookup_snoc|eapply Start_is_idle; [apply Hsv'|cbn; by rewrite Hnil]].
  cbn [mbind option_bind nodes services frames]. rewrite insert_snoc.
  erewrite resume_step; [|apply lookup_snoc|eapply Start_makes_child; [apply Hsv'|done]].
  cbn [mbind option_bind nodes services frames]. rewrite (Child_spec _ _ Hp).
  cbn [snd heap pool]. rewrite insert_snoc.
  erewrite resume_step; [|apply lookup_snoc|eapply Start_stores_child; [apply Hsv'|done]].
  cbn [mbind option_bind nodes services frames]. rewrite insert_snoc.
  rewrite list_insert_insert_eq. unfold set_mut, set_routines. cbn [start]. by rewrite Hst.
Qed.

(** X10. [Start] on a service that is not running, with the mutex free, a
    node [p] for parent and a start routine that returns nil: the call
    returns nil and leaves the service running.  Its active node is the
    node that [p.Child()] made, which is what the start routine was given;
    the mutex is free again, and nothing else has changed. *)
Theorem Start_runs_the_service (σ : system) (s : sptr) (sv : service) (id : nat)
    (p : ptr) (c1 c2 c3 : outcome (option error)) :
  services σ !! s = Some sv ->
  start sv = client_start id ->
  s_routines sv = nil_Routines ->
  mut sv = false ->
  (p < length (heap (nodes σ)))%nat ->
  exec [call_Start (Some s) (of_ptr (Some p));
        resume (length (frames σ)) c1; resume (length (frames σ)) c2;
        resume (length (frames σ)) c3; resume (length (frames σ)) (Ok None)] σ
    = Some (mkSystem
              (mkWorld
                 (alter (add_children 1) p (heap (nodes σ))
                    ++ [mkRoutines false 1 (Some p) 0])
                 (pool (nodes σ)
                    ++ [mkGoroutine (length (heap (nodes σ)))
                          (Calling (propagate (Some p)
                                      (of_ptr (Some (length (heap (nodes σ)))))))
                          (registered (Some p) (length (heap (nodes σ))))]))
              (<[s := mkService (client_start id) false
                        (of_ptr (Some (length (heap (nodes σ)))))]> (services σ))
              (frames σ ++ [returned (an_error None)])).
Proof. apply Start_success_run. Qed.

(** X11. [Start] with a nil [*routines] for parent.  [routines.Child()]
    returns the nil interface, which is what the start routine is given;
    when the routine returns nil, [Start] returns nil too, yet [me.routines]
    is assigned the nil interface: the service is not running, and the
    system is the one the call found, with nothing more than the returned
    call. *)
Theorem Start_with_nil_parent_starts_nothing (σ : system) (s : sptr) (sv : service)
    (id : nat) (c1 c2 c3 : outcome (option error)) :
  services σ !! s = Some sv ->
  start sv = client_start id ->
  s_routines sv = nil_Routines ->
  mut sv = false ->
  exec [call_Start (Some s) (of_ptr None);
        resume (length (frames σ)) c1; resume (length (frames σ)) c2;
        resume (length (frames σ)) c3] σ
    = Some (mkSystem (nodes σ) (<[s := set_mut sv true]> (services σ))
              (frames σ ++ [in_Start s (of_ptr None) (start_call nil_Routines)])) /\
  exec [call_Start (Some s) (of_ptr None);
        resume (length (frames σ)) c1; resume (length (frames σ)) c2;
        resume (length (frames σ)) c3; resume (length (frames σ)) (Ok None)] σ
    = Some (push_frame σ (returned (an_error None))).
Proof.
  intros Hsv Hst Hnil Hm. pose proof (lookup_lt_Some _ _ _ Hsv) as Hlt.
  assert (Hsv' : forall w frs,
    services (mkSystem w (<[s := set_mut sv true]> (services σ)) frs) !! s
      = Some (set_mut sv true)).
  { intros. cbn [services]. by apply list_lookup_insert_eq. }
  assert (H3 : exec [call_Start (Some s) (of_ptr None);
        resume (length (frames σ)) c1; resume (length (frames σ)) c2;
        resume (length (frames σ)) c3] σ
    = Some (mkSystem (nodes σ) (<[s := set_mut sv true]> (services σ))
              (frames σ ++ [in_Start s (of_ptr None) (start_call nil_Routines)]))).
  { cbn [exec].
    erewrite call_Start_step; [|exact Hsv|reflexivity].
    cbn [mbind option_bind]. unfold push_frame.
    erewrite resume_step; [|apply lookup_snoc|by eapply Start_takes_mutex].
    cbn [mbind option_bind nodes services frames]. rewrite insert_snoc.
    erewrite resume_step;
      [|apply lookup_snoc|eapply Start_is_idle; [apply Hsv'|cbn; by rewrite Hnil]].
    cbn [mbind option_bind nodes services frames]. rewrite insert_snoc.
    erewrite resume_step; [|apply lookup_snoc|].
    2: { cbn [step_frame]. rewrite Hsv'. cbn [mbind option_bind]. reflexivity. }
    cbn [mbind option_bind nodes services frames via Child ret fst snd].
    rewrite insert_snoc. by destruct (nodes σ). }
  split; [exact H3|].
  change [call_Start (Some s) (of_ptr None); resume (length (frames σ)) c1;
          resume (length (frames σ)) c2; resume (length (frames σ)) c3;
          resume (length (frames σ)) (Ok None)]
    with ([call_Start (Some s) (of_ptr None); resume (length (frames σ)) c1;
           resume (length (frames σ)) c2; resume (length (frames σ)) c3]
          ++ [resume (length (frames σ)) (Ok None)]).
  rewrite exec_app, H3. cbn [mbind option_bind exec].
  erewrite resume_step; [|apply lookup_snoc|eapply Start_stores_child; [apply Hsv'|done]].
  cbn [mbind option_bind nodes services frames]. rewrite insert_snoc.
  unfold push_frame. rewrite list_insert_insert_eq. do 3 f_equal.
  apply list_insert_id. rewrite Hsv. f_equal. destruct sv; simpl in *. by subst.
Qed.

(** ** Start, then Stop *)

(** [Start] with a start routine that returns nil, then [Stop]: the call of
    [Stop] stops the active node, the closure of that node takes the child
    case of its [select] and runs its two deferred calls, and the two calls
    of [Wait] pass. *)
Definition start_then_stop (s : sptr) (p : ptr) (f g : nat) : list label :=
  [call_Start (Some s) (of_ptr (Some p));
   resume f Panic; resume f Panic; resume f Panic; resume f (Ok None);
   call_service_Stop (Some s);
   resume (S f) Panic; resume (S f) Panic; resume (S f) Panic;
   run g false; run g false; run g false;
   resume (S f) Panic; resume (S f) Panic; resume (S f) Panic].

Lemma add_children_back (h : list routines) p :
  alter (add_children (-1)) p (alter (add_children 1) p h) = h.
Proof.
  rewrite list_alter_alter_eq. apply list_alter_id.
  intros [d w par c]. unfold add_children. simpl. f_equal. lia.
Qed.

(** X12. [Start], then [Stop], is a round trip.  From a service that is not
    running, a start routine that returns nil and a node [p] for parent,
    the schedule [start_then_stop] ends with both calls returned, the
    service exactly as it was — not running, mutex free, ready to be
    started again — and every node as it was: [Stop] has given back the
    count that [Start] put on [p], so a later [Wait] on [p] is not held up.
    What remains is the stopped node, closed and with both counters 0, and
    its closure, which has run its deferred calls. *)
Theorem Start_then_Stop_restores (σ : system) (s : sptr) (sv : service) (id : nat)
    (p : ptr) :
  reachable σ ->
  services σ !! s = Some sv -> start sv = client_start id ->
  s_routines sv = nil_Routines -> mut sv = false ->
  (p < length (heap (nodes σ)))%nat ->
  exec (start_then_stop s p (length (frames σ)) (length (pool (nodes σ)))) σ
    = Some (mkSystem
              (mkWorld
                 (heap (nodes σ) ++ [mkRoutines true 0 (Some p) 0])
                 (pool (nodes σ)
                    ++ [mkGoroutine (length (heap (nodes σ))) (Unwinding false) []]))
              (services σ)
              (frames σ ++ [returned (an_error None); returned no_value])).
Proof.
  intros Hreach Hsv Hst Hnil Hm Hp.
  pose proof (reachable_inv _ Hreach) as Hinv.
  pose proof (lookup_lt_Some _ _ _ Hsv) as Hlt.
  destruct (lookup_lt_is_Some_2 _ _ Hp) as [rp Hrp].
  assert (Hc0 : 0 <= children rp).
  { destruct (counters_exact _ (node_core _ (sys_nodes _ Hinv)) _ _ Hrp) as [_ ->].
    apply owed_nonneg. }
  unfold start_then_stop.
  change (?a :: ?b :: ?c :: ?d :: ?e :: ?rest)
    with ([a; b; c; d; e] ++ rest).
  rewrite exec_app, (Start_success_run _ _ _ _ _ _ _ _ Hsv Hst Hnil Hm Hp).
  cbn [mbind option_bind].
  set (c := length (heap (nodes σ))).
  set (g := length (pool (nodes σ))).
  set (h1 := alter (add_children 1) p (heap (nodes σ))).
  assert (Hh1 : length h1 = c) by apply length_alter.
  assert (Hp1 : h1 !! p = Some (add_children 1 rp)).
  { unfold h1. by rewrite list_lookup_alter_eq, Hrp. }
  set (run := mkService (client_start id) false (of_ptr (Some c))).
  assert (Hrun : forall w frs,
    services (mkSystem w (<[s := run]> (services σ)) frs) !! s = Some run).
  { intros. cbn [services]. by apply list_lookup_insert_eq. }
  assert (Hheld : forall w frs,
    services (mkSystem w (<[s := set_mut run true]> (<[s := run]> (services σ))) frs) !! s
      = Some (set_mut run true)).
  { intros. cbn [services]. apply list_lookup_insert_eq. by rewrite length_insert. }
  assert (Hf2 : forall (frs : list frame) x y, length frs = length (frames σ) ->
    (frs ++ [x; y]) !! S (length (frames σ)) = Some y).
  { intros frs x y <-. change (frs ++ [x; y]) with (frs ++ [x] ++ [y]).
    rewrite app_assoc. replace (S (length frs)) with (length (frs ++ [x]))
      by (rewrite length_app; simpl; lia). apply lookup_snoc. }
  assert (Hi2 : forall (frs : list frame) x y z, length frs = length (frames σ) ->
    <[S (length (frames σ)) := z]> (frs ++ [x; y]) = frs ++ [x; z]).
  { intros frs x y z <-. change (frs ++ [x; y]) with (frs ++ [x] ++ [y]).
    rewrite app_assoc. replace (S (length frs)) with (length (frs ++ [x]))
      by (rewrite length_app; simpl; lia). rewrite insert_snoc.
    by rewrite <- app_assoc. }
  cbn [exec].
  erewrite call_service_Stop_step; [|apply Hrun].
  cbn [mbind option_bind]. unfold push_frame. cbn [nodes services frames].
  rewrite <- app_assoc. cbn [app].
  erewrite resume_step; [|by apply Hf2|by eapply Stop_takes_mutex].
  cbn [mbind option_bind nodes services frames]. rewrite Hi2 by done.
  erewrite resume_step; [|by apply Hf2|by eapply Stop_is_running].
  cbn [mbind option_bind nodes services frames]. rewrite Hi2 by done.
  erewrite resume_step; [|by apply Hf2|eapply Stop_stops_active; [apply Hheld|done]].
  cbn [mbind option_bind nodes services frames]. rewrite Stop_spec.
  cbn [snd heap pool on_parent]. rewrite Hi2 by done.
  rewrite alter_at_end by done.
  erewrite run_child_case; [|apply lookup_snoc|reflexivity|].
  2: { cbn [nodes chan_ready heap]. by rewrite lookup_at_end. }
  unfold with_nodes, set_status.
  cbn [mbind option_bind nodes services frames heap pool g_owner defers].
  rewrite insert_at_end by reflexivity.
  erewrite run_deferred_returns; [|apply lookup_snoc|reflexivity|reflexivity|].
  2: { cbn [run_deferred childrenDown nodes registered]. eapply children_Done_spec.
       - cbn [heap]. apply lookup_app_l_Some, Hp1.
       - cbn [add_children children]. lia. }
  unfold with_nodes.
  cbn [mbind option_bind nodes services frames heap pool g_owner].
  rewrite insert_at_end by reflexivity.
  rewrite alter_app_l by (rewrite Hh1; exact Hp).
  unfold h1 at 1. rewrite add_children_back.
  erewrite run_deferred_returns; [|apply lookup_snoc|reflexivity|reflexivity|].
  2: { cbn [run_deferred nodes]. eapply waitgroup_Done_spec.
       - cbn [heap]. by apply lookup_at_end.
       - cbn [closed waitgroup]. lia. }
  unfold with_nodes.
  cbn [mbind option_bind nodes services frames heap pool g_owner].
  rewrite insert_at_end by reflexivity.
  rewrite alter_at_end by reflexivity.
  cbn [closed add_waitgroup doneCh waitgroup parent children Wait].
  replace (1 + -1) with 0 by lia.
  erewrite resume_step; [|by apply Hf2|eapply Stop_wait_passes; [apply Hheld|]].
  2: { cbn [counter nodes heap]. by rewrite lookup_at_end. }
  cbn [mbind option_bind nodes services frames]. rewrite Hi2 by done.
  erewrite resume_step; [|by apply Hf2|eapply Stop_wait_passes; [apply Hheld|]].
  2: { cbn [counter nodes heap]. by rewrite lookup_at_end. }
  cbn [mbind option_bind nodes services frames]. rewrite Hi2 by done.
  erewrite resume_step; [|by apply Hf2|eapply Stop_returns; apply Hheld].
  cbn [mbind option_bind nodes services frames]. rewrite Hi2 by done.
  rewrite !list_insert_insert_eq. do 3 f_equal.
  apply list_insert_id. rewrite Hsv. f_equal. destruct sv; simpl in *. by subst.
Qed.

(** ** A failed Start *)

Lemma Start_routine_fails σ s r sv child client err :
  services σ !! s = Some sv -> call_start (start sv) client = Ok (Some err) ->
  step_frame client (in_Start s r (start_call child)) σ =
    Some (in_Start s r (start_cleanup_Stop child err), σ).
Proof.
  intros Hsv Hst. cbn [step_frame]. rewrite Hsv. cbn [mbind option_bind].
  by rewrite Hst.
Qed.

(** [Start] whose start routine fails: the deferred function stops the
    candidate, the closure of the candidate takes the child case of its
    [select] and runs its two deferred calls, and the two calls of [Wait]
    pass. *)
Definition failing_Start (s : sptr) (p : ptr) (f g : nat)
    (client : outcome (option error)) : list label :=
  [call_Start (Some s) (of_ptr (Some p));
   resume f Panic; resume f Panic; resume f Panic; resume f client;
   resume f Panic;
   run g false; run g false; run g false;
   resume f Panic; resume f Panic; resume f Panic].

(** X13. A failed [Start] leaves nothing behind.  From a service that is
    not running and a node [p] for parent, when the start routine — the stub
    of [NewService(nil)] or a routine of the caller — returns an error, the
    schedule [failing_Start] ends with the call returned with that error,
    the service exactly as it was, and every node as it was: the count that
    [routines.Child()] put on [p] has been given back, so a later [Wait] on
    [p] is not held up.  What remains is the candidate, closed and with both
    counters 0, and its closure, which has run its deferred calls. *)
Theorem failed_Start_restores (σ : system) (s : sptr) (sv : service) (p : ptr)
    (client : outcome (option error)) (err : error) :
  reachable σ ->
  services σ !! s = Some sv ->
  call_start (start sv) client = Ok (Some err) ->
  s_routines sv = nil_Routines -> mut sv = false ->
  (p < length (heap (nodes σ)))%nat ->
  exec (failing_Start s p (length (frames σ)) (length (pool (nodes σ))) client) σ
    = Some (mkSystem
              (mkWorld
                 (heap (nodes σ) ++ [mkRoutines true 0 (Some p) 0])
                 (pool (nodes σ)
                    ++ [mkGoroutine (length (heap (nodes σ))) (Unwinding false) []]))
              (services σ)
              (frames σ ++ [returned (an_error (Some err))])).
Proof.
  intros Hreach Hsv Hfail Hnil Hmut Hp.
  pose proof (reachable_inv _ Hreach) as Hinv.
  pose proof (lookup_lt_Some _ _ _ Hsv) as Hlt.
  assert (Hsv' : forall w frs,
    services (mkSystem w (<[s := set_mut sv true]> (services σ)) frs) !! s
      = Some (set_mut sv true)).
  { intros. cbn [services]. by apply list_lookup_insert_eq. }
  destruct (lookup_lt_is_Some_2 _ _ Hp) as [rp Hrp].
  assert (Hc0 : 0 <= children rp).
  { destruct (counters_exact _ (node_core _ (sys_nodes _ Hinv)) _ _ Hrp) as [_ ->].
    apply owed_nonneg. }
  unfold failing_Start. cbn [exec].
  erewrite call_Start_step; [|exact Hsv|cbn; by apply bool_decide_eq_true_2].
  cbn [mbind option_bind]. unfold push_frame.
  erewrite resume_step; [|apply lookup_snoc|by eapply Start_takes_mutex].
  cbn [mbind option_bind nodes services frames]. rewrite insert_snoc.
  erewrite resume_step;
    [|apply lookup_snoc|eapply Start_is_idle; [apply Hsv'|cbn; by rewrite Hnil]].
  cbn [mbind option_bind nodes services frames]. rewrite insert_snoc.
  erewrite resume_step; [|apply lookup_snoc|eapply Start_makes_child; [apply Hsv'|done]].
  cbn [mbind option_bind nodes services frames]. rewrite (Child_spec _ _ Hp).
  cbn [snd heap pool]. rewrite insert_snoc.
  erewrite resume_step; [|apply lookup_snoc|eapply Start_routine_fails; [apply Hsv'|done]].
  cbn [mbind option_bind nodes services frames]. rewrite insert_snoc.
  erewrite resume_step; [|apply lookup_snoc|eapply Start_stops_child; apply Hsv'].
  cbn [mbind option_bind nodes services frames]. rewrite Stop_spec.
  cbn [snd heap pool on_parent]. rewrite insert_snoc.
  rewrite alter_at_end by by rewrite length_alter.
  set (c := length (heap (nodes σ))).
  set (g := length (pool (nodes σ))).
  set (h1 := alter (add_children 1) p (heap (nodes σ))).
  assert (Hh1 : length h1 = c) by apply length_alter.
  assert (Hp1 : h1 !! p = Some (add_children 1 rp)).
  { unfold h1. by rewrite list_lookup_alter_eq, Hrp. }
  erewrite run_child_case; [|apply lookup_snoc|reflexivity|].
  2: { cbn [nodes chan_ready heap]. by rewrite lookup_at_end. }
  unfold with_nodes, set_status.
  cbn [mbind option_bind nodes services frames heap pool g_owner defers].
  rewrite insert_at_end by reflexivity.
  erewrite run_deferred_returns; [|apply lookup_snoc|reflexivity|reflexivity|].
  2: { cbn [run_deferred childrenDown nodes]. eapply children_Done_spec.
       - cbn [heap]. apply lookup_app_l_Some, Hp1.
       - cbn [add_children children]. lia. }
  unfold with_nodes.
  cbn [mbind option_bind nodes services frames heap pool g_owner].
  rewrite insert_at_end by reflexivity.
  rewrite alter_app_l by (rewrite Hh1; exact Hp).
  unfold h1 at 1. rewrite add_children_back.
  erewrite run_deferred_returns; [|apply lookup_snoc|reflexivity|reflexivity|].
  2: { cbn [run_deferred nodes]. eapply waitgroup_Done_spec.
       - cbn [heap]. by apply lookup_at_end.
       - cbn [closed waitgroup]. lia. }
  unfold with_nodes.
  cbn [mbind option_bind nodes services frames heap pool g_owner].
  rewrite insert_at_end by reflexivity.
  rewrite alter_at_end by reflexivity.
  cbn [closed add_waitgroup doneCh waitgroup parent children Wait].
  replace (1 + -1) with 0 by lia.
  erewrite resume_step; [|apply lookup_snoc|eapply Start_wait_passes; [apply Hsv'|]].
  2: { cbn [counter nodes heap]. by rewrite lookup_at_end. }
  cbn [mbind option_bind nodes services frames]. rewrite insert_snoc.
  erewrite resume_step; [|apply lookup_snoc|eapply Start_wait_passes; [apply Hsv'|]].
  2: { cbn [counter nodes heap]. by rewrite lookup_at_end. }
  cbn [mbind option_bind nodes services frames]. rewrite insert_snoc.
  erewrite resume_step; [|apply lookup_snoc|eapply Start_returns_error; apply Hsv'].
  cbn [mbind option_bind nodes services frames]. rewrite insert_snoc.
  rewrite list_insert_insert_eq. do 3 f_equal.
  apply list_insert_id. rewrite Hsv. f_equal. destruct sv; simpl in *. by subst.
Qed.

(** ** Stop on a parent, Wait on its child *)









(** ** Worked schedules for the further properties *)

(** A root and its child. *)
Definition root_and_child : list label :=
  [call_NewRoutines; call_Child (Some 0%nat)].

Lemma hierarchy_is_fixed_witness :
  exists r', heap (nodes (after (root_and_child ++ [call_Stop (Some 1%nat)]))) !! 1%nat
               = Some r' /\
    parent r' = Some 0%nat.
Proof.
  destruct (hierarchy_is_fixed (after root_and_child)
              (after (root_and_child ++ [call_Stop (Some 1%nat)]))
              [call_Stop (Some 1%nat)] 1%nat (mkRoutines false 1 (Some 0%nat) 0))
    as [_ (r' & Hr' & Hp & _)];
    [by apply after_reachable|reflexivity|reflexivity|].
  by exists r'.
Defined.

(** A root and a goroutine launched on it, which ends and runs its two
    deferred calls. *)
Definition task_done : list label :=
  [call_NewRoutines; call_Go (Some 0%nat) 7%nat;
   run 0%nat true; run 0%nat true; run 0%nat true].

Lemma drained_node_owes_nothing_witness :
  defers (mkGoroutine 0%nat (Unwinding false) []) = [] /\
  running (mkGoroutine 0%nat (Unwinding false) []) = false.
Proof.
  apply (drained_node_owes_nothing (after task_done) 0%nat (mkRoutines false 0 None 0)
           0%nat (mkGoroutine 0%nat (Unwinding false) []));
    [by apply after_reachable|reflexivity..].
Defined.

(** [Wait] on the root; then [Stop] on the child, whose closure ends, and
    the three steps of [Wait]. *)
Definition stop_child_then_wait : list label :=
  [call_Stop (Some 1%nat); run 0%nat false; run 0%nat false; run 0%nat false;
   resume 0%nat Panic; resume 0%nat Panic; resume 0%nat Panic].

Lemma Wait_returns_after_Stop_witness :
  chan_ready
    (nodes (after (root_and_child ++ [call_Wait (Some 0%nat)] ++ stop_child_then_wait)))
    (Some 1%nat) = true.
Proof.
  destruct (Wait_returns_after_Stop
              (after (root_and_child ++ [call_Wait (Some 0%nat)]))
              (after (root_and_child ++ [call_Wait (Some 0%nat)] ++ stop_child_then_wait))
              stop_child_then_wait 0%nat 0%nat 1%nat (mkRoutines false 1 (Some 0%nat) 0))
    as [_ Hret]; [by apply after_reachable|reflexivity|reflexivity|by right|].
  apply Hret; reflexivity.
Defined.

(** A root, its child, the child of that child, and [Stop] on the root. *)
Definition three_deep_stopped : list label :=
  [call_NewRoutines; call_Child (Some 0%nat); call_Child (Some 1%nat);
   call_Stop (Some 0%nat)].

Lemma Stop_reaches_every_descendant_witness :
  exists tr σ',
    exec tr (after three_deep_stopped) = Some σ' /\
    (length tr <= 4)%nat /\
    chan_ready (nodes σ') (Some 2%nat) = true.
Proof.
  destruct (Stop_reaches_every_descendant (after three_deep_stopped) 0%nat 2%nat)
    as (tr & σ' & Hex & _ & Hlen & Hcl);
    [by apply after_reachable|right; left; reflexivity|reflexivity|].
  exists tr, σ'. split; [done|]. split; [exact Hlen|done].
Defined.

Lemma Stop_comes_from_above_witness :
  exists A, reaches (heap (nodes (after root_and_child))) 1%nat A /\
    (chan_ready (nodes (after root_and_child)) (Some A) = true \/
     In A (Stops_in [call_Stop (Some 0%nat); run 0%nat true; run 0%nat true]
             (after root_and_child))).
Proof.
  apply (Stop_comes_from_above (after root_and_child)
           (after (root_and_child
                   ++ [call_Stop (Some 0%nat); run 0%nat true; run 0%nat true]))
           [call_Stop (Some 0%nat); run 0%nat true; run 0%nat true] 1%nat
           (mkRoutines false 1 (Some 0%nat) 0));
    [by apply after_reachable|reflexivity..].
Defined.

(** A root, a service, and a call of [Start] that has taken the mutex. *)
Definition start_in_progress : list label :=
  [call_NewRoutines; call_NewService (Some 3%nat);
   call_Start (Some 0%nat) (of_ptr (Some 0%nat)); resume 0%nat Panic].

Lemma mutex_serialises_calls_witness :
  mut (mkService (client_start 3%nat) true nil_Routines) = true <->
  exists f fr, frames (after start_in_progress) !! f = Some fr /\
    holder fr = Some 0%nat.
Proof.
  destruct (mutex_serialises_calls (after start_in_progress) 0%nat
              (mkService (client_start 3%nat) true nil_Routines))
    as (_ & Hiff & _); [by apply after_reachable|reflexivity|].
  exact Hiff.
Defined.

(** A root and a service with a start routine of the caller. *)
Definition root_and_service : list label :=
  [call_NewRoutines; call_NewService (Some 3%nat)].

Lemma Stop_on_idle_service_witness :
  exec [call_service_Stop (Some 0%nat);
        resume (length (frames (after root_and_service))) Panic;
        resume (length (frames (after root_and_service))) Panic]
       (after root_and_service)
    = Some (push_frame (after root_and_service) (returned no_value)).
Proof.
  apply (Stop_on_idle_service (after root_and_service) 0%nat
           (mkService (client_start 3%nat) false nil_Routines) Panic Panic);
    reflexivity.
Defined.




Lemma Start_runs_the_service_witness :
  exists σ,
    exec [call_Start (Some 0%nat) (of_ptr (Some 0%nat));
          resume 0%nat Panic; resume 0%nat Panic; resume 0%nat Panic;
          resume 0%nat (Ok None)] (after root_and_service) = Some σ /\
    services σ !! 0%nat
      = Some (mkService (client_start 3%nat) false (of_ptr (Some 1%nat))).
Proof.
  eexists. split.
  - apply (Start_runs_the_service (after root_and_service) 0%nat
             (mkService (client_start 3%nat) false nil_Routines) 3%nat 0%nat
             Panic Panic Panic); [reflexivity..|vm_compute; lia].
  - reflexivity.
Defined.

Lemma Start_with_nil_parent_starts_nothing_witness :
  exec [call_Start (Some 0%nat) (of_ptr None);
        resume 0%nat Panic; resume 0%nat Panic; resume 0%nat Panic;
        resume 0%nat (Ok None)] (after root_and_service)
    = Some (push_frame (after root_and_service) (returned (an_error None))).
Proof.
  apply (Start_with_nil_parent_starts_nothing (after root_and_service) 0%nat
           (mkService (client_start 3%nat) false nil_Routines) 3%nat
           Panic Panic Panic); reflexivity.
Defined.

Lemma Start_then_Stop_restores_witness :
  exists σ,
    exec (start_then_stop 0%nat 0%nat 0%nat 0%nat) (after root_and_service) = Some σ /\
    services σ = services (after root_and_service) /\
    heap (nodes σ) !! 0%nat = heap (nodes (after root_and_service)) !! 0%nat.
Proof.
  eexists. split.
  - apply (Start_then_Stop_restores (after root_and_service) 0%nat
             (mkService (client_start 3%nat) false nil_Routines) 3%nat 0%nat);
      [by apply after_reachable|reflexivity..|vm_compute; lia].
  - split; reflexivity.
Defined.

Lemma failed_Start_restores_witness :
  exists σ,
    exec (failing_Start 0%nat 0%nat 0%nat 0%nat Panic)
         (after [call_NewRoutines; call_NewService None]) = Some σ /\
    frames σ !! 0%nat = Some (returned (an_error (Some NilArgument))) /\
    heap (nodes σ) !! 0%nat = Some (mkRoutines false 0 None 0).
Proof.
  eexists. split.
  - apply (failed_Start_restores (after [call_NewRoutines; call_NewService None])
             0%nat (NewService None) 0%nat Panic NilArgument);
      [by apply after_reachable|reflexivity..|vm_compute; lia].
  - split; reflexivity.
Defined.
